(** * Codediff diff engine: a shallow embedding and its properties

    The engine (an IIFE exposing [window.DiffEngine]) is a chain of pure
    functions: [splitLines], [normalizeForCompare], [myersDiff],
    [wordDiff] / [tokenizeWords] / [computeLCS], the two HTML renderers,
    [computeStats], [renderPlainText] and the entry point [run].

    Conventions of the embedding:
    - a JavaScript string is the list of its UTF-16 code units ([list Z]);
    - a value that may be [undefined] (an array read) is an [option];
    - JavaScript numbers that hold array indexes and counters are [Z];
    - an [Int32Array] / [Int16Array] is a [list Z] whose writes wrap. *)

From Stdlib Require Import ZArith Lia Bool String Ascii.
From stdpp Require Import base decidable option list numbers strings pretty.

Local Open Scope Z_scope.

(** ** JavaScript values used by the engine *)

Abbreviation jsstring := (list Z) (only parsing).
Abbreviation jsval := (option (list Z)) (only parsing).

(** [arr[i]] on an ordinary array: [undefined] outside of it. *)
Definition arr_get {A : Type} (l : list A) (i : Z) : option A :=
  if decide (0 ≤ i) then l !! Z.to_nat i else None.

(** Storing a number in an [Int32Array] slot applies ToInt32. *)
Definition to_int32 (z : Z) : Z := (z + 2 ^ 31) `mod` 2 ^ 32 - 2 ^ 31.

(** [V[i]] on a typed array. Every read the engine performs is inside the
    array (the guards [k === -d] and [k !== d] see to it, see
    [slots_in_bounds]); the value chosen here for a read outside is never
    observed. *)
Definition ta_get (V : list Z) (i : Z) : Z :=
  if decide (0 ≤ i) then default 0 (V !! Z.to_nat i) else 0.

(** [V[i] = x] on an [Int32Array]: ignored outside the array. *)
Definition ta_set (V : list Z) (i x : Z) : list Z :=
  if decide (0 ≤ i) then <[Z.to_nat i := to_int32 x]> V else V.

(** ** Line-level aligner: the edits *)

Inductive edit_type := EEqual | EInsert | EDelete.

Record edit := Edit { e_type : edit_type; li : Z; ri : Z }.

Global Instance edit_type_eq_dec : EqDecision edit_type.
Proof. solve_decision. Defined.

Section Myers.
Context {A : Type} `{EqDecision A}.
Variables a b : list A.

Let n : Z := Z.of_nat (length a).
Let m : Z := Z.of_nat (length b).
Let max : Z := n + m.

(** [while (x < n && y < m && a[x] === b[y]) { x++; y++; }], returning
    the final [x]. The loop runs at most [n - x] times. *)
Fixpoint snake (fuel : nat) (x y : Z) : Z :=
  match fuel with
  | O => x
  | S fuel' =>
      if bool_decide (x < n) && bool_decide (y < m)
         && bool_decide (arr_get a x = arr_get b y)
      then snake fuel' (x + 1) (y + 1)
      else x
  end.

(** The choice between "move down" and "move right". *)
Definition goes_down (V : list Z) (d k : Z) : bool :=
  let idx := k + max in
  bool_decide (k = - d)
  || (bool_decide (k ≠ d)
      && bool_decide (ta_get V (idx - 1) < ta_get V (idx + 1))).

Definition start_x (V : list Z) (d k : Z) : Z :=
  let idx := k + max in
  if goes_down V d k then ta_get V (idx + 1) else ta_get V (idx - 1) + 1.

(** The body of the [k] loop up to the snake: the final [x]. *)
Definition diag_end (V : list Z) (d k : Z) : Z :=
  let x := start_x V d k in
  snake (Z.to_nat (n - x)) x (x - k).

(** [for (let k = -d; k <= d; k += 2)]: the values of [k]. *)
Definition diagonals (d : Z) : list Z :=
  (λ i, - d + 2 * i) <$> seqZ 0 (d + 1).

(** The [k] loop; the boolean tells whether [break outer] was taken. *)
Fixpoint diagonals_loop (ks : list Z) (V : list Z) (d : Z) : list Z * bool :=
  match ks with
  | [] => (V, false)
  | k :: ks' =>
      let x := diag_end V d k in
      let y := x - k in
      let V' := ta_set V (k + max) x in
      if bool_decide (n ≤ x) && bool_decide (m ≤ y) then (V', true)
      else diagonals_loop ks' V' d
  end.

(** The [d] loop, labelled [outer]; it returns [trace]. *)
Fixpoint forward (ds : list Z) (V : list Z) (trace : list (list Z))
  : list (list Z) :=
  match ds with
  | [] => trace
  | d :: ds' =>
      let trace' := trace ++ [V] in
      let '(V', brk) := diagonals_loop (diagonals d) V d in
      if brk then trace' else forward ds' V' trace'
  end.

(** [while (x > prevX && y > prevY) { x--; y--; edits.push(equal) }]. *)
Fixpoint undo_snake (fuel : nat) (x y prevX prevY : Z) (edits : list edit)
  : Z * Z * list edit :=
  match fuel with
  | O => (x, y, edits)
  | S fuel' =>
      if bool_decide (x > prevX) && bool_decide (y > prevY)
      then undo_snake fuel' (x - 1) (y - 1) prevX prevY
             (edits ++ [Edit EEqual (x - 1) (y - 1)])
      else (x, y, edits)
  end.

(** The edit pushed, if any, once the snake is undone. *)
Definition undo_move (d x y prevX prevY : Z) (edits : list edit)
  : Z * Z * list edit :=
  if bool_decide (d > 0) then
    if bool_decide (x > prevX)
    then (x - 1, y, edits ++ [Edit EDelete (x - 1) (-1)])
    else if bool_decide (y > prevY)
    then (x, y - 1, edits ++ [Edit EInsert (-1) (y - 1)])
    else (x, y, edits)
  else (x, y, edits).

(** The backtracking loop
    [for (let d = trace.length - 1; d >= 0 && (x > 0 || y > 0); d--)];
    [c] is [d + 1]. *)
Fixpoint backtrack (trace : list (list Z)) (c : nat) (x y : Z)
    (edits : list edit) : list edit :=
  match c with
  | O => edits
  | S c' =>
      let d := Z.of_nat c' in
      if bool_decide (x > 0) || bool_decide (y > 0) then
        let vPrev := default [] (trace !! c') in
        let k := x - y in
        let prevK := if goes_down vPrev d k then k + 1 else k - 1 in
        let prevX := ta_get vPrev (prevK + max) in
        let prevY := prevX - prevK in
        let '(x1, y1, edits1) :=
          undo_snake (Z.to_nat (x - prevX)) x y prevX prevY edits in
        let '(x2, y2, edits2) := undo_move d x1 y1 prevX prevY edits1 in
        backtrack trace c' x2 y2 edits2
      else edits
  end.

(** Lines 62-116 of the engine: the edit list, in document order. *)
Definition myers_edits : list edit :=
  if bool_decide (max = 0) then []
  else
    let V := replicate (Z.to_nat (2 * max + 1)) 0 in
    let trace := forward (seqZ 0 (max + 1)) V [] in
    reverse (backtrack trace (length trace) n m []).

End Myers.

(** ** Reference notions for the aligner

    [script a b c]: [a] is turned into [b] by keeping lines and by [c]
    line deletions and insertions. The edit distance of [a] and [b] is
    the least such [c]. *)

Inductive script {A : Type} : list A → list A → nat → Prop :=
  | script_nil : script [] [] 0
  | script_keep x a b c : script a b c → script (x :: a) (x :: b) c
  | script_delete x a b c : script a b c → script (x :: a) b (S c)
  | script_insert y a b c : script a b c → script a (y :: b) (S c).

(** The number of non-[equal] edits of an edit list. *)
Definition edit_cost (es : list edit) : nat :=
  length (filter (λ e, e_type e ≠ EEqual) es).

Section EditGraph.
Context {A : Type} `{EqDecision A}.
Variables a b : list A.

(** Points of the edit graph of [a] and [b] reached from the origin
    with [c] horizontal or vertical moves. *)
Inductive reach : Z → Z → nat → Prop :=
  | reach_origin : reach 0 0 0
  | reach_diag x y c :
      reach x y c → x < Z.of_nat (length a) → y < Z.of_nat (length b) →
      arr_get a x = arr_get b y → reach (x + 1) (y + 1) c
  | reach_right x y c :
      reach x y c → x < Z.of_nat (length a) → reach (x + 1) y (S c)
  | reach_down x y c :
      reach x y c → y < Z.of_nat (length b) → reach x (y + 1) (S c).

(** An edit list read as a walk in the edit graph: each edit carries the
    index of the line it consumes on each side. *)
Inductive walk : Z → Z → list edit → Z → Z → Prop :=
  | walk_nil x y : walk x y [] x y
  | walk_equal x y es x' y' :
      x < Z.of_nat (length a) → y < Z.of_nat (length b) →
      arr_get a x = arr_get b y →
      walk (x + 1) (y + 1) es x' y' →
      walk x y (Edit EEqual x y :: es) x' y'
  | walk_delete x y es x' y' :
      x < Z.of_nat (length a) →
      walk (x + 1) y es x' y' →
      walk x y (Edit EDelete x (-1) :: es) x' y'
  | walk_insert x y es x' y' :
      y < Z.of_nat (length b) →
      walk x (y + 1) es x' y' →
      walk x y (Edit EInsert (-1) y :: es) x' y'.

(** The diagonals visited by step [d]: [-d, -d+2, ..., d]. *)
Definition diag (d : nat) (k : Z) : Prop :=
  ∃ i, 0 ≤ i ≤ Z.of_nat d ∧ k = 2 * i - Z.of_nat d.

(** The value the forward pass stores for diagonal [k] at step [d],
    as a function of the values of step [d - 1]. *)
Fixpoint fr (d : nat) (k : Z) : Z :=
  let x :=
    match d with
    | O => 0
    | S d' =>
        if bool_decide (k = - Z.of_nat d)
           || (bool_decide (k ≠ Z.of_nat d)
               && bool_decide (fr d' (k - 1) < fr d' (k + 1)))
        then fr d' (k + 1) else fr d' (k - 1) + 1
    end in
  snake a b (Z.to_nat (Z.of_nat (length a) - x)) x (x - k).

(** Whether step [d] enters diagonal [k] from the diagonal above. *)
Definition fr_down (d : nat) (k : Z) : bool :=
  match d with
  | O => true
  | S d' =>
      bool_decide (k = - Z.of_nat d)
      || (bool_decide (k ≠ Z.of_nat d)
          && bool_decide (fr d' (k - 1) < fr d' (k + 1)))
  end.

(** Where the snake of diagonal [k] starts at step [d]. *)
Definition fr_start (d : nat) (k : Z) : Z :=
  match d with
  | O => 0
  | S d' => if fr_down d k then fr d' (k + 1) else fr d' (k - 1) + 1
  end.

(** A point that may lie beyond the grid, seen from inside it: the
    grid point nearest to it is reached, with as many moves fewer as the
    point lies outside. *)
Definition reach_clamped (c : nat) (x y : Z) : Prop :=
  0 ≤ x ∧ 0 ≤ y
  ∧ ∃ c', reach (x `min` Z.of_nat (length a)) (y `min` Z.of_nat (length b)) c'
      ∧ Z.of_nat c' + 0 `max` (x - Z.of_nat (length a))
        + 0 `max` (y - Z.of_nat (length b)) = Z.of_nat c.

(** The step at which the forward pass stops on diagonal [k]. *)
Definition finished (d : nat) (k : Z) : Prop :=
  Z.of_nat (length a) ≤ fr d k ∧ Z.of_nat (length b) ≤ fr d k - k.

(** What step [d] reads: the values of step [d - 1] (all zero before
    step 0, where only the slot of diagonal 1 is read). *)
Definition prev_ok (d : nat) (V : list Z) : Prop :=
  match d with
  | O => ta_get V (1 + (Z.of_nat (length a) + Z.of_nat (length b))) = 0
  | S d' => ∀ k, diag d' k →
      ta_get V (k + (Z.of_nat (length a) + Z.of_nat (length b))) = fr d' k
  end.

(** The trace left by a forward pass that stopped at step [D]. *)
Definition trace_ok (trace : list (list Z)) (D : nat) : Prop :=
  length trace = S D
  ∧ (∀ j, (j ≤ D)%nat → ∃ T, trace !! j = Some T ∧ prev_ok j T)
  ∧ (∃ k, diag D k ∧ finished D k)
  ∧ (∀ j k, (j < D)%nat → diag j k → ¬ finished j k).

End EditGraph.

(** ** Strings *)

(** An ASCII string literal of the source, as code units. *)
Definition lit (s : string) : jsstring :=
  (λ c, Z.of_N (N_of_ascii c)) <$> list_ascii_of_string s.

(** A double-quoted attribute value, quotes included. *)
Definition quoted (s : string) : jsstring := [34] ++ lit s ++ [34].

(** A number inside a template literal: its decimal digits. *)
Definition num (z : Z) : jsstring := lit (pretty z).

(** A value inside a template literal. *)
Definition to_str (v : jsval) : jsstring :=
  match v with Some s => s | None => lit "undefined" end.

(** [arr[i]] on an array whose elements may themselves be [undefined]. *)
Definition js_index (l : list jsval) (i : Z) : jsval :=
  default None (arr_get l i).

Fixpoint take_while {A : Type} (p : A → bool) (l : list A) : list A :=
  match l with
  | [] => []
  | x :: l' => if p x then x :: take_while p l' else []
  end.

Fixpoint drop_while {A : Type} (p : A → bool) (l : list A) : list A :=
  match l with
  | [] => []
  | x :: l' => if p x then drop_while p l' else l
  end.

(** The class [\w] (no [i] or [u] flag): [A-Za-z0-9_]. *)
Definition is_word (c : Z) : bool :=
  bool_decide (48 ≤ c ≤ 57) || bool_decide (65 ≤ c ≤ 90)
  || bool_decide (c = 95) || bool_decide (97 ≤ c ≤ 122).

(** The class [\s]: WhiteSpace and LineTerminator code units. *)
Definition is_space (c : Z) : bool :=
  bool_decide (9 ≤ c ≤ 13) || bool_decide (c = 32) || bool_decide (c = 160)
  || bool_decide (c = 5760) || bool_decide (8192 ≤ c ≤ 8202)
  || bool_decide (c = 8232) || bool_decide (c = 8233)
  || bool_decide (c = 8239) || bool_decide (c = 8287)
  || bool_decide (c = 12288) || bool_decide (c = 65279).

(** ** HTML escaping *)

(** The table [ESC]; [None] for a character that is not a key. *)
Definition ESC (c : Z) : jsval :=
  if bool_decide (c = 38) then Some (lit "&amp;")
  else if bool_decide (c = 60) then Some (lit "&lt;")
  else if bool_decide (c = 62) then Some (lit "&gt;")
  else if bool_decide (c = 34) then Some (lit "&quot;")
  else if bool_decide (c = 39) then Some (lit "&#39;")
  else None.

(** [escape]: every character that is a key of [ESC] is replaced by its
    entity; a non-string gives the empty string. *)
Definition escape (str : jsval) : jsstring :=
  match str with
  | None => []
  | Some s => s ≫= (λ c, default [c] (ESC c))
  end.

(** ** Lines *)

(** [text.split(/\r?\n/)]; [cur] is the segment being read. *)
Fixpoint split_from (cur : jsstring) (text : jsstring) : list jsstring :=
  match text with
  | [] => [cur]
  | c :: text' =>
      if bool_decide (c = 10) then cur :: split_from [] text'
      else if bool_decide (c = 13) then
        match text' with
        | c' :: text'' =>
            if bool_decide (c' = 10) then cur :: split_from [] text''
            else split_from (cur ++ [c]) text'
        | [] => split_from (cur ++ [c]) text'
        end
      else split_from (cur ++ [c]) text'
  end.

Definition splitLines (text : jsstring) : list jsstring := split_from [] text.

(** [line.replace(/\s+/g, ' ')]; [in_run] tells that the previous
    character belonged to the run being replaced. *)
Fixpoint collapse_spaces (in_run : bool) (line : jsstring) : jsstring :=
  match line with
  | [] => []
  | c :: line' =>
      if is_space c then
        if in_run then collapse_spaces true line'
        else 32 :: collapse_spaces true line'
      else c :: collapse_spaces false line'
  end.

(** [String.prototype.trim]. *)
Definition trim (s : jsstring) : jsstring :=
  reverse (drop_while is_space (reverse (drop_while is_space s))).

Definition normalizeForCompare (line : jsstring) (ignoreWhitespace : bool)
  : jsstring :=
  if ignoreWhitespace then trim (collapse_spaces false line) else line.

(** ** Hunks and their consolidation *)

Inductive hunk_type := Equal | Changed | Removed | Added.

Record hunk := Hunk {
  type : hunk_type;
  lLines : list jsval;
  rLines : list jsval;
  lStart : Z;
  rStart : Z
}.

Global Instance hunk_type_eq_dec : EqDecision hunk_type.
Proof. solve_decision. Defined.

Definition is_delete (e : edit) : bool := bool_decide (e_type e = EDelete).
Definition is_insert (e : edit) : bool := bool_decide (e_type e = EInsert).

Section Consolidate.
Variables left right : list jsstring.

Definition equal_hunk (e : edit) : hunk :=
  Hunk Equal [arr_get left (li e)] [arr_get right (ri e)] (li e) (ri e).

Definition changed_hunk (del ins : edit) : hunk :=
  Hunk Changed [arr_get left (li del)] [arr_get right (ri ins)]
    (li del) (ri ins).

Definition removed_hunk (del : edit) : hunk :=
  Hunk Removed [arr_get left (li del)] [Some []] (li del) (-1).

Definition added_hunk (ins : edit) : hunk :=
  Hunk Added [Some []] [arr_get right (ri ins)] (-1) (ri ins).

(** The hunks pushed for a run [dels] followed by a run [ins]. *)
Definition block_hunks (dels ins : list edit) : list hunk :=
  if bool_decide (0 < length dels)%nat && bool_decide (0 < length ins)%nat
  then
    let count := (length dels `min` length ins)%nat in
    zip_with changed_hunk (take count dels) (take count ins)
    ++ (removed_hunk <$> drop count dels)
    ++ (added_hunk <$> drop count ins)
  else (removed_hunk <$> dels) ++ (added_hunk <$> ins).

(** [while (i < edits.length)], on the edits from index [i] on. Each
    iteration consumes at least one edit. *)
Fixpoint consolidate_loop (fuel : nat) (edits : list edit) : list hunk :=
  match fuel with
  | O => []
  | S fuel' =>
      match edits with
      | [] => []
      | edit :: rest =>
          match e_type edit with
          | EEqual => equal_hunk edit :: consolidate_loop fuel' rest
          | EDelete =>
              let dels := take_while is_delete edits in
              let after := drop_while is_delete edits in
              let ins := take_while is_insert after in
              block_hunks dels ins
              ++ consolidate_loop fuel' (drop_while is_insert after)
          | EInsert =>
              let ins := take_while is_insert edits in
              (added_hunk <$> ins)
              ++ consolidate_loop fuel' (drop_while is_insert edits)
          end
      end
  end.

Definition consolidate (edits : list edit) : list hunk :=
  consolidate_loop (length edits) edits.

End Consolidate.

(** [myersDiff]. The early [return []] for two empty sequences is the
    empty edit list of [myers_edits], which consolidates to no hunk. *)
Definition myersDiff (left right : list jsstring) (ignoreWhitespace : bool)
  : list hunk :=
  let a := (λ l, normalizeForCompare l ignoreWhitespace) <$> left in
  let b := (λ l, normalizeForCompare l ignoreWhitespace) <$> right in
  consolidate left right (myers_edits a b).

(** ** Word-level diff *)

(** [line.match(/\w+|\s+|[^\w\s]/g) || []]: at each position the first
    alternative that matches is taken, greedily; a position where none
    matches would be skipped. *)
Fixpoint match_tokens (fuel : nat) (s : jsstring) : list jsstring :=
  match fuel with
  | O => []
  | S fuel' =>
      match s with
      | [] => []
      | c :: s' =>
          if is_word c then
            take_while is_word s :: match_tokens fuel' (drop_while is_word s)
          else if is_space c then
            take_while is_space s :: match_tokens fuel' (drop_while is_space s)
          else if negb (is_word c || is_space c) then
            [c] :: match_tokens fuel' s'
          else match_tokens fuel' s'
      end
  end.

Definition tokenizeWords (line : jsstring) : list jsstring :=
  match_tokens (length line) line.

(** Storing a number in an [Int16Array] slot. *)
Definition to_int16 (z : Z) : Z := (z + 2 ^ 15) `mod` 2 ^ 16 - 2 ^ 15.

Definition dp_get (dp : list (list Z)) (i j : Z) : Z :=
  ta_get (default [] (arr_get dp i)) j.

Definition dp_set (dp : list (list Z)) (i j x : Z) : list (list Z) :=
  if decide (0 ≤ i ∧ 0 ≤ j)
  then alter (λ row, <[Z.to_nat j := to_int16 x]> row) (Z.to_nat i) dp
  else dp.

Section LCS.
Variables a b : list jsstring.

(** The body of the two nested [for] loops. *)
Definition lcs_cell (dp : list (list Z)) (i j : Z) : list (list Z) :=
  dp_set dp i j
    (if bool_decide (arr_get a (i - 1) = arr_get b (j - 1))
     then dp_get dp (i - 1) (j - 1) + 1
     else dp_get dp (i - 1) j `max` dp_get dp i (j - 1)).

Definition lcs_table (n m : Z) : list (list Z) :=
  foldl (λ dp i, foldl (λ dp j, lcs_cell dp i j) dp (seqZ 1 m))
    (replicate (Z.to_nat (n + 1)) (replicate (Z.to_nat (m + 1)) 0))
    (seqZ 1 n).

(** [while (i > 0 && j > 0)], with [result.unshift]. The value is that
    of the variables [i], [j] and [result] when the loop is left, or
    when [fuel] iterations are done. *)
Fixpoint lcs_walk (fuel : nat) (dp : list (list Z)) (i j : Z)
    (result : list jsval) : Z * Z * list jsval :=
  match fuel with
  | O => (i, j, result)
  | S fuel' =>
      if bool_decide (i > 0) && bool_decide (j > 0) then
        if bool_decide (arr_get a (i - 1) = arr_get b (j - 1))
        then lcs_walk fuel' dp (i - 1) (j - 1) (arr_get a (i - 1) :: result)
        else if bool_decide (dp_get dp (i - 1) j > dp_get dp i (j - 1))
        then lcs_walk fuel' dp (i - 1) j result
        else lcs_walk fuel' dp i (j - 1) result
      else (i, j, result)
  end.

Definition computeLCS : list jsval :=
  let n := Z.of_nat (length a) in
  let m := Z.of_nat (length b) in
  if bool_decide (n = 0) || bool_decide (m = 0) then []
  else if bool_decide (n * m > 100000) then []
  else (lcs_walk (Z.to_nat (n + m)) (lcs_table n m) n m []).2.

End LCS.

(** The variables of the loop of [wordDiff]. *)
Record word_state := WordState {
  ai : Z; bi : Z; w_li : Z; leftHtml : jsstring; rightHtml : jsstring
}.

Definition span_added (inner : jsstring) : jsstring :=
  lit "<span class=" ++ quoted "word-added" ++ lit ">" ++ inner
  ++ lit "</span>".

Definition span_removed (inner : jsstring) : jsstring :=
  lit "<span class=" ++ quoted "word-removed" ++ lit ">" ++ inner
  ++ lit "</span>".

Section WordDiff.
Variables tokA tokB : list jsstring.
Variable lcs : list jsval.

Definition word_guard (st : word_state) : bool :=
  bool_decide (ai st < Z.of_nat (length tokA))
  || bool_decide (bi st < Z.of_nat (length tokB)).

Definition word_body (st : word_state) : word_state :=
  let n := Z.of_nat (length tokA) in
  let m := Z.of_nat (length tokB) in
  if bool_decide (ai st < n) && bool_decide (bi st < m)
     && bool_decide (w_li st < Z.of_nat (length lcs))
     && bool_decide (arr_get tokA (ai st) = js_index lcs (w_li st))
     && bool_decide (arr_get tokB (bi st) = js_index lcs (w_li st))
  then
    WordState (ai st + 1) (bi st + 1) (w_li st + 1)
      (leftHtml st ++ escape (arr_get tokA (ai st)))
      (rightHtml st ++ escape (arr_get tokB (bi st)))
  else if bool_decide (bi st < m)
          && (bool_decide (n ≤ ai st)
              || negb (bool_decide
                         (js_index lcs (w_li st)
                          ∈ Some <$> drop (Z.to_nat (ai st)) tokA)))
  then
    WordState (ai st) (bi st + 1) (w_li st) (leftHtml st)
      (rightHtml st ++ span_added (escape (arr_get tokB (bi st))))
  else
    WordState (ai st + 1) (bi st) (w_li st)
      (leftHtml st ++ span_removed (escape (arr_get tokA (ai st))))
      (rightHtml st).

(** [while (ai < n || bi < m)]. *)
Fixpoint word_loop (fuel : nat) (st : word_state) : word_state :=
  match fuel with
  | O => st
  | S fuel' => if word_guard st then word_loop fuel' (word_body st) else st
  end.

End WordDiff.

Definition wordDiff (lineA lineB : jsstring) : jsstring * jsstring :=
  let tokA := tokenizeWords lineA in
  let tokB := tokenizeWords lineB in
  let lcs := computeLCS tokA tokB in
  let st := word_loop tokA tokB lcs (length tokA + length tokB)
              (WordState 0 0 0 [] []) in
  (leftHtml st, rightHtml st).

(** ** Renderers *)

Definition CONTEXT_LINES : Z := 4.

(** [h.lLines[0]] *)
Definition first_line (lines : list jsval) : jsval :=
  js_index lines 0.

(** The [visible] array: a hunk that is not [equal] makes itself and
    [CONTEXT_LINES] hunks on each side visible. *)
Definition mark_visible (hunks : list hunk) : list Z :=
  let len := Z.of_nat (length hunks) in
  foldl (λ visible '(i, h),
           if bool_decide (type h ≠ Equal) then
             let lo := 0 `max` (i - CONTEXT_LINES) in
             let hi := len `min` (i + CONTEXT_LINES + 1) in
             foldl (λ visible j, <[Z.to_nat j := 1]> visible) visible
               (seqZ lo (hi - lo))
           else visible)
    (replicate (length hunks) 0) (zip (seqZ 0 len) hunks).

(** [hunks.map(h => ...)] with the two counters it increments. *)
Fixpoint line_numbers (hunks : list hunk) (lLineNum rLineNum : Z)
  : list (option Z * option Z) :=
  match hunks with
  | [] => []
  | h :: hunks' =>
      let l := if bool_decide (0 ≤ lStart h) then Some lLineNum else None in
      let r := if bool_decide (0 ≤ rStart h) then Some rLineNum else None in
      (l, r)
      :: line_numbers hunks'
           (if bool_decide (0 ≤ lStart h) then lLineNum + 1 else lLineNum)
           (if bool_decide (0 ≤ rStart h) then rLineNum + 1 else rLineNum)
  end.

(** [hunks.some(h => h.type !== 'equal')] *)
Definition hasChanges (hunks : list hunk) : bool :=
  existsb (λ h, bool_decide (type h ≠ Equal)) hunks.

Definition no_differences : jsstring :=
  lit "<div style="
  ++ quoted "padding:20px;text-align:center;color:var(--diff-unchanged-text);font-family:var(--font-mono);font-size:0.85rem"
  ++ lit ">" ++ [10003] ++ lit " No differences found " ++ [8212]
  ++ lit " files are identical</div>".

Definition separator_row (colspan : string) (skipped : Z) : jsstring :=
  lit "<tr class=" ++ quoted "diff-separator" ++ lit "><td colspan="
  ++ quoted colspan ++ lit ">" ++ [8943] ++ lit " " ++ num skipped
  ++ lit " unchanged line" ++ (if bool_decide (skipped ≠ 1) then lit "s" else [])
  ++ lit " " ++ [8943] ++ lit "</td></tr>".

Definition typeToRowClass (t : hunk_type) : jsstring :=
  match t with
  | Equal => lit "line-equal"
  | Removed => lit "line-removed"
  | Added => lit "line-added"
  | Changed => lit "line-changed"
  end.

(** [wordDiff] called on two values: [undefined] has no [match] method,
    and the call throws (here: [None]). *)
Definition wordDiff_values (lineA lineB : jsval)
  : option (jsstring * jsstring) :=
  match lineA, lineB with
  | Some la, Some lb => Some (wordDiff la lb)
  | _, _ => None
  end.

(** [lHtml] and [rHtml] of a side-by-side row. *)
Definition side_cells (h : hunk) : option (jsstring * jsstring) :=
  if bool_decide (type h = Changed)
  then wordDiff_values (first_line (lLines h)) (first_line (rLines h))
  else Some (escape (first_line (lLines h)), escape (first_line (rLines h))).

Definition gutter (number : option Z) : jsstring :=
  match number with Some z => num z | None => [] end.

Definition side_row (rowClass lNum lCode rNum rCode : jsstring)
  : jsstring :=
  [10] ++ lit "<tr class=" ++ [34] ++ lit "diff-row " ++ rowClass ++ [34]
  ++ lit " role=" ++ quoted "row" ++ lit ">" ++ [10]
  ++ lit "  <td class=" ++ quoted "gutter-cell" ++ lit " role="
  ++ quoted "cell" ++ lit ">" ++ lNum ++ lit "</td>" ++ [10]
  ++ lit "  <td class=" ++ quoted "diff-cell" ++ lit " role="
  ++ quoted "cell" ++ lit ">" ++ lCode ++ lit "</td>" ++ [10]
  ++ lit "  <td class=" ++ quoted "diff-divider" ++ lit " role="
  ++ quoted "presentation" ++ lit "></td>" ++ [10]
  ++ lit "  <td class=" ++ quoted "gutter-cell" ++ lit " role="
  ++ quoted "cell" ++ lit ">" ++ rNum ++ lit "</td>" ++ [10]
  ++ lit "  <td class=" ++ quoted "diff-cell" ++ lit " role="
  ++ quoted "cell" ++ lit ">" ++ rCode ++ lit "</td>" ++ [10]
  ++ lit "</tr>".

(** The rows of a renderer loop: index, hunk, line numbers, visibility. *)
Definition indexed_rows (hunks : list hunk)
  : list (Z * (hunk * ((option Z * option Z) * Z))) :=
  zip (seqZ 0 (Z.of_nat (length hunks)))
    (zip hunks (zip (line_numbers hunks 1 1) (mark_visible hunks))).

(** The row loop of [renderSideBySide]; the state is [html] and
    [skippedStart]. *)
Fixpoint side_loop (rows : list (Z * (hunk * ((option Z * option Z) * Z))))
    (html : jsstring) (skippedStart : Z) : option (jsstring * Z) :=
  match rows with
  | [] => Some (html, skippedStart)
  | (i, (h, (nums, visible))) :: rows' =>
      if bool_decide (visible = 0) then
        side_loop rows' html
          (if bool_decide (skippedStart = -1) then i else skippedStart)
      else
        let html1 :=
          if bool_decide (skippedStart ≠ -1)
          then html ++ separator_row "6" (i - skippedStart) else html in
        match side_cells h with
        | None => None
        | Some (lHtml, rHtml) =>
            let lCode :=
              if bool_decide (first_line (lLines h) ≠ Some []) then lHtml
              else [] in
            let rCode :=
              if bool_decide (first_line (rLines h) ≠ Some []) then rHtml
              else [] in
            side_loop rows'
              (html1 ++ side_row (typeToRowClass (type h)) (gutter nums.1)
                          lCode (gutter nums.2) rCode)
              (-1)
        end
  end.

Definition renderSideBySide (hunks : list hunk) : option jsstring :=
  if negb (hasChanges hunks) then Some no_differences
  else
    let html :=
      lit "<table class=" ++ quoted "diff-table" ++ lit " role="
      ++ quoted "table"
      ++ lit "><colgroup><col/><col/><col/><col/><col/><col/></colgroup><tbody>"
    in
    match side_loop (indexed_rows hunks) html (-1) with
    | None => None
    | Some (html, skippedStart) =>
        let html :=
          if bool_decide (skippedStart ≠ -1)
          then html ++ separator_row "6"
                         (Z.of_nat (length hunks) - skippedStart)
          else html in
        Some (html ++ lit "</tbody></table>")
    end.

Definition inline_row (class : string) (col1 col2 code : jsstring)
  : jsstring :=
  lit "<tr class=" ++ quoted class ++ lit ">" ++ [10]
  ++ lit "  <td class=" ++ quoted "inline-gutter" ++ lit ">" ++ col1
  ++ lit "</td>" ++ [10]
  ++ lit "  <td class=" ++ quoted "inline-gutter" ++ lit ">" ++ col2
  ++ lit "</td>" ++ [10]
  ++ lit "  <td class=" ++ quoted "inline-code" ++ lit ">" ++ code
  ++ lit "</td>" ++ [10]
  ++ lit "</tr>".

(** The variables of the row loop of [renderInline]. *)
Record inline_state := InlineState {
  i_html : jsstring; i_skippedStart : Z; i_lLineNum : Z; i_rLineNum : Z
}.

Fixpoint inline_loop (rows : list (Z * (hunk * Z))) (st : inline_state)
  : option inline_state :=
  match rows with
  | [] => Some st
  | (i, (h, visible)) :: rows' =>
      if bool_decide (visible = 0) then
        inline_loop rows'
          (InlineState (i_html st)
             (if bool_decide (i_skippedStart st = -1) then i
              else i_skippedStart st)
             (if bool_decide (0 ≤ lStart h) then i_lLineNum st + 1
              else i_lLineNum st)
             (if bool_decide (0 ≤ rStart h) then i_rLineNum st + 1
              else i_rLineNum st))
      else
        let html1 :=
          if bool_decide (i_skippedStart st ≠ -1)
          then i_html st ++ separator_row "3" (i - i_skippedStart st)
          else i_html st in
        let ln := i_lLineNum st in
        let rn := i_rLineNum st in
        match type h with
        | Equal =>
            inline_loop rows'
              (InlineState
                 (html1 ++ inline_row "inline-equal" (num ln) (lit "  ")
                             (escape (first_line (lLines h))))
                 (-1) (ln + 1) (rn + 1))
        | Removed =>
            inline_loop rows'
              (InlineState
                 (html1 ++ inline_row "inline-removed" (num ln) [8722]
                             (escape (first_line (lLines h))))
                 (-1) (ln + 1) rn)
        | Added =>
            inline_loop rows'
              (InlineState
                 (html1 ++ inline_row "inline-added" (lit "  ") (num rn)
                             (escape (first_line (rLines h))))
                 (-1) ln (rn + 1))
        | Changed =>
            match wordDiff_values (first_line (lLines h))
                    (first_line (rLines h)) with
            | None => None
            | Some (leftHtml, rightHtml) =>
                inline_loop rows'
                  (InlineState
                     (html1
                      ++ inline_row "inline-removed" (num ln) [8722] leftHtml
                      ++ [10]
                      ++ inline_row "inline-added" (lit "  ") (num rn)
                           rightHtml)
                     (-1) (ln + 1) (rn + 1))
            end
        end
  end.

Definition renderInline (hunks : list hunk) : option jsstring :=
  if negb (hasChanges hunks) then Some no_differences
  else
    let html :=
      lit "<table class=" ++ quoted "inline-table" ++ lit " role="
      ++ quoted "table"
      ++ lit "><colgroup><col/><col/><col/></colgroup><tbody>" in
    match inline_loop
            (zip (seqZ 0 (Z.of_nat (length hunks)))
               (zip hunks (mark_visible hunks)))
            (InlineState html (-1) 1 1) with
    | None => None
    | Some st =>
        let html :=
          if bool_decide (i_skippedStart st ≠ -1)
          then i_html st
               ++ separator_row "3"
                    (Z.of_nat (length hunks) - i_skippedStart st)
          else i_html st in
        Some (html ++ lit "</tbody></table>")
    end.

(** ** Statistics and plain text *)

Record stats := Stats { added : Z; removed : Z; changed : Z }.

Definition computeStats (hunks : list hunk) : stats :=
  foldl (λ s h,
           let s1 := if bool_decide (type h = Added)
                     then Stats (added s + 1) (removed s) (changed s) else s in
           let s2 := if bool_decide (type h = Removed)
                     then Stats (added s1) (removed s1 + 1) (changed s1)
                     else s1 in
           if bool_decide (type h = Changed)
           then Stats (added s2) (removed s2) (changed s2 + 1) else s2)
    (Stats 0 0 0) hunks.

(** [renderPlainText]; its two line counters are never read. *)
Definition renderPlainText (hunks : list hunk) : jsstring :=
  foldl (λ out h,
           match type h with
           | Equal => out ++ lit "  " ++ to_str (first_line (lLines h)) ++ [10]
           | Removed => out ++ lit "- " ++ to_str (first_line (lLines h)) ++ [10]
           | Added => out ++ lit "+ " ++ to_str (first_line (rLines h)) ++ [10]
           | Changed =>
               out ++ lit "- " ++ to_str (first_line (lLines h)) ++ [10]
               ++ lit "+ " ++ to_str (first_line (rLines h)) ++ [10]
           end)
    [] hunks.

(** ** The entry point *)

Record options := Options {
  ignoreWhitespace : bool;
  jsonMode : bool;
  viewMode : jsstring
}.

(** What [run] returns: [{ error }] or [{ html, stats, plainText, hunks }]. *)
Inductive run_result :=
  | RunError (error : jsstring)
  | RunOk (html : jsstring) (st : stats) (plainText : jsstring)
      (hunks : list hunk).

Section Run.
(** [JSON.parse] and [JSON.stringify(_, null, 2)] belong to the host.
    Each of them either throws, which is [inl] with the message of the
    exception, or returns: the parser a value, the printer the text of
    the value. The printer can throw on a value that the parser
    returned (on a value nested too deep for it, for one). *)
Variable json : Type.
Variable JSON_parse : jsstring → jsstring + json.
Variable JSON_stringify : json → jsstring + jsstring.

(** [normalizeJSON]; [inl message] when [JSON.parse] or
    [JSON.stringify] throws: the caller catches both. *)
Definition normalizeJSON (text : jsstring) : jsstring + jsstring :=
  match JSON_parse text with
  | inl message => inl message
  | inr parsed => JSON_stringify parsed
  end.

(** The part of [run] after JSON normalization. [None]: an exception
    escapes a renderer. *)
Definition run_lines (left right : jsstring) (opts : options)
  : option run_result :=
  let leftLines := splitLines left in
  let rightLines := splitLines right in
  let hunks := myersDiff leftLines rightLines (ignoreWhitespace opts) in
  let st := computeStats hunks in
  match (if bool_decide (viewMode opts = lit "sidebyside")
         then renderSideBySide hunks else renderInline hunks) with
  | None => None
  | Some html => Some (RunOk html st (renderPlainText hunks) hunks)
  end.

Definition run (leftText rightText : jsstring) (opts : options)
  : option run_result :=
  if jsonMode opts then
    match normalizeJSON leftText with
    | inl message =>
        Some (RunError (lit "Left pane: Invalid JSON " ++ [8212] ++ lit " "
                        ++ message))
    | inr left' =>
        match normalizeJSON rightText with
        | inl message =>
            Some (RunError (lit "Right pane: Invalid JSON " ++ [8212]
                            ++ lit " " ++ message))
        | inr right' => run_lines left' right' opts
        end
    end
  else run_lines leftText rightText opts.

End Run.
(** ** The application: suggestions (main.js)

    The page lists the changed hunks of a result as suggestions
    ([buildSuggestions]) and writes one of them back into the left
    editor ([applyLineChange]). The text of the editor is passed
    explicitly; the updates of the page and the timer of [autoCompare]
    are left out. *)

(** [lines.join('\n')]; an element that is [undefined] is joined as the
    empty string. *)
Fixpoint join_lines (lines : list jsval) : jsstring :=
  match lines with
  | [] => []
  | l :: rest =>
      match rest with
      | [] => default [] l
      | _ :: _ => default [] l ++ [10] ++ join_lines rest
      end
  end.

(** [applyLineChange]: the new text of the left editor. *)
Definition applyLineChange (value : jsstring) (lineNum : Z) (newVal : jsval)
  : jsstring :=
  let lines := splitLines value in
  if bool_decide (1 ≤ lineNum)
     && bool_decide (lineNum ≤ Z.of_nat (length lines))
  then join_lines (<[Z.to_nat (lineNum - 1) := newVal]> (Some <$> lines))
  else value.

Record suggestion := Suggestion {
  lLineNum : Z;
  oldVal : jsval;
  newVal : jsval
}.

(** The loop of [buildSuggestions] that fills [suggestionData], with its
    two line counters. *)
Fixpoint suggestions_from (hunks : list hunk) (lLine rLine : Z)
  : list suggestion :=
  match hunks with
  | [] => []
  | h :: hunks' =>
      match type h with
      | Changed =>
          Suggestion lLine (first_line (lLines h)) (first_line (rLines h))
          :: suggestions_from hunks' (lLine + 1) (rLine + 1)
      | Equal => suggestions_from hunks' (lLine + 1) (rLine + 1)
      | Removed => suggestions_from hunks' (lLine + 1) rLine
      | Added => suggestions_from hunks' lLine (rLine + 1)
      end
  end.

Definition suggestionData (hunks : list hunk) : list suggestion :=
  suggestions_from hunks 1 1.

(** ** Notions used to state the properties *)

(** A token is a run of word characters, a run of whitespace, or one
    other symbol. *)
Definition token_shape (t : list Z) : Prop :=
  (t ≠ [] ∧ Forall (λ c, is_word c = true) t)
  ∨ (t ≠ [] ∧ Forall (λ c, is_space c = true) t)
  ∨ (∃ c, t = [c] ∧ is_word c = false ∧ is_space c = false).

(** Two tokens that follow each other are not part of one longer run. *)
Definition run_ends (t1 t2 : list Z) : Prop :=
  ∀ c1 c2, last t1 = Some c1 → head t2 = Some c2 →
    ¬ (is_word c1 = true ∧ is_word c2 = true)
    ∧ ¬ (is_space c1 = true ∧ is_space c2 = true).

Fixpoint runs_maximal (toks : list (list Z)) : Prop :=
  match toks with
  | t1 :: toks' =>
      match toks' with
      | t2 :: _ => run_ends t1 t2
      | [] => True
      end ∧ runs_maximal toks'
  | [] => True
  end.

(** [html] shows the tokens [toks] in order, each of them escaped, the
    marked ones inside [wrap]. *)
Definition marked (wrap : list Z → list Z) (toks : list (list Z))
    (html : list Z) : Prop :=
  ∃ marks : list bool,
    length marks = length toks
    ∧ html = concat (zip_with
                       (λ (mk : bool) t,
                          if mk then wrap (escape (Some t))
                          else escape (Some t))
                       marks toks).

(** The two indexes of the walk of [wordDiff] are inside their arrays. *)
Definition word_in_range (tokA tokB : list (list Z)) (st : word_state)
  : Prop :=
  0 ≤ ai st ≤ Z.of_nat (length tokA) ∧ 0 ≤ bi st ≤ Z.of_nat (length tokB).

(** How [consolidate] reads an edit list: one [equal] edit at a time, a
    maximal run of deletes with the maximal run of inserts behind it, or
    a maximal run of inserts on its own. *)
Inductive parsed (left right : list (list Z))
  : list edit → list hunk → Prop :=
  | parsed_nil : parsed left right [] []
  | parsed_equal e rest hs :
      e_type e = EEqual → parsed left right rest hs →
      parsed left right (e :: rest) (equal_hunk left right e :: hs)
  | parsed_block dels ins rest hs :
      dels ≠ [] →
      Forall (λ e, e_type e = EDelete) dels →
      Forall (λ e, e_type e = EInsert) ins →
      (∀ e, head rest = Some e →
         e_type e ≠ EInsert ∧ (ins = [] → e_type e ≠ EDelete)) →
      parsed left right rest hs →
      parsed left right (dels ++ ins ++ rest)
        (block_hunks left right dels ins ++ hs)
  | parsed_inserts ins rest hs :
      ins ≠ [] →
      Forall (λ e, e_type e = EInsert) ins →
      (∀ e, head rest = Some e → e_type e ≠ EInsert) →
      parsed left right rest hs →
      parsed left right (ins ++ rest) ((added_hunk right <$> ins) ++ hs).

(** The side of a hunk holds the line of index [start]; or it holds no
    line (the placeholder is the empty string at index [-1]). *)
Definition side_present (lines : list (list Z)) (start : Z)
    (shown : list (option (list Z))) : Prop :=
  0 ≤ start < Z.of_nat (length lines)
  ∧ ∃ l, lines !! Z.to_nat start = Some l ∧ shown = [Some l].

Definition side_absent (start : Z) (shown : list (option (list Z))) : Prop :=
  start = -1 ∧ shown = [Some []].

(** An edit names a line of each side it touches, and [-1] otherwise. *)
Definition edit_valid (n m : Z) (e : edit) : Prop :=
  match e_type e with
  | EEqual => 0 ≤ li e < n ∧ 0 ≤ ri e < m
  | EDelete => 0 ≤ li e < n ∧ ri e = -1
  | EInsert => li e = -1 ∧ 0 ≤ ri e < m
  end.

(** The side-presence invariant of a hunk. *)
Definition hunk_sides (left right : list (list Z)) (h : hunk) : Prop :=
  match type h with
  | Equal | Changed =>
      side_present left (lStart h) (lLines h)
      ∧ side_present right (rStart h) (rLines h)
  | Removed =>
      side_present left (lStart h) (lLines h)
      ∧ side_absent (rStart h) (rLines h)
  | Added =>
      side_absent (lStart h) (lLines h)
      ∧ side_present right (rStart h) (rLines h)
  end.

(** The hunks that show a line of the left side, of the right side. *)
Definition with_left (hunks : list hunk) : list hunk :=
  filter (λ h, type h ≠ Added) hunks.

Definition with_right (hunks : list hunk) : list hunk :=
  filter (λ h, type h ≠ Removed) hunks.

(** The [hunks] field of a result, when [run] returns one. *)
Definition result_hunks (r : option run_result) : option (list hunk) :=
  match r with
  | Some (RunOk _ _ _ hunks) => Some hunks
  | _ => None
  end.

(** A changed hunk holds a string on each side, so that [wordDiff] can
    be called on it. *)
Definition lines_present (h : hunk) : Prop :=
  type h = Changed →
  is_Some (first_line (lLines h)) ∧ is_Some (first_line (rLines h)).

(** ** Markup that is safe to embed

    The characters that carry markup, the entities [escape] emits and
    the tags the engine writes. *)

Definition is_markup_char (c : Z) : bool :=
  bool_decide (c = 38) || bool_decide (c = 60) || bool_decide (c = 62)
  || bool_decide (c = 34) || bool_decide (c = 39).

Definition entities : list (list Z) :=
  [lit "&amp;"; lit "&lt;"; lit "&gt;"; lit "&quot;"; lit "&#39;"].

Definition row_tag (class : string) : list Z :=
  lit "<tr class=" ++ quoted class ++ lit " role=" ++ quoted "row" ++ lit ">".

Definition cell_tag (class role : string) : list Z :=
  lit "<td class=" ++ quoted class ++ lit " role=" ++ quoted role ++ lit ">".

Definition tags : list (list Z) :=
  [ lit "<table class=" ++ quoted "diff-table" ++ lit " role="
      ++ quoted "table" ++ lit ">";
    lit "<table class=" ++ quoted "inline-table" ++ lit " role="
      ++ quoted "table" ++ lit ">";
    lit "<colgroup>"; lit "<col/>"; lit "</colgroup>";
    lit "<tbody>"; lit "</tbody>"; lit "</table>";
    lit "<tr class=" ++ quoted "diff-separator" ++ lit ">";
    lit "<td colspan=" ++ quoted "6" ++ lit ">";
    lit "<td colspan=" ++ quoted "3" ++ lit ">";
    lit "</td>"; lit "</tr>";
    row_tag "diff-row line-equal"; row_tag "diff-row line-removed";
    row_tag "diff-row line-added"; row_tag "diff-row line-changed";
    cell_tag "gutter-cell" "cell"; cell_tag "diff-cell" "cell";
    cell_tag "diff-divider" "presentation";
    lit "<tr class=" ++ quoted "inline-equal" ++ lit ">";
    lit "<tr class=" ++ quoted "inline-removed" ++ lit ">";
    lit "<tr class=" ++ quoted "inline-added" ++ lit ">";
    lit "<td class=" ++ quoted "inline-gutter" ++ lit ">";
    lit "<td class=" ++ quoted "inline-code" ++ lit ">";
    lit "<span class=" ++ quoted "word-added" ++ lit ">";
    lit "<span class=" ++ quoted "word-removed" ++ lit ">";
    lit "</span>";
    lit "<div style="
      ++ quoted "padding:20px;text-align:center;color:var(--diff-unchanged-text);font-family:var(--font-mono);font-size:0.85rem"
      ++ lit ">";
    lit "</div>" ].

(** Escaped text: characters that carry no markup, and entities. *)
Inductive escaped : list Z → Prop :=
  | escaped_nil : escaped []
  | escaped_char c s :
      is_markup_char c = false → escaped s → escaped (c :: s)
  | escaped_entity e s : e ∈ entities → escaped s → escaped (e ++ s).

(** Safe markup: escaped text between tags of the engine. *)
Inductive safe_html : list Z → Prop :=
  | safe_nil : safe_html []
  | safe_char c s :
      is_markup_char c = false → safe_html s → safe_html (c :: s)
  | safe_entity e s : e ∈ entities → safe_html s → safe_html (e ++ s)
  | safe_tag t s : t ∈ tags → safe_html s → safe_html (t ++ s).

(** A decision procedure for the literal parts of the templates. *)
Fixpoint strip_prefix (p s : list Z) : option (list Z) :=
  match p with
  | [] => Some s
  | c :: p' =>
      match s with
      | c' :: s' => if bool_decide (c = c') then strip_prefix p' s' else None
      | [] => None
      end
  end.

Fixpoint strip_any (ps : list (list Z)) (s : list Z) : option (list Z) :=
  match ps with
  | [] => None
  | p :: ps' =>
      match strip_prefix p s with
      | Some rest => Some rest
      | None => strip_any ps' s
      end
  end.

Fixpoint check_html (fuel : nat) (s : list Z) : bool :=
  match fuel with
  | O => false
  | S fuel' =>
      match s with
      | [] => true
      | c :: s' =>
          if negb (is_markup_char c) then check_html fuel' s'
          else
            match strip_any entities s with
            | Some rest => check_html fuel' rest
            | None =>
                match strip_any tags s with
                | Some rest => check_html fuel' rest
                | None => false
                end
            end
      end
  end.

(** A template literal: literal parts ([false]) and substitutions. *)
Fixpoint fill (t : list (bool * list Z)) : list Z :=
  match t with
  | [] => []
  | (_, s) :: t' => s ++ fill t'
  end.

(** The literal text between two substitutions. *)
Fixpoint literal_groups (t : list (bool * list Z)) (cur : list Z)
  : list (list Z) :=
  match t with
  | [] => [cur]
  | (false, s) :: t' => literal_groups t' (cur ++ s)
  | (true, _) :: t' => cur :: literal_groups t' []
  end.

Definition check_template (t : list (bool * list Z)) : bool :=
  forallb (λ s, check_html (S (length s)) s) (literal_groups t []).
(** ** Further notions used to state the properties *)

(** A text in which every CR LF pair is written LF. *)
Fixpoint lf_only (text : list Z) : list Z :=
  match text with
  | [] => []
  | c :: text' =>
      match text' with
      | c' :: _ =>
          if bool_decide (c = 13) && bool_decide (c' = 10)
          then lf_only text'
          else c :: lf_only text'
      | [] => [c]
      end
  end.

(** A line as [splitLines] returns it: no LF inside. A line that can be
    joined and split again: moreover no CR at its end. *)
Definition no_lf (line : list Z) : Prop := 10 ∉ line.

Definition no_cr_end (line : list Z) : Prop := last line ≠ Some 13.

(** [reverse (drop_while p (reverse s))], read from the left: the
    longest suffix of [s] that satisfies [p] is dropped. *)
Fixpoint drop_end {A : Type} (p : A → bool) (s : list A) : list A :=
  match s with
  | [] => []
  | c :: s' =>
      match drop_end p s' with
      | [] => if p c then [] else [c]
      | r => c :: r
      end
  end.

(** The flag [in_run] of [collapse_spaces] once [line] is read. *)
Fixpoint ends_space (in_run : bool) (line : list Z) : bool :=
  match line with
  | [] => in_run
  | c :: line' => ends_space (is_space c) line'
  end.

(** Whitespace occurs in [line] only as single spaces; after a
    whitespace character ([after_space]) the line does not start with
    one. *)
Fixpoint spaced (after_space : bool) (line : list Z) : Prop :=
  match line with
  | [] => True
  | c :: line' =>
      if is_space c then c = 32 ∧ after_space = false ∧ spaced true line'
      else spaced false line'
  end.

(** A line in normal form for the comparison that ignores whitespace:
    no whitespace at either end, and inside only single spaces. *)
Definition single_spaced (line : list Z) : Prop :=
  (∀ c, head line = Some c → is_space c = false)
  ∧ (∀ c, last line = Some c → is_space c = false)
  ∧ (∀ c, c ∈ line → is_space c = true → c = 32)
  ∧ (∀ pre c d post, line = pre ++ c :: d :: post →
       is_space c = true → is_space d = false).

(** The number of hunks of a given type. *)
Definition count_type (t : hunk_type) (hunks : list hunk) : nat :=
  length (filter (λ h, type h = t) hunks).

Section LongestCommon.
Variables a b : list (list Z).

(** The length of a longest common subsequence of the first [i]
    elements of [a] and the first [j] elements of [b]. *)
Fixpoint lcs_length (i : nat) : nat → Z :=
  match i with
  | O => λ _, 0
  | S i' =>
      fix row (j : nat) : Z :=
        match j with
        | O => 0
        | S j' =>
            if decide (a !! i' = b !! j') then lcs_length i' j' + 1
            else lcs_length i' (S j') `max` row j'
        end
  end.

(** The table of [computeLCS] while row [i] is being filled, up to
    column [c]: the cells filled so far hold [lcs_length], the others
    their initial zero. *)
Definition filled (dp : list (list Z)) (i c : Z) : Prop :=
  ∀ i' j', 0 ≤ i' ≤ Z.of_nat (length a) → 0 ≤ j' ≤ Z.of_nat (length b) →
    dp_get dp i' j'
    = if decide (i' < i ∨ (i' = i ∧ j' ≤ c))
      then lcs_length (Z.to_nat i') (Z.to_nat j') else 0.

(** The table has a row for every prefix of [a], and every row a cell
    for every prefix of [b]. *)
Definition dp_shape (dp : list (list Z)) : Prop :=
  length dp = S (length a) ∧ Forall (λ row, length row = S (length b)) dp.

End LongestCommon.

(** The tokens [toks] as [wordDiff] shows them: every token escaped,
    the marked ones inside [wrap]. *)
Definition show_tokens (wrap : list Z → list Z) (marks : list bool)
    (toks : list (list Z)) : list Z :=
  concat (zip_with
            (λ (mk : bool) t,
               if mk then wrap (escape (Some t)) else escape (Some t))
            marks toks).

(** The tokens that are shown without a marker. *)
Definition unmarked (marks : list bool) (toks : list (list Z))
  : list (list Z) :=
  (filter (λ p, p.1 = false) (zip marks toks)).*2.

(** Hunk [j] lies within [CONTEXT_LINES] hunks of a hunk that is not
    [equal]. *)
Definition near_change (hunks : list hunk) (j : nat) : Prop :=
  ∃ (i : nat) h,
    hunks !! i = Some h ∧ type h ≠ Equal
    ∧ Z.of_nat i - CONTEXT_LINES ≤ Z.of_nat j ≤ Z.of_nat i + CONTEXT_LINES.

(** The rows of the plain-text diff of a hunk: a sign and a line. *)
Definition plain_rows (h : hunk) : list (Z * list Z) :=
  match type h with
  | Equal => [(32, to_str (first_line (lLines h)))]
  | Removed => [(45, to_str (first_line (lLines h)))]
  | Added => [(43, to_str (first_line (rLines h)))]
  | Changed =>
      [(45, to_str (first_line (lLines h)));
       (43, to_str (first_line (rLines h)))]
  end.

(** No removed hunk of [hunks] is directly followed by an added one. *)
Definition removed_then_added_free (hunks : list hunk) : Prop :=
  ∀ (i : nat) h1 h2,
    hunks !! i = Some h1 → hunks !! S i = Some h2 →
    type h1 = Removed → type h2 ≠ Added.

(** ** A host for the examples *)

(** The examples need a [JSON.parse] and a [JSON.stringify]. This host
    reads nested empty arrays only, [[]], [[[]]], [[[[]]]] and so on,
    with whitespace between the brackets; the value of a text is its
    nesting depth. It prints a value back with an indentation of two
    spaces, as [JSON.stringify(_, null, 2)] does. Like a printer that
    recurses on the value, it throws on a value nested deeper than
    [limit]; the parser has no such limit. *)
Definition json_space (c : Z) : bool :=
  bool_decide (c = 32 ∨ c = 9 ∨ c = 10 ∨ c = 13).

Definition nested_parse (text : jsstring) : jsstring + nat :=
  let brackets := filter (λ c, json_space c = false) text in
  let depth := (length brackets / 2)%nat in
  if bool_decide (brackets ≠ []
                  ∧ brackets = replicate depth 91 ++ replicate depth 93)
  then inr depth
  else inl (lit "Unexpected token").

Fixpoint nested_lines (indent depth : nat) : list jsstring :=
  match depth with
  | O => []
  | S O => [replicate indent 32 ++ lit "[]"]
  | S depth' =>
      [replicate indent 32 ++ lit "["]
      ++ nested_lines (indent + 2) depth'
      ++ [replicate indent 32 ++ lit "]"]
  end.

Definition nested_stringify (limit depth : nat) : jsstring + jsstring :=
  if bool_decide (limit < depth)%nat
  then inl (lit "Maximum call stack size exceeded")
  else inr (join_lines (Some <$> nested_lines 0 depth)).

(** * Properties *)

(** ** Arrays *)

Lemma to_int32_small z : - 2 ^ 31 ≤ z < 2 ^ 31 → to_int32 z = z.
Proof.
  intros Hz. unfold to_int32.
  rewrite Z.mod_small by lia. lia.
Qed.

Lemma ta_get_set_eq V i x :
  0 ≤ i < Z.of_nat (length V) → ta_get (ta_set V i x) i = to_int32 x.
Proof.
  intros Hi. unfold ta_get, ta_set.
  destruct (decide (0 ≤ i)) as [_|]; [|lia].
  rewrite list_lookup_insert_eq by lia. done.
Qed.

Lemma ta_get_set_ne V i j x : i ≠ j → ta_get (ta_set V i x) j = ta_get V j.
Proof.
  intros Hij. unfold ta_get, ta_set.
  destruct (decide (0 ≤ j)) as [Hj|]; [|done].
  destruct (decide (0 ≤ i)) as [Hi|]; [|done].
  rewrite list_lookup_insert_ne by lia. done.
Qed.

Lemma ta_set_length V i x : length (ta_set V i x) = length V.
Proof. unfold ta_set. case_decide; [apply length_insert|done]. Qed.

Lemma ta_get_replicate c i : ta_get (replicate c 0) i = 0.
Proof.
  unfold ta_get. case_decide; [|done].
  destruct (replicate c 0 !! Z.to_nat i) as [z|] eqn:Hz; [|done].
  apply lookup_replicate in Hz as [-> _]. done.
Qed.

Lemma arr_get_lookup {A} (l : list A) (i : nat) :
  arr_get l (Z.of_nat i) = l !! i.
Proof.
  unfold arr_get. case_decide; [|lia]. by rewrite Nat2Z.id.
Qed.

Lemma arr_get_app_r {A} (l1 l2 : list A) :
  arr_get (l1 ++ l2) (Z.of_nat (length l1)) = head l2.
Proof.
  rewrite arr_get_lookup, lookup_app_r by lia.
  rewrite Nat.sub_diag. by destruct l2.
Qed.

(** ** The forward pass computes furthest-reaching points *)

Section MyersFacts.
Context {A : Type} `{EqDecision A}.
Variables a b : list A.

Local Abbreviation n := (Z.of_nat (length a)).
Local Abbreviation m := (Z.of_nat (length b)).
Local Abbreviation mx := (Z.of_nat (length a) + Z.of_nat (length b)).

(** *** The snake *)

Lemma snake_spec fuel x y :
  (Z.to_nat (n - x) ≤ fuel)%nat →
  x ≤ snake a b fuel x y
  ∧ (∀ t, x ≤ t < snake a b fuel x y →
       t < n ∧ t + (y - x) < m ∧ arr_get a t = arr_get b (t + (y - x)))
  ∧ ¬ (snake a b fuel x y < n ∧ snake a b fuel x y + (y - x) < m
       ∧ arr_get a (snake a b fuel x y)
         = arr_get b (snake a b fuel x y + (y - x))).
Proof.
  revert x y. induction fuel as [|fuel IH]; intros x y Hfuel; simpl.
  - split; [lia|]. split; [intros t; lia|]. lia.
  - destruct (bool_decide (x < n)) eqn:Hx; simpl.
    2:{ apply bool_decide_eq_false in Hx.
        split; [lia|]. split; [intros t; lia|]. lia. }
    destruct (bool_decide (y < m)) eqn:Hy; simpl.
    2:{ apply bool_decide_eq_false in Hy.
        split; [lia|]. split; [intros t; lia|].
        intros (_ & ? & _). lia. }
    destruct (bool_decide (arr_get a x = arr_get b y)) eqn:He.
    2:{ apply bool_decide_eq_false in He.
        split; [lia|]. split; [intros t; lia|].
        intros (_ & _ & Heq). apply He.
        by replace (x + (y - x)) with y in Heq by lia. }
    apply bool_decide_eq_true in Hx, Hy, He.
    destruct (IH (x + 1) (y + 1)) as (Hle & Hrun & Hstop); [lia|].
    replace (y + 1 - (x + 1)) with (y - x) in * by lia.
    split; [lia|]. split; [|done].
    intros t Ht. destruct (decide (t = x)) as [->|].
    + replace (x + (y - x)) with y by lia. done.
    + apply Hrun. lia.
Qed.

(** More fuel than [n - x] changes nothing: the loop has stopped. *)
Lemma snake_fuel fuel x y :
  (Z.to_nat (n - x) ≤ fuel)%nat →
  snake a b fuel x y = snake a b (Z.to_nat (n - x)) x y.
Proof.
  revert x y. induction fuel as [|fuel IH]; intros x y Hfuel.
  - by replace (Z.to_nat (n - x)) with O by lia.
  - destruct (Z.to_nat (n - x)) as [|f] eqn:Hf; simpl.
    + rewrite bool_decide_eq_false_2 by lia. done.
    + destruct (_ && _ && _); [|done].
      rewrite IH by lia. by replace (Z.to_nat (n - (x + 1))) with f by lia.
Qed.

Lemma fr_unfold d k :
  fr a b d k
  = snake a b (Z.to_nat (n - fr_start a b d k))
      (fr_start a b d k) (fr_start a b d k - k).
Proof. by destruct d. Qed.

Lemma fr_snake d k :
  fr_start a b d k ≤ fr a b d k
  ∧ (∀ t, fr_start a b d k ≤ t < fr a b d k →
       t < n ∧ t - k < m ∧ arr_get a t = arr_get b (t - k))
  ∧ ¬ (fr a b d k < n ∧ fr a b d k - k < m
       ∧ arr_get a (fr a b d k) = arr_get b (fr a b d k - k)).
Proof.
  rewrite fr_unfold.
  pose proof (snake_spec (Z.to_nat (n - fr_start a b d k))
                (fr_start a b d k) (fr_start a b d k - k)) as Hs.
  destruct Hs as (H1 & H2 & H3); [lia|].
  split; [done|]. split.
  - intros t Ht. destruct (H2 t Ht) as (? & ? & Heq).
    replace (t + (fr_start a b d k - k - fr_start a b d k)) with (t - k)
      in * by lia. done.
  - intros (? & ? & Heq). apply H3.
    match goal with |- context [?e + (?s - k - ?s)] =>
      replace (e + (s - k - s)) with (e - k) by lia end.
    done.
Qed.

(** *** Diagonals *)

Lemma diag_bounds d k : diag d k → - Z.of_nat d ≤ k ≤ Z.of_nat d.
Proof. intros (i & ? & ->). lia. Qed.

Lemma diag_disjoint d k : diag d k → ¬ diag (S d) k.
Proof. intros (i & ? & ->) (j & ? & ?). lia. Qed.

Lemma diag_0 k : diag 0 k ↔ k = 0.
Proof.
  split.
  - intros (i & ? & ->). lia.
  - intros ->. exists 0. lia.
Qed.

(** The start of the snake is the better of the two neighbours that
    exist at the previous step. *)
Lemma fr_start_cases d k :
  diag (S d) k →
  (fr_down a b (S d) k = true
   ∧ fr_start a b (S d) k = fr a b d (k + 1) ∧ diag d (k + 1)
   ∧ (diag d (k - 1) → fr a b d (k - 1) + 1 ≤ fr a b d (k + 1)))
  ∨ (fr_down a b (S d) k = false
     ∧ fr_start a b (S d) k = fr a b d (k - 1) + 1 ∧ diag d (k - 1)
     ∧ (diag d (k + 1) → fr a b d (k + 1) ≤ fr a b d (k - 1) + 1)).
Proof.
  intros (i & Hi & ->). unfold fr_start.
  destruct (fr_down a b (S d) (2 * i - Z.of_nat (S d))) eqn:Hdown;
    [left|right]; (split; [done|]); (split; [done|]);
    unfold fr_down in Hdown.
  - apply orb_true_iff in Hdown as [Hlo|Hin].
    + apply bool_decide_eq_true in Hlo. split; [exists 0; lia|].
      intros (j & ? & ?). lia.
    + apply andb_true_iff in Hin as [Hhi Hlt].
      apply bool_decide_eq_true in Hhi, Hlt.
      split; [exists i; lia|]. intros _. lia.
  - apply orb_false_iff in Hdown as [Hlo Hin].
    apply bool_decide_eq_false in Hlo.
    split; [exists (i - 1); lia|].
    apply andb_false_iff in Hin as [Hhi|Hlt].
    + apply bool_decide_eq_false in Hhi. intros (j & ? & ?). lia.
    + apply bool_decide_eq_false in Hlt. intros _. lia.
Qed.

Lemma fr_bounds d k :
  diag d k →
  0 ≤ fr a b d k ∧ k ≤ fr a b d k ∧ fr a b d k ≤ n + Z.of_nat d.
Proof.
  revert k. induction d as [|d IH]; intros k Hk.
  - apply diag_0 in Hk as ->.
    destruct (fr_snake 0 0) as (Hle & Hrun & _).
    change (fr_start a b 0 0) with 0 in Hle, Hrun.
    split; [lia|]. split; [lia|].
    destruct (decide (fr a b 0 0 ≤ 0)) as [|Hgt]; [lia|].
    destruct (Hrun (fr a b 0 0 - 1)); lia.
  - destruct (fr_snake (S d) k) as (Hle & Hrun & _).
    assert (fr a b (S d) k ≤ Z.max n (fr_start a b (S d) k)) as Hub.
    { destruct (decide (fr a b (S d) k ≤ fr_start a b (S d) k)) as [|Hgt]; [lia|].
      destruct (Hrun (fr a b (S d) k - 1)); lia. }
    destruct (fr_start_cases d k Hk) as [(_ & Hs & Hd & _)|(_ & Hs & Hd & _)];
      destruct (IH _ Hd) as (? & ? & ?); lia.
Qed.

(** *** Reachable points *)

Lemma reach_facts x y c :
  reach a b x y c →
  0 ≤ x ≤ n ∧ 0 ≤ y ≤ m ∧ diag c (x - y) ∧ Z.of_nat c ≤ x + y.
Proof.
  induction 1 as [|x y c _ (? & ? & (i & ? & ?) & ?) ? ? ?
                  |x y c _ (? & ? & (i & ? & ?) & ?) ?
                  |x y c _ (? & ? & (i & ? & ?) & ?) ?].
  - repeat split; try lia. exists 0. lia.
  - repeat split; try lia. exists i. lia.
  - repeat split; try lia. exists (i + 1). lia.
  - repeat split; try lia. exists i. lia.
Qed.

Lemma reach_run (len : nat) x y c :
  reach a b x y c →
  (∀ t, x ≤ t < x + Z.of_nat len →
     t < n ∧ t + (y - x) < m ∧ arr_get a t = arr_get b (t + (y - x))) →
  reach a b (x + Z.of_nat len) (y + Z.of_nat len) c.
Proof.
  induction len as [|len IH]; intros Hr Hrun.
  - by rewrite !Z.add_0_r.
  - replace (x + Z.of_nat (S len)) with (x + Z.of_nat len + 1) by lia.
    replace (y + Z.of_nat (S len)) with (y + Z.of_nat len + 1) by lia.
    destruct (Hrun (x + Z.of_nat len)) as (? & ? & Heq); [lia|].
    replace (x + Z.of_nat len + (y - x)) with (y + Z.of_nat len) in * by lia.
    apply reach_diag; [|done..].
    apply IH; [done|]. intros t Ht. apply Hrun. lia.
Qed.

(** Every point reached with [c] moves lies at or before the point the
    forward pass records for its diagonal at step [c]. *)
Lemma fr_dominates x y c : reach a b x y c → x ≤ fr a b c (x - y).
Proof.
  induction 1 as [|x y c Hr IH Hx Hy Heq|x y c Hr IH Hx|x y c Hr IH Hy].
  - apply fr_bounds, diag_0. done.
  - replace (x + 1 - (y + 1)) with (x - y) by lia.
    destruct (fr_snake c (x - y)) as (_ & _ & Hstop).
    destruct (decide (fr a b c (x - y) = x)) as [Hfx|Hne]; [|lia].
    exfalso. apply Hstop. rewrite Hfx.
    replace (x - (x - y)) with y by lia. done.
  - apply reach_facts in Hr as (_ & _ & Hd & _).
    assert (diag (S c) (x + 1 - y)) as Hd'.
    { destruct Hd as (i & ? & ?). exists (i + 1). lia. }
    destruct (fr_snake (S c) (x + 1 - y)) as (Hle & _).
    replace (x + 1 - y - 1) with (x - y) in * by lia.
    destruct (fr_start_cases c _ Hd') as [(_ & Hs & _ & Hcmp)|(_ & Hs & _ & _)].
    + replace (x + 1 - y - 1) with (x - y) in * by lia.
      specialize (Hcmp Hd). lia.
    + replace (x + 1 - y - 1) with (x - y) in * by lia. lia.
  - apply reach_facts in Hr as (_ & _ & Hd & _).
    assert (diag (S c) (x - (y + 1))) as Hd'.
    { destruct Hd as (i & ? & ?). exists i. lia. }
    destruct (fr_snake (S c) (x - (y + 1))) as (Hle & _).
    destruct (fr_start_cases c _ Hd') as [(_ & Hs & _ & _)|(_ & Hs & _ & Hcmp)].
    + replace (x - (y + 1) + 1) with (x - y) in * by lia. lia.
    + replace (x - (y + 1) + 1) with (x - y) in * by lia.
      specialize (Hcmp Hd). lia.
Qed.

Lemma reach_clamped_right c x y :
  reach_clamped a b c x y → reach_clamped a b (S c) (x + 1) y.
Proof.
  intros (Hx & Hy & c' & Hr & Hc). split; [lia|]. split; [lia|].
  destruct (decide (x < n)) as [Hlt|Hge].
  - exists (S c'). split; [|lia].
    replace ((x + 1) `min` n) with (x `min` n + 1) by lia.
    apply reach_right; [done|lia].
  - exists c'. split; [|lia].
    by replace ((x + 1) `min` n) with (x `min` n) by lia.
Qed.

Lemma reach_clamped_down c x y :
  reach_clamped a b c x y → reach_clamped a b (S c) x (y + 1).
Proof.
  intros (Hx & Hy & c' & Hr & Hc). split; [lia|]. split; [lia|].
  destruct (decide (y < m)) as [Hlt|Hge].
  - exists (S c'). split; [|lia].
    replace ((y + 1) `min` m) with (y `min` m + 1) by lia.
    apply reach_down; [done|lia].
  - exists c'. split; [|lia].
    by replace ((y + 1) `min` m) with (y `min` m) by lia.
Qed.

Lemma reach_clamped_snake d k :
  reach_clamped a b d (fr_start a b d k) (fr_start a b d k - k) →
  reach_clamped a b d (fr a b d k) (fr a b d k - k).
Proof.
  intros HJ. destruct (fr_snake d k) as (Hle & Hrun & _).
  destruct (decide (fr a b d k = fr_start a b d k)) as [->|Hne]; [done|].
  destruct HJ as (Hx & Hy & c' & Hr & Hc).
  destruct (Hrun (fr_start a b d k)) as (? & ? & _); [lia|].
  destruct (Hrun (fr a b d k - 1)) as (? & ? & _); [lia|].
  split; [lia|]. split; [lia|]. exists c'. split; [|lia].
  rewrite !Z.min_l in * by lia.
  pose proof (reach_run (Z.to_nat (fr a b d k - fr_start a b d k)) _ _ _ Hr)
    as Hrr.
  rewrite Z2Nat.id in Hrr by lia.
  replace (fr_start a b d k + (fr a b d k - fr_start a b d k))
    with (fr a b d k) in Hrr by lia.
  replace (fr_start a b d k - k + (fr a b d k - fr_start a b d k))
    with (fr a b d k - k) in Hrr by lia.
  apply Hrr. intros t Ht. destruct (Hrun t) as (? & ? & ?); [lia|].
  replace (t + (fr_start a b d k - k - fr_start a b d k)) with (t - k) by lia.
  done.
Qed.

(** Every point the forward pass records is reached, up to clamping. *)
Lemma fr_reached d k :
  diag d k → reach_clamped a b d (fr a b d k) (fr a b d k - k).
Proof.
  revert k. induction d as [|d IH]; intros k Hk; apply reach_clamped_snake.
  - apply diag_0 in Hk as ->. change (fr_start a b 0 0) with 0.
    split; [lia|]. split; [lia|]. exists O.
    rewrite !Z.min_l by lia. split; [constructor|lia].
  - destruct (fr_start_cases d k Hk) as [(_ & Hs & Hd & _)|(_ & Hs & Hd & _)];
      rewrite Hs.
    + apply IH, reach_clamped_down in Hd.
      by replace (fr a b d (k + 1) - (k + 1) + 1)
        with (fr a b d (k + 1) - k) in Hd by lia.
    + apply IH, reach_clamped_right in Hd.
      by replace (fr a b d (k - 1) - (k - 1))
        with (fr a b d (k - 1) + 1 - k) in Hd by lia.
Qed.

(** The whole of [a] deleted, then the whole of [b] inserted. *)
Lemma reach_corner : reach a b n m (length a + length b).
Proof.
  assert (∀ i : nat, (i ≤ length a)%nat → reach a b (Z.of_nat i) 0 i) as Hrow.
  { induction i as [|i IH]; intros Hi; [constructor|].
    replace (Z.of_nat (S i)) with (Z.of_nat i + 1) by lia.
    apply reach_right; [apply IH|]; lia. }
  assert (∀ j : nat, (j ≤ length b)%nat →
            reach a b n (Z.of_nat j) (length a + j)) as Hcol.
  { induction j as [|j IH]; intros Hj.
    - rewrite Nat.add_0_r. by apply Hrow.
    - replace (Z.of_nat (S j)) with (Z.of_nat j + 1) by lia.
      replace (length a + S j)%nat with (S (length a + j)) by lia.
      apply reach_down; [apply IH|]; lia. }
  by apply Hcol.
Qed.

(** *** What the stopping step says *)

Section Stopped.
Variable D : nat.
Hypothesis Hstop : ∃ k, diag D k ∧ finished a b D k.
Hypothesis Hfirst : ∀ j k, (j < D)%nat → diag j k → ¬ finished a b j k.

Lemma stop_minimal c : reach a b n m c → (D ≤ c)%nat.
Proof using Hfirst.
  intros Hr. destruct (decide (D ≤ c)%nat) as [|Hlt]; [done|].
  exfalso. apply (Hfirst c (n - m)); [lia|apply (reach_facts _ _ _ Hr)|].
  apply fr_dominates in Hr. unfold finished. lia.
Qed.

Lemma stop_exact k :
  diag D k → finished a b D k → k = n - m ∧ fr a b D k = n.
Proof using Hfirst.
  intros Hk [Hfx Hfy].
  destruct (fr_reached D k Hk) as (_ & _ & c' & Hr & Hc).
  rewrite !Z.min_r in Hr by lia.
  apply stop_minimal in Hr. lia.
Qed.

Lemma stop_corner : fr a b D (n - m) = n ∧ diag D (n - m).
Proof using Hstop Hfirst.
  destruct Hstop as (k & Hk & Hf).
  destruct (stop_exact k Hk Hf) as [-> ?]. done.
Qed.

Lemma stop_le_max : (D ≤ length a + length b)%nat.
Proof using Hfirst. apply stop_minimal, reach_corner. Qed.
End Stopped.

(** *** The loops of the forward pass *)

(** The slots of [V] that step [d] reads and writes for diagonal [k] lie
    inside the array of [2 * max + 1] slots: the slot of [k] itself, the
    slot below it unless [k = -d], the slot above it unless [k = d] (and
    at step 0, where it is read all the same, since [max] is not 0). *)
Lemma slots_in_bounds (d : nat) k :
  1 ≤ mx → (d ≤ length a + length b)%nat → diag d k →
  0 ≤ k + mx < 2 * mx + 1
  ∧ (k ≠ - Z.of_nat d → 0 ≤ k + mx - 1 < 2 * mx + 1)
  ∧ (k ≠ Z.of_nat d ∨ d = O → 0 ≤ k + mx + 1 < 2 * mx + 1).
Proof. intros Hmx Hd (i & Hi & ->). lia. Qed.

Lemma elem_of_diagonals (d : nat) k :
  k ∈ diagonals (Z.of_nat d) ↔ diag d k.
Proof.
  unfold diagonals, diag. rewrite list_elem_of_fmap. split.
  - intros (i & -> & Hi%elem_of_seqZ). exists i. lia.
  - intros (i & Hi & ->). exists i. rewrite elem_of_seqZ. lia.
Qed.

Lemma goes_down_fr d V k :
  prev_ok a b d V → diag d k →
  goes_down a b V (Z.of_nat d) k = fr_down a b d k.
Proof.
  intros HV Hk. unfold goes_down. destruct d as [|d]; simpl fr_down.
  - apply diag_0 in Hk as ->. done.
  - simpl in HV.
    destruct (bool_decide (k = - Z.of_nat (S d))) eqn:Hlo; [done|].
    destruct (bool_decide (k ≠ Z.of_nat (S d))) eqn:Hhi; [|done].
    apply bool_decide_eq_false in Hlo. apply bool_decide_eq_true in Hhi.
    destruct Hk as (i & Hi & ->). simpl.
    replace (2 * i - Z.of_nat (S d) + mx - 1)
      with (2 * i - Z.of_nat (S d) - 1 + mx) by lia.
    replace (2 * i - Z.of_nat (S d) + mx + 1)
      with (2 * i - Z.of_nat (S d) + 1 + mx) by lia.
    rewrite (HV (2 * i - Z.of_nat (S d) - 1)) by (exists (i - 1); lia).
    rewrite (HV (2 * i - Z.of_nat (S d) + 1)) by (exists i; lia).
    done.
Qed.

Lemma start_x_fr d V k :
  prev_ok a b d V → diag d k →
  start_x a b V (Z.of_nat d) k = fr_start a b d k.
Proof.
  intros HV Hk. unfold start_x. rewrite (goes_down_fr d) by done.
  destruct d as [|d].
  - apply diag_0 in Hk as ->. simpl in *. rewrite <- HV. f_equal. lia.
  - simpl in HV.
    destruct (fr_start_cases d k Hk)
      as [(Hdn & Hs & Hd & _)|(Hdn & Hs & Hd & _)]; rewrite Hdn, Hs.
    + replace (k + mx + 1) with (k + 1 + mx) by lia. by apply HV.
    + replace (k + mx - 1) with (k - 1 + mx) by lia. by rewrite HV.
Qed.

Lemma diag_end_fr d V k :
  prev_ok a b d V → diag d k →
  diag_end a b V (Z.of_nat d) k = fr a b d k.
Proof.
  intros HV Hk. unfold diag_end. rewrite (start_x_fr d) by done.
  by rewrite fr_unfold.
Qed.

Lemma prev_ok_set d V k x :
  prev_ok a b d V → diag d k → prev_ok a b d (ta_set V (k + mx) x).
Proof.
  intros HV Hk. destruct d as [|d]; simpl in *.
  - apply diag_0 in Hk as ->. rewrite ta_get_set_ne by lia. done.
  - intros k' Hk'. rewrite ta_get_set_ne; [by apply HV|].
    intros Heq. apply (diag_disjoint d k'); [done|].
    by replace k' with k by lia.
Qed.

Section Sized.
(** The slots of the [Int32Array] hold the values stored in them. *)
Hypothesis Hsize : 2 * mx < 2 ^ 31.

Lemma diagonals_loop_spec (d : nat) ks V V' brk :
  (d ≤ length a + length b)%nat →
  length V = Z.to_nat (2 * mx + 1) →
  prev_ok a b d V →
  (∀ k, k ∈ ks → diag d k) →
  diagonals_loop a b ks V (Z.of_nat d) = (V', brk) →
  if brk then ∃ k, diag d k ∧ finished a b d k
  else length V' = length V ∧ prev_ok a b d V'
       ∧ (∀ k, k ∈ ks →
            ta_get V' (k + mx) = fr a b d k ∧ ¬ finished a b d k)
       ∧ (∀ k, k ∉ ks → ta_get V' (k + mx) = ta_get V (k + mx)).
Proof using Hsize.
  intros Hd. revert V.
  induction ks as [|k ks IH]; intros V Hlen HV Hks Hloop; simpl in Hloop.
  - injection Hloop as <- <-. split; [done|]. split; [done|].
    split; [|done]. intros k Hk. by apply elem_of_nil in Hk.
  - assert (diag d k) as Hk by (apply Hks; left).
    rewrite (diag_end_fr d) in Hloop by done.
    destruct (bool_decide (n ≤ fr a b d k)) eqn:Hfx; simpl in Hloop.
    + destruct (bool_decide (m ≤ fr a b d k - k)) eqn:Hfy.
      * injection Hloop as <- <-. exists k. split; [done|].
        apply bool_decide_eq_true in Hfx, Hfy. done.
      * apply bool_decide_eq_false in Hfy.
        apply IH in Hloop; [| by rewrite ta_set_length
                            | by apply prev_ok_set
                            | intros; apply Hks; by right].
        destruct brk; [done|].
        destruct Hloop as (Hl' & HV' & Hin & Hout).
        rewrite ta_set_length in Hl'. split; [done|]. split; [done|].
        pose proof (diag_bounds _ _ Hk) as Hb.
        pose proof (fr_bounds d k Hk) as Hfr.
        assert (ta_get V' (k + mx) = fr a b d k) as Hget.
        { destruct (decide (k ∈ ks)) as [Hi|Hni]; [by apply Hin|].
          rewrite (Hout _ Hni), ta_get_set_eq by lia.
          apply to_int32_small. lia. }
        split.
        -- intros k' [->|Hk']%elem_of_cons; [|by apply Hin].
           split; [done|]. unfold finished. lia.
        -- intros k' Hk'. apply not_elem_of_cons in Hk' as [Hne Hk'].
           rewrite (Hout _ Hk'), ta_get_set_ne by lia. done.
    + apply bool_decide_eq_false in Hfx.
      apply IH in Hloop; [| by rewrite ta_set_length
                          | by apply prev_ok_set
                          | intros; apply Hks; by right].
      destruct brk; [done|].
      destruct Hloop as (Hl' & HV' & Hin & Hout).
      rewrite ta_set_length in Hl'. split; [done|]. split; [done|].
      pose proof (diag_bounds _ _ Hk) as Hb.
      pose proof (fr_bounds d k Hk) as Hfr.
      assert (ta_get V' (k + mx) = fr a b d k) as Hget.
      { destruct (decide (k ∈ ks)) as [Hi|Hni]; [by apply Hin|].
        rewrite (Hout _ Hni), ta_get_set_eq by lia.
        apply to_int32_small. lia. }
      split.
      -- intros k' [->|Hk']%elem_of_cons; [|by apply Hin].
         split; [done|]. unfold finished. lia.
      -- intros k' Hk'. apply not_elem_of_cons in Hk' as [Hne Hk'].
         rewrite (Hout _ Hk'), ta_get_set_ne by lia. done.
Qed.

Lemma forward_spec (len d : nat) V trace :
  (d + len = S (length a + length b))%nat →
  length V = Z.to_nat (2 * mx + 1) →
  prev_ok a b d V →
  length trace = d →
  (∀ j, (j < d)%nat → ∃ T, trace !! j = Some T ∧ prev_ok a b j T) →
  (∀ j k, (j < d)%nat → diag j k → ¬ finished a b j k) →
  ∃ D, trace_ok a b
         (forward a b (seqZ (Z.of_nat d) (Z.of_nat len)) V trace) D.
Proof using Hsize.
  revert d V trace.
  induction len as [|len IH]; intros d V trace Hd Hlen HV Htl Htr Hno.
  - exfalso. apply (Hno (length a + length b)%nat (n - m)); [lia| |].
    + apply (reach_facts _ _ _ reach_corner).
    + pose proof (fr_dominates _ _ _ reach_corner) as Hdom.
      unfold finished. lia.
  - rewrite seqZ_cons by lia. simpl.
    replace (Z.succ (Z.of_nat d)) with (Z.of_nat (S d)) by lia.
    replace (Z.pred (Z.of_nat (S len))) with (Z.of_nat len) by lia.
    destruct (diagonals_loop a b (diagonals (Z.of_nat d)) V (Z.of_nat d))
      as [V' brk] eqn:Hloop.
    apply diagonals_loop_spec in Hloop;
      [|lia|done|done|by intros k Hk%elem_of_diagonals].
    assert (∀ j, (j ≤ d)%nat →
              ∃ T, (trace ++ [V]) !! j = Some T ∧ prev_ok a b j T) as Htr'.
    { intros j Hj. destruct (decide (j = d)) as [->|Hne].
      - exists V. split; [|done].
        rewrite lookup_app_r by lia.
        by replace (d - length trace)%nat with O by lia.
      - destruct (Htr j) as (T & HT & Hok); [lia|].
        exists T. split; [|done]. by rewrite lookup_app_l by lia. }
    destruct brk.
    + exists d. split; [rewrite length_app; simpl; lia|].
      split; [done|]. split; [done|]. done.
    + destruct Hloop as (Hl' & HV' & Hin & _).
      apply IH; [lia|congruence| |rewrite length_app; simpl; lia| |].
      * intros k Hk. by apply Hin, elem_of_diagonals.
      * intros j Hj. apply Htr'. lia.
      * intros j k Hj Hk. destruct (decide (j = d)) as [->|Hne].
        -- by apply Hin, elem_of_diagonals.
        -- apply Hno; [lia|done].
Qed.

Lemma forward_trace_ok :
  ∃ D, trace_ok a b
         (forward a b (seqZ 0 (mx + 1))
            (replicate (Z.to_nat (2 * mx + 1)) 0) []) D.
Proof using Hsize.
  replace (mx + 1) with (Z.of_nat (S (length a + length b))) by lia.
  apply (forward_spec _ 0); [done|by rewrite length_replicate| |done|..].
  - apply ta_get_replicate.
  - intros j Hj. lia.
  - intros j k Hj. lia.
Qed.

End Sized.

(** *** Backtracking *)

Lemma edit_cost_snoc_equal es x y :
  edit_cost (es ++ [Edit EEqual x y]) = edit_cost es.
Proof.
  unfold edit_cost. rewrite list.filter_app, length_app.
  rewrite filter_cons_False by (simpl; tauto). simpl. lia.
Qed.

Lemma edit_cost_snoc_other es e :
  e_type e ≠ EEqual → edit_cost (es ++ [e]) = S (edit_cost es).
Proof.
  intros He. unfold edit_cost. rewrite list.filter_app, length_app.
  rewrite filter_cons_True by done. simpl. lia.
Qed.

Lemma edit_cost_reverse es : edit_cost (reverse es) = edit_cost es.
Proof. unfold edit_cost. by rewrite filter_reverse, length_reverse. Qed.

Lemma walk_reach x y es x' y' c :
  walk a b x y es x' y' → reach a b x y c →
  reach a b x' y' (c + edit_cost es).
Proof.
  intros Hw. revert c.
  induction Hw as [x y|x y es x' y' Hx Hy Heq Hw IH
                   |x y es x' y' Hx Hw IH|x y es x' y' Hy Hw IH];
    intros c Hr.
  - unfold edit_cost. simpl. by rewrite Nat.add_0_r.
  - unfold edit_cost. rewrite filter_cons_False by (simpl; tauto).
    apply IH. by apply reach_diag.
  - unfold edit_cost. rewrite filter_cons_True by done. simpl.
    rewrite Nat.add_succ_r. apply (IH (S c)). by apply reach_right.
  - unfold edit_cost. rewrite filter_cons_True by done. simpl.
    rewrite Nat.add_succ_r. apply (IH (S c)). by apply reach_down.
Qed.

Lemma undo_snake_spec fuel k xs px py x' y' x edits :
  xs ≤ x → (Z.to_nat (x - xs) ≤ fuel)%nat →
  (∀ t, t > px ∧ t - k > py ↔ xs < t) →
  (∀ t, xs ≤ t < x → t < n ∧ t - k < m ∧ arr_get a t = arr_get b (t - k)) →
  walk a b x (x - k) (reverse edits) x' y' →
  ∃ edits1,
    undo_snake fuel x (x - k) px py edits = (xs, xs - k, edits1)
    ∧ walk a b xs (xs - k) (reverse edits1) x' y'
    ∧ edit_cost edits1 = edit_cost edits.
Proof.
  intros Hxs Hfuel Hguard. revert x edits Hxs Hfuel.
  induction fuel as [|fuel IH]; intros x edits Hxs Hfuel Hrun Hw; simpl.
  - replace x with xs in * by lia. by exists edits.
  - destruct (decide (xs < x)) as [Hlt|Hge].
    + destruct (Hguard x) as [_ [Hgx Hgy]]; [done|].
      rewrite !bool_decide_eq_true_2 by done. simpl.
      replace (x - k - 1) with (x - 1 - k) by lia.
      destruct (IH (x - 1) (edits ++ [Edit EEqual (x - 1) (x - 1 - k)]))
        as (edits1 & Hu & Hw1 & Hc); [lia|lia|intros t Ht; apply Hrun; lia| |].
      * rewrite reverse_snoc.
        destruct (Hrun (x - 1)) as (? & ? & ?); [lia|].
        apply walk_equal; [done..|].
        replace (x - 1 + 1) with x by lia.
        by replace (x - 1 - k + 1) with (x - k) by lia.
      * exists edits1. rewrite edit_cost_snoc_equal in Hc. done.
    + replace x with xs in * by lia.
      assert (¬ (xs > px ∧ xs - k > py)) as Hng by (rewrite Hguard; lia).
      exists edits. split; [|done].
      destruct (bool_decide (xs > px)) eqn:H1; [|done].
      destruct (bool_decide (xs - k > py)) eqn:H2; [|done].
      apply bool_decide_eq_true in H1, H2. tauto.
Qed.

Lemma backtrack_S trace d x y edits :
  backtrack a b trace (S d) x y edits
  = if bool_decide (x > 0) || bool_decide (y > 0) then
      let vPrev := default [] (trace !! d) in
      let k := x - y in
      let prevK := if goes_down a b vPrev (Z.of_nat d) k then k + 1 else k - 1 in
      let prevX := ta_get vPrev (prevK + mx) in
      let prevY := prevX - prevK in
      let '(x1, y1, edits1) :=
        undo_snake (Z.to_nat (x - prevX)) x y prevX prevY edits in
      let '(x2, y2, edits2) :=
        undo_move (Z.of_nat d) x1 y1 prevX prevY edits1 in
      backtrack a b trace d x2 y2 edits2
    else edits.
Proof. done. Qed.

Lemma backtrack_spec trace D :
  trace_ok a b trace D →
  ∀ c x y edits,
    (c ≤ S D)%nat →
    match c with
    | O => x = 0 ∧ y = 0
    | S d => diag d (x - y) ∧ x = fr a b d (x - y) ∧ x ≤ n ∧ y ≤ m
    end →
    walk a b x y (reverse edits) n m →
    (edit_cost edits + pred c = D)%nat →
    walk a b 0 0 (reverse (backtrack a b trace c x y edits)) n m
    ∧ edit_cost (backtrack a b trace c x y edits) = D.
Proof.
  intros (Hlen & Htr & Hstop & Hfirst).
  induction c as [|d IH]; intros x y edits Hc Hxy Hw Hcost.
  - simpl in *. destruct Hxy as [-> ->]. split; [done|lia].
  - destruct Hxy as (Hk & Hx & Hxn & Hym).
    pose proof (fr_bounds d _ Hk) as Hb. rewrite <- Hx in Hb.
    rewrite backtrack_S.
    destruct (bool_decide (x > 0) || bool_decide (y > 0)) eqn:Hgo.
    2:{ apply orb_false_iff in Hgo as [Hx0 Hy0].
        apply bool_decide_eq_false in Hx0, Hy0.
        replace x with 0 in * by lia. replace y with 0 in * by lia.
        split; [done|].
        pose proof (walk_reach _ _ _ _ _ _ Hw (reach_origin a b)) as Hr.
        apply (stop_minimal D Hfirst) in Hr.
        rewrite edit_cost_reverse in Hr. simpl in *. lia. }
    clear Hgo. destruct (Htr d) as (T & HT & Hok); [lia|].
    rewrite HT. change (default [] (Some T)) with T. cbv zeta.
    rewrite (goes_down_fr d) by done.
    destruct (fr_snake d (x - y)) as (Hle & Hrun & _). rewrite <- Hx in *.
    set (k := x - y) in *.
    replace y with (x - k) in * by lia.
    destruct d as [|d].
    + apply diag_0 in Hk. change (fr_start a b 0 k) with 0 in *.
      cbn [fr_down]. simpl in Hok. rewrite Hk in *.
      replace (0 + 1 + mx) with (1 + mx) by lia. rewrite Hok.
      destruct (undo_snake_spec (Z.to_nat (x - 0)) 0 0 0 (0 - (0 + 1))
                  n m x edits)
        as (edits1 & Hu & Hw1 & Hc1); [lia|lia|intros; split; lia|done|done|].
      rewrite Hu. unfold undo_move.
      rewrite bool_decide_eq_false_2 by lia. cbn [backtrack].
      replace (0 - 0) with 0 in Hw1 by lia.
      split; [done|]. rewrite Hc1, <- Hcost. cbn [pred]. lia.
    + simpl in Hok.
      destruct (fr_start_cases d k Hk)
        as [(Hdn & Hs & Hd & _)|(Hdn & Hs & Hd & _)];
        rewrite Hdn, (Hok _ Hd); rewrite Hs in Hle, Hrun.
      * set (xs := fr a b d (k + 1)) in *.
        destruct (undo_snake_spec (Z.to_nat (x - xs)) k xs xs (xs - (k + 1))
                    n m x edits)
          as (edits1 & Hu & Hw1 & Hc1);
          [lia|lia|intros; split; lia|done|done|].
        rewrite Hu. unfold undo_move.
        rewrite (bool_decide_eq_true_2 (Z.of_nat (S d) > 0)) by lia.
        rewrite (bool_decide_eq_false_2 (xs > xs)) by lia.
        rewrite bool_decide_eq_true_2 by lia.
        apply IH; [lia| |rewrite reverse_snoc|].
        -- replace (xs - (xs - k - 1)) with (k + 1) by lia.
           split; [done|]. split; [done|]. lia.
        -- apply walk_insert; [lia|].
           by replace (xs - k - 1 + 1) with (xs - k) by lia.
        -- rewrite edit_cost_snoc_other by done.
           rewrite Hc1. simpl in *. lia.
      * set (p := fr a b d (k - 1)) in *.
        destruct (undo_snake_spec (Z.to_nat (x - p)) k (p + 1) p
                    (p - (k - 1)) n m x edits)
          as (edits1 & Hu & Hw1 & Hc1);
          [lia|lia|intros; split; lia|done|done|].
        rewrite Hu. unfold undo_move.
        rewrite (bool_decide_eq_true_2 (Z.of_nat (S d) > 0)) by lia.
        rewrite (bool_decide_eq_true_2 (p + 1 > p)) by lia.
        replace (p + 1 - 1) with p by lia.
        pose proof (fr_bounds d _ Hd) as Hbp. fold p in Hbp.
        apply IH; [lia| |rewrite reverse_snoc|].
        -- replace (p - (p + 1 - k)) with (k - 1) by lia.
           split; [done|]. split; [done|]. lia.
        -- apply walk_delete; [lia|done].
        -- rewrite edit_cost_snoc_other by done.
           rewrite Hc1. simpl in *. lia.
Qed.

(** *** The edit list *)

Lemma myers_edits_walk :
  2 * mx < 2 ^ 31 →
  walk a b 0 0 (myers_edits a b) n m
  ∧ ∀ c, reach a b n m c → (edit_cost (myers_edits a b) ≤ c)%nat.
Proof.
  intros Hsize. unfold myers_edits. case_bool_decide as Hmax.
  - replace n with 0 by lia. replace m with 0 by lia.
    split; [constructor|]. intros c _. unfold edit_cost. simpl. lia.
  - destruct (forward_trace_ok Hsize) as (D & Htrace).
    set (trace := forward a b _ _ _) in *.
    pose proof Htrace as (Hlen & _ & Hstop & Hfirst).
    destruct (stop_corner D Hstop Hfirst) as [Hfr Hdiag].
    destruct (backtrack_spec trace D Htrace (S D) n m []) as [Hw Hcost].
    + done.
    + rewrite Hfr. done.
    + constructor.
    + unfold edit_cost. simpl. lia.
    + rewrite Hlen, edit_cost_reverse, Hcost. split; [done|].
      intros c Hr. by apply (stop_minimal D Hfirst).
Qed.

(** *** Walks, reachable points and edit scripts *)

Lemma script_reach_from (a2 b2 : list A) c2 :
  script a2 b2 c2 →
  ∀ a1 b1 c1, a = a1 ++ a2 → b = b1 ++ b2 →
    reach a b (Z.of_nat (length a1)) (Z.of_nat (length b1)) c1 →
    reach a b n m (c1 + c2).
Proof.
  induction 1 as [|x a2 b2 c2 Hs IH|x a2 b2 c2 Hs IH|y a2 b2 c2 Hs IH];
    intros a1 b1 c1 Ha Hb Hr.
  - rewrite app_nil_r in Ha, Hb. subst a1 b1. by rewrite Nat.add_0_r.
  - apply (IH (a1 ++ [x]) (b1 ++ [x]) c1);
      [by rewrite <- app_assoc..|].
    rewrite !length_app. simpl length. rewrite !Nat2Z.inj_add.
    apply reach_diag; [done|subst a|subst b|].
    + rewrite length_app. simpl. lia.
    + rewrite length_app. simpl. lia.
    + subst a b. by rewrite !arr_get_app_r.
  - rewrite Nat.add_succ_r.
    apply (IH (a1 ++ [x]) b1 (S c1)); [by rewrite <- app_assoc|done|].
    rewrite length_app. simpl length. rewrite Nat2Z.inj_add.
    apply reach_right; [done|]. subst a. rewrite length_app. simpl. lia.
  - rewrite Nat.add_succ_r.
    apply (IH a1 (b1 ++ [y]) (S c1)); [done|by rewrite <- app_assoc|].
    rewrite length_app. simpl length. rewrite Nat2Z.inj_add.
    apply reach_down; [done|]. subst b. rewrite length_app. simpl. lia.
Qed.

Lemma script_reach c : script a b c → reach a b n m c.
Proof.
  intros Hs.
  apply (script_reach_from _ _ _ Hs [] [] 0%nat); [done..|constructor].
Qed.

Lemma walk_script_to x y es x' y' :
  walk a b x y es x' y' → 0 ≤ x → 0 ≤ y → x' = n → y' = m →
  script (drop (Z.to_nat x) a) (drop (Z.to_nat y) b) (edit_cost es).
Proof.
  induction 1 as [x y|x y es x' y' Hx Hy Heq Hw IH
                  |x y es x' y' Hx Hw IH|x y es x' y' Hy Hw IH];
    intros Hx0 Hy0 -> ->.
  - rewrite !drop_ge by lia. constructor.
  - unfold arr_get in Heq. rewrite !decide_True in Heq by done.
    destruct (a !! Z.to_nat x) as [u|] eqn:Hu.
    2:{ apply lookup_ge_None in Hu. lia. }
    symmetry in Heq.
    rewrite (drop_S _ _ _ Hu), (drop_S _ _ _ Heq).
    unfold edit_cost. rewrite filter_cons_False by (simpl; tauto).
    replace (S (Z.to_nat x)) with (Z.to_nat (x + 1)) by lia.
    replace (S (Z.to_nat y)) with (Z.to_nat (y + 1)) by lia.
    constructor. apply IH; lia.
  - destruct (a !! Z.to_nat x) as [u|] eqn:Hu.
    2:{ apply lookup_ge_None in Hu. lia. }
    rewrite (drop_S _ _ _ Hu).
    unfold edit_cost. rewrite filter_cons_True by done. simpl.
    replace (S (Z.to_nat x)) with (Z.to_nat (x + 1)) by lia.
    constructor. apply IH; lia.
  - destruct (b !! Z.to_nat y) as [u|] eqn:Hu.
    2:{ apply lookup_ge_None in Hu. lia. }
    rewrite (drop_S _ _ _ Hu).
    unfold edit_cost. rewrite filter_cons_True by done. simpl.
    replace (S (Z.to_nat y)) with (Z.to_nat (y + 1)) by lia.
    constructor. apply IH; lia.
Qed.

Lemma walk_script es :
  walk a b 0 0 es n m → script a b (edit_cost es).
Proof. intros Hw. by apply (walk_script_to _ _ _ _ _ Hw). Qed.

(** The aligner is exact: its edits are an edit script, and no edit
    script has fewer insertions and deletions. *)
Lemma myers_edits_minimal :
  2 * mx < 2 ^ 31 →
  script a b (edit_cost (myers_edits a b))
  ∧ ∀ c, script a b c → (edit_cost (myers_edits a b) ≤ c)%nat.
Proof.
  intros Hsize. destruct (myers_edits_walk Hsize) as [Hw Hmin].
  split; [by apply walk_script|].
  intros c Hs. by apply Hmin, script_reach.
Qed.

End MyersFacts.

(** C1. For every pair of line sequences, the number of non-[equal] edits
    that the line-level aligner produces (forward search, then
    backtracking) is the minimal edit distance of the two sequences as the
    aligner compares them: the edits are themselves a script of line
    insertions and deletions turning the left sequence into the right one,
    and no such script has fewer insertions and deletions. The size bound
    keeps the furthest-reaching values inside the [Int32Array] slots that
    hold them. *)
Theorem C1_edit_count_is_edit_distance
    (left right : list (list Z)) (ignoreWhitespace : bool) :
  2 * (Z.of_nat (length left) + Z.of_nat (length right)) < 2 ^ 31 →
  let a := (λ l, normalizeForCompare l ignoreWhitespace) <$> left in
  let b := (λ l, normalizeForCompare l ignoreWhitespace) <$> right in
  script a b (edit_cost (myers_edits a b))
  ∧ ∀ c, script a b c → (edit_cost (myers_edits a b) ≤ c)%nat.
Proof.
  intros Hsize a b. apply myers_edits_minimal.
  unfold a, b. by rewrite !length_fmap.
Qed.

Lemma C1_witness :
  let a := [lit "a"; lit "b"; lit "c"] in
  let b := [lit "a"; lit "x"; lit "c"] in
  script a b (edit_cost (myers_edits a b))
  ∧ ∀ c, script a b c → (edit_cost (myers_edits a b) ≤ c)%nat.
Proof.
  apply (C1_edit_count_is_edit_distance
           [lit "a"; lit "b"; lit "c"] [lit "a"; lit "x"; lit "c"] false).
  vm_compute. reflexivity.
Defined.

(** ** Tokens *)

Lemma take_drop_while {A} (p : A → bool) (l : list A) :
  take_while p l ++ drop_while p l = l.
Proof.
  induction l as [|x l IH]; simpl; [done|].
  destruct (p x); simpl; [by rewrite IH|done].
Qed.

Lemma drop_while_length {A} (p : A → bool) (l : list A) :
  (length (drop_while p l) ≤ length l)%nat.
Proof.
  induction l as [|x l IH]; simpl; [done|].
  destruct (p x); simpl; lia.
Qed.

Lemma take_while_Forall {A} (p : A → bool) (l : list A) :
  Forall (λ x, p x = true) (take_while p l).
Proof.
  induction l as [|x l IH]; simpl; [done|].
  destruct (p x) eqn:Hp; [by constructor|done].
Qed.

Lemma drop_while_head {A} (p : A → bool) (l : list A) x :
  head (drop_while p l) = Some x → p x = false.
Proof.
  induction l as [|y l IH]; simpl; [done|].
  destruct (p y) eqn:Hp; [done|]. simpl. by intros [= <-].
Qed.

Lemma take_while_last {A} (p : A → bool) (l : list A) x :
  last (take_while p l) = Some x → p x = true.
Proof.
  intros Hl. apply last_Some_elem_of in Hl.
  pose proof (take_while_Forall p l) as HF.
  rewrite Forall_forall in HF. by apply HF.
Qed.

Lemma word_not_space c : is_word c = true → is_space c = true → False.
Proof.
  unfold is_word, is_space.
  rewrite !orb_true_iff, !bool_decide_eq_true. lia.
Qed.

Lemma match_tokens_nil fuel : match_tokens fuel [] = [].
Proof. by destruct fuel. Qed.

Lemma match_tokens_head fuel c s :
  (length (c :: s) ≤ fuel)%nat →
  ∃ t ts, match_tokens fuel (c :: s) = (c :: t) :: ts.
Proof.
  intros Hfuel. destruct fuel as [|fuel]; [simpl in Hfuel; lia|].
  simpl. destruct (is_word c) eqn:Hw; [eauto|].
  destruct (is_space c) eqn:Hs; [eauto|]. simpl. eauto.
Qed.

Lemma match_tokens_spec fuel s :
  (length s ≤ fuel)%nat →
  concat (match_tokens fuel s) = s
  ∧ Forall token_shape (match_tokens fuel s)
  ∧ runs_maximal (match_tokens fuel s).
Proof.
  revert s. induction fuel as [|fuel IH]; intros s Hfuel.
  { destruct s; [done|simpl in Hfuel; lia]. }
  destruct s as [|c s]; [done|]. simpl in Hfuel.
  cbn [match_tokens]. destruct (is_word c) eqn:Hw.
  - cbn [take_while drop_while]. rewrite Hw.
    pose proof (drop_while_length is_word s) as Hlen.
    destruct (IH (drop_while is_word s)) as (Hc & Hsh & Hmax); [lia|].
    split; [|split].
    + simpl. rewrite Hc. f_equal. apply take_drop_while.
    + constructor; [|done]. left. split; [done|].
      constructor; [done|apply take_while_Forall].
    + split; [|done].
      destruct (drop_while is_word s) as [|c' s'] eqn:Hd;
        [by rewrite match_tokens_nil|].
      destruct (match_tokens_head fuel c' s') as (t & ts & ->);
        [simpl in *; lia|].
      intros c1 c2 Hl [= <-]. split; intros [Hc1 Hc2].
      * pose proof (drop_while_head is_word s c') as Hh.
        rewrite Hd in Hh. specialize (Hh eq_refl). congruence.
      * assert (is_word c1 = true) as Hw1.
        { apply (take_while_last is_word (c :: s)). simpl. by rewrite Hw. }
        by apply (word_not_space c1).
  - destruct (is_space c) eqn:Hs.
    + cbn [take_while drop_while]. rewrite Hs.
      pose proof (drop_while_length is_space s) as Hlen.
      destruct (IH (drop_while is_space s)) as (Hc & Hsh & Hmax); [lia|].
      split; [|split].
      * simpl. rewrite Hc. f_equal. apply take_drop_while.
      * constructor; [|done]. right. left. split; [done|].
        constructor; [done|apply take_while_Forall].
      * split; [|done].
        destruct (drop_while is_space s) as [|c' s'] eqn:Hd;
          [by rewrite match_tokens_nil|].
        destruct (match_tokens_head fuel c' s') as (t & ts & ->);
          [simpl in *; lia|].
        intros c1 c2 Hl [= <-]. split; intros [Hc1 Hc2].
        -- assert (is_space c1 = true) as Hs1.
           { apply (take_while_last is_space (c :: s)). simpl. by rewrite Hs. }
           by apply (word_not_space c1).
        -- pose proof (drop_while_head is_space s c') as Hh.
           rewrite Hd in Hh. specialize (Hh eq_refl). congruence.
    + cbn [negb orb]. destruct (IH s) as (Hc & Hsh & Hmax); [lia|].
      split; [|split].
      * simpl. by rewrite Hc.
      * constructor; [|done]. right. right. by exists c.
      * split; [|done]. destruct s as [|c' s']; [by destruct fuel|].
        destruct (match_tokens_head fuel c' s') as (t & ts & ->);
          [simpl in *; lia|].
        intros c1 c2 [= <-] _. split; intros [? ?]; congruence.
Qed.

(** C7. Concatenating, in order, the tokens of a string gives the string
    back, for every string (the empty one and the all-whitespace ones
    included); the tokens are runs of word characters, runs of whitespace
    and single other symbols, and no two neighbours belong to one run. *)
Theorem C7_tokens_reconstruct_line (line : list Z) :
  concat (tokenizeWords line) = line
  ∧ Forall token_shape (tokenizeWords line)
  ∧ runs_maximal (tokenizeWords line).
Proof. by apply match_tokens_spec. Qed.

(** ** The lock-step walk of [wordDiff] *)

Section WordFacts.
Variables tokA tokB : list (list Z).
Variable lcs : list (option (list Z)).

Local Abbreviation n := (Z.of_nat (length tokA)).
Local Abbreviation m := (Z.of_nat (length tokB)).

Local Abbreviation in_range := (word_in_range tokA tokB).

(** Which of the three branches the body takes. *)
Lemma word_body_cases st :
  in_range st → word_guard tokA tokB st = true →
  (ai st < n ∧ bi st < m
   ∧ arr_get tokA (ai st) = js_index lcs (w_li st)
   ∧ word_body tokA tokB lcs st
     = WordState (ai st + 1) (bi st + 1) (w_li st + 1)
         (leftHtml st ++ escape (arr_get tokA (ai st)))
         (rightHtml st ++ escape (arr_get tokB (bi st))))
  ∨ (bi st < m
     ∧ word_body tokA tokB lcs st
       = WordState (ai st) (bi st + 1) (w_li st) (leftHtml st)
           (rightHtml st ++ span_added (escape (arr_get tokB (bi st)))))
  ∨ (ai st < n
     ∧ word_body tokA tokB lcs st
       = WordState (ai st + 1) (bi st) (w_li st)
           (leftHtml st ++ span_removed (escape (arr_get tokA (ai st))))
           (rightHtml st)).
Proof.
  intros [Ha Hb] Hg. unfold word_guard in Hg. unfold word_body. cbv zeta.
  destruct (_ && _ && _ && _ && _) eqn:H1.
  { left. rewrite !andb_true_iff, !bool_decide_eq_true in H1.
    destruct H1 as ((((? & ?) & ?) & ?) & ?). done. }
  destruct (bool_decide (bi st < m)) eqn:H2; simpl.
  - apply bool_decide_eq_true in H2.
    destruct (bool_decide (n ≤ ai st)) eqn:H3; simpl.
    { right. left. done. }
    apply bool_decide_eq_false in H3.
    destruct (negb _); [right; left; done|].
    right. right. split; [lia|done].
  - apply bool_decide_eq_false in H2.
    rewrite orb_false_r in Hg. apply bool_decide_eq_true in Hg.
    right. right. done.
Qed.

(** Every iteration advances the left index or the right one, and
    neither leaves its token array. *)
Lemma word_body_advance st :
  in_range st → word_guard tokA tokB st = true →
  in_range (word_body tokA tokB lcs st)
  ∧ ai st ≤ ai (word_body tokA tokB lcs st)
  ∧ bi st ≤ bi (word_body tokA tokB lcs st)
  ∧ ai st + bi st
    < ai (word_body tokA tokB lcs st) + bi (word_body tokA tokB lcs st).
Proof.
  intros Hr Hg. pose proof Hr as [Ha Hb].
  destruct (word_body_cases st Hr Hg)
    as [(? & ? & _ & ->)|[(? & ->)|(? & ->)]];
    unfold word_in_range; simpl; lia.
Qed.

Lemma word_loop_inv (P : word_state → Prop) fuel st :
  (∀ s, in_range s → P s → word_guard tokA tokB s = true →
     P (word_body tokA tokB lcs s)) →
  in_range st → P st →
  in_range (word_loop tokA tokB lcs fuel st)
  ∧ P (word_loop tokA tokB lcs fuel st).
Proof.
  intros Hstep. revert st.
  induction fuel as [|fuel IH]; intros st Hr HP; simpl; [done|].
  destruct (word_guard tokA tokB st) eqn:Hg; [|done].
  apply IH; [by apply word_body_advance|by apply Hstep].
Qed.

(** With [n - ai + m - bi] iterations the loop has left its guard. *)
Lemma word_loop_exits fuel st :
  in_range st → n - ai st + (m - bi st) ≤ Z.of_nat fuel →
  word_guard tokA tokB (word_loop tokA tokB lcs fuel st) = false.
Proof.
  revert st. induction fuel as [|fuel IH]; intros st Hr Hfuel; simpl.
  - destruct Hr. unfold word_guard.
    rewrite !bool_decide_eq_false_2 by lia. done.
  - destruct (word_guard tokA tokB st) eqn:Hg; [|done].
    destruct (word_body_advance st Hr Hg) as (Hr' & ? & ? & ?).
    apply IH; [done|lia].
Qed.

Lemma word_loop_more fuel fuel' st :
  in_range st → n - ai st + (m - bi st) ≤ Z.of_nat fuel →
  (fuel ≤ fuel')%nat →
  word_loop tokA tokB lcs fuel' st = word_loop tokA tokB lcs fuel st.
Proof.
  revert fuel' st. induction fuel as [|fuel IH]; intros fuel' st Hr Hfuel Hle.
  - destruct Hr. destruct fuel' as [|fuel']; [done|]. simpl.
    unfold word_guard. rewrite !bool_decide_eq_false_2 by lia. done.
  - destruct fuel' as [|fuel']; [lia|]. simpl.
    destruct (word_guard tokA tokB st) eqn:Hg; [|done].
    destruct (word_body_advance st Hr Hg) as (Hr' & ? & ? & ?).
    apply IH; [done|lia|lia].
Qed.

Lemma word_loop_final (P : word_state → Prop) :
  (∀ s, in_range s → P s → word_guard tokA tokB s = true →
     P (word_body tokA tokB lcs s)) →
  P (WordState 0 0 0 [] []) →
  let st := word_loop tokA tokB lcs (length tokA + length tokB)
              (WordState 0 0 0 [] []) in
  ai st = n ∧ bi st = m ∧ P st.
Proof.
  intros Hstep H0 st.
  assert (in_range (WordState 0 0 0 [] [])) as Hr0.
  { unfold word_in_range. simpl. lia. }
  destruct (word_loop_inv P (length tokA + length tokB) _ Hstep Hr0 H0)
    as [[Ha Hb] HP].
  pose proof (word_loop_exits (length tokA + length tokB) _ Hr0) as Hex.
  fold st in Ha, Hb, HP, Hex. unfold word_guard in Hex.
  apply orb_false_iff in Hex as [H1 H2]; [|simpl; lia].
  apply bool_decide_eq_false in H1, H2. split; [lia|]. split; [lia|done].
Qed.

End WordFacts.

Lemma arr_get_Some {A} (l : list A) i :
  0 ≤ i < Z.of_nat (length l) →
  ∃ x, arr_get l i = Some x ∧ l !! Z.to_nat i = Some x.
Proof.
  intros Hi. unfold arr_get. rewrite decide_True by lia.
  destruct (lookup_lt_is_Some_2 l (Z.to_nat i)) as [x Hx]; [lia|]. eauto.
Qed.

Lemma take_succ {A} (l : list A) i x :
  0 ≤ i → l !! Z.to_nat i = Some x →
  take (Z.to_nat (i + 1)) l = take (Z.to_nat i) l ++ [x].
Proof.
  intros Hi Hx. replace (Z.to_nat (i + 1)) with (S (Z.to_nat i)) by lia.
  by apply take_S_r.
Qed.

Lemma marked_nil wrap : marked wrap [] [].
Proof. by exists []. Qed.

Lemma marked_snoc wrap toks html (mk : bool) t :
  marked wrap toks html →
  marked wrap (toks ++ [t])
    (html ++ if mk then wrap (escape (Some t)) else escape (Some t)).
Proof.
  intros (marks & Hlen & ->). exists (marks ++ [mk]). split.
  - rewrite !length_app. simpl. lia.
  - rewrite zip_with_app by done. rewrite concat_app. simpl.
    by rewrite app_nil_r.
Qed.

(** Both outputs of [wordDiff] show every token of their line once, in
    order and escaped; the highlighted ones are inside their marker. *)
Lemma wordDiff_marked lineA lineB :
  marked span_removed (tokenizeWords lineA) (wordDiff lineA lineB).1
  ∧ marked span_added (tokenizeWords lineB) (wordDiff lineA lineB).2.
Proof.
  unfold wordDiff. cbv zeta.
  set (tokA := tokenizeWords lineA). set (tokB := tokenizeWords lineB).
  set (lcs := computeLCS tokA tokB).
  destruct (word_loop_final tokA tokB lcs
    (λ st, marked span_removed (take (Z.to_nat (ai st)) tokA) (leftHtml st)
           ∧ marked span_added (take (Z.to_nat (bi st)) tokB) (rightHtml st)))
    as (Ha & Hb & HL & HR).
  - intros s Hr [HL HR] Hg. pose proof Hr as [Hra Hrb].
    destruct (word_body_cases tokA tokB lcs s Hr Hg)
      as [(Hai & Hbi & _ & ->)|[(Hbi & ->)|(Hai & ->)]]; simpl.
    + destruct (arr_get_Some tokA (ai s)) as (ta & -> & Hta); [lia|].
      destruct (arr_get_Some tokB (bi s)) as (tb & -> & Htb); [lia|].
      rewrite (take_succ _ _ _ (proj1 Hra) Hta).
      rewrite (take_succ _ _ _ (proj1 Hrb) Htb).
      split; by apply (marked_snoc _ _ _ false).
    + destruct (arr_get_Some tokB (bi s)) as (tb & -> & Htb); [lia|].
      rewrite (take_succ _ _ _ (proj1 Hrb) Htb).
      split; [done|]. by apply (marked_snoc _ _ _ true).
    + destruct (arr_get_Some tokA (ai s)) as (ta & -> & Hta); [lia|].
      rewrite (take_succ _ _ _ (proj1 Hra) Hta).
      split; [|done]. by apply (marked_snoc _ _ _ true).
  - simpl. split; apply marked_nil.
  - simpl. rewrite Ha, Nat2Z.id, firstn_all in HL.
    rewrite Hb, Nat2Z.id, firstn_all in HR. done.
Qed.

(** The backward walk of [computeLCS] lowers [i] or [j] at every
    iteration: [i + j] iterations are enough. *)
Lemma lcs_walk_more a b dp fuel fuel' i j result :
  i + j ≤ Z.of_nat fuel → (fuel ≤ fuel')%nat →
  lcs_walk a b fuel' dp i j result = lcs_walk a b fuel dp i j result.
Proof.
  revert fuel' i j result.
  induction fuel as [|fuel IH]; intros fuel' i j result Hfuel Hle.
  - destruct fuel' as [|fuel']; [done|]. simpl.
    destruct (bool_decide (i > 0)) eqn:Hi; [|done].
    destruct (bool_decide (j > 0)) eqn:Hj; [|done].
    apply bool_decide_eq_true in Hi, Hj. lia.
  - destruct fuel' as [|fuel']; [lia|]. simpl.
    destruct (bool_decide (i > 0)) eqn:Hi; [|done].
    destruct (bool_decide (j > 0)) eqn:Hj; [|done].
    apply bool_decide_eq_true in Hi, Hj. simpl.
    repeat case_bool_decide; apply IH; lia.
Qed.

(** Within [i + j] iterations the backward walk has left its loop: one
    of the two indexes it ends with is zero, and none is negative. *)
Lemma lcs_walk_exits a b dp fuel i j result :
  0 ≤ i → 0 ≤ j → i + j ≤ Z.of_nat fuel →
  let i' := (lcs_walk a b fuel dp i j result).1.1 in
  let j' := (lcs_walk a b fuel dp i j result).1.2 in
  0 ≤ i' ≤ i ∧ 0 ≤ j' ≤ j ∧ (i' = 0 ∨ j' = 0).
Proof.
  revert i j result.
  induction fuel as [|fuel IH]; intros i j result Hi Hj Hfuel; cbv zeta.
  { simpl. lia. }
  cbn [lcs_walk].
  destruct (bool_decide (i > 0)) eqn:Hi0; cbn [andb].
  2:{ apply bool_decide_eq_false in Hi0. simpl. lia. }
  destruct (bool_decide (j > 0)) eqn:Hj0.
  2:{ apply bool_decide_eq_false in Hj0. simpl. lia. }
  apply bool_decide_eq_true in Hi0, Hj0.
  case_bool_decide; [|case_bool_decide].
  - specialize (IH (i - 1) (j - 1) (arr_get a (i - 1) :: result)).
    cbv zeta in IH. lia.
  - specialize (IH (i - 1) j result). cbv zeta in IH. lia.
  - specialize (IH i (j - 1) result). cbv zeta in IH. lia.
Qed.

(** C10. [wordDiff] is total. Whatever the two lines and whatever common
    subsequence was computed for them, every iteration of the lock-step
    walk moves the left index or the right one forward and leaves both
    inside their token arrays; so the walk leaves its loop within
    [n + m] iterations, the number the embedding gives it: its guard is
    false then, and more iterations would change nothing. The same holds
    of the backward walk that builds the common subsequence, whatever
    the table holds: after the [n + m] iterations that [computeLCS]
    gives it, its guard [i > 0 && j > 0] is false, and more iterations
    would change nothing. *)
Theorem C10_wordDiff_walk_terminates (lineA lineB : list Z) :
  let tokA := tokenizeWords lineA in
  let tokB := tokenizeWords lineB in
  let lcs := computeLCS tokA tokB in
  let start := WordState 0 0 0 [] [] in
  let n := Z.of_nat (length tokA) in
  let m := Z.of_nat (length tokB) in
  (∀ st, word_in_range tokA tokB st → word_guard tokA tokB st = true →
     word_in_range tokA tokB (word_body tokA tokB lcs st)
     ∧ ai st ≤ ai (word_body tokA tokB lcs st)
     ∧ bi st ≤ bi (word_body tokA tokB lcs st)
     ∧ ai st + bi st
       < ai (word_body tokA tokB lcs st) + bi (word_body tokA tokB lcs st))
  ∧ word_guard tokA tokB
      (word_loop tokA tokB lcs (length tokA + length tokB) start) = false
  ∧ (∀ fuel, (length tokA + length tokB ≤ fuel)%nat →
       word_loop tokA tokB lcs fuel start
       = word_loop tokA tokB lcs (length tokA + length tokB) start)
  ∧ wordDiff lineA lineB
    = (leftHtml (word_loop tokA tokB lcs (length tokA + length tokB) start),
       rightHtml (word_loop tokA tokB lcs (length tokA + length tokB) start))
  ∧ (∀ dp fuel, (length tokA + length tokB ≤ fuel)%nat →
       lcs_walk tokA tokB fuel dp n m []
       = lcs_walk tokA tokB (Z.to_nat (n + m)) dp n m [])
  ∧ (∀ dp,
       let i := (lcs_walk tokA tokB (Z.to_nat (n + m)) dp n m []).1.1 in
       let j := (lcs_walk tokA tokB (Z.to_nat (n + m)) dp n m []).1.2 in
       0 ≤ i ∧ 0 ≤ j
       ∧ bool_decide (i > 0) && bool_decide (j > 0) = false)
  ∧ (n ≠ 0 → m ≠ 0 → n * m ≤ 100000 →
     lcs = (lcs_walk tokA tokB (Z.to_nat (n + m)) (lcs_table tokA tokB n m)
              n m []).2).
Proof.
  intros tokA tokB lcs start n m.
  assert (word_in_range tokA tokB start) as Hr0.
  { unfold word_in_range. simpl. lia. }
  split; [|split; [|split; [|split; [|split; [|split]]]]].
  - intros st Hr Hg. by apply word_body_advance.
  - apply word_loop_exits; [done|simpl; lia].
  - intros fuel Hfuel. apply word_loop_more; [done|simpl; lia|done].
  - done.
  - intros dp fuel Hfuel. apply lcs_walk_more; lia.
  - intros dp.
    pose proof (lcs_walk_exits tokA tokB dp (Z.to_nat (n + m)) n m [])
      as Hexit.
    cbv zeta in *.
    destruct Hexit as (Hi & Hj & Hz); [lia..|].
    split; [lia|]. split; [lia|].
    destruct Hz as [Hz|Hz]; rewrite Hz.
    + done.
    + by rewrite andb_false_r.
  - intros Hn Hm Hcap. unfold lcs, computeLCS. cbv zeta. fold n m.
    rewrite !(bool_decide_eq_false_2 (_ = 0)) by done.
    by rewrite bool_decide_eq_false_2 by lia.
Qed.

(** C5. When the two token counts multiply to more than 100000, no
    common subsequence is computed (the empty one is reported), and
    [wordDiff] marks every token of both lines: the left output is, for
    each token of the left line in order, the escaped token between
    [<span class="word-removed">] and [</span>]; the right output is,
    for each token of the right line in order, the escaped token between
    [<span class="word-added">] and [</span>]. *)
Theorem C5_oversized_lines_all_changed (lineA lineB : list Z) :
  Z.of_nat (length (tokenizeWords lineA))
  * Z.of_nat (length (tokenizeWords lineB)) > 100000 →
  computeLCS (tokenizeWords lineA) (tokenizeWords lineB) = []
  ∧ wordDiff lineA lineB
    = (concat ((λ t, lit "<span class=" ++ [34] ++ lit "word-removed"
                     ++ [34] ++ lit ">" ++ escape (Some t) ++ lit "</span>")
                 <$> tokenizeWords lineA),
       concat ((λ t, lit "<span class=" ++ [34] ++ lit "word-added"
                     ++ [34] ++ lit ">" ++ escape (Some t) ++ lit "</span>")
                 <$> tokenizeWords lineB)).
Proof.
  intros Hbig.
  assert (computeLCS (tokenizeWords lineA) (tokenizeWords lineB) = [])
    as Hlcs.
  { unfold computeLCS. cbv zeta. destruct (_ || _); [done|].
    by rewrite bool_decide_eq_true_2. }
  split; [done|]. unfold wordDiff. cbv zeta. rewrite Hlcs.
  set (tokA := tokenizeWords lineA) in *.
  set (tokB := tokenizeWords lineB) in *.
  destruct (word_loop_final tokA tokB []
    (λ st, leftHtml st
           = concat ((λ t, span_removed (escape (Some t)))
                       <$> take (Z.to_nat (ai st)) tokA)
           ∧ rightHtml st
             = concat ((λ t, span_added (escape (Some t)))
                         <$> take (Z.to_nat (bi st)) tokB)))
    as (Ha & Hb & HL & HR).
  - intros s Hr [HL HR] Hg. pose proof Hr as [Hra Hrb].
    destruct (word_body_cases tokA tokB [] s Hr Hg)
      as [(Hai & Hbi & Heq & _)|[(Hbi & ->)|(Hai & ->)]]; simpl.
    + destruct (arr_get_Some tokA (ai s)) as (ta & Hta & _); [lia|].
      rewrite Hta in Heq. unfold js_index, arr_get in Heq.
      by case_decide.
    + destruct (arr_get_Some tokB (bi s)) as (tb & -> & Htb); [lia|].
      rewrite (take_succ _ _ _ (proj1 Hrb) Htb).
      split; [done|].
      rewrite fmap_app, concat_app, HR. simpl. by rewrite app_nil_r.
    + destruct (arr_get_Some tokA (ai s)) as (ta & -> & Hta); [lia|].
      rewrite (take_succ _ _ _ (proj1 Hra) Hta).
      split; [|done].
      rewrite fmap_app, concat_app, HL. simpl. by rewrite app_nil_r.
  - done.
  - rewrite Ha, Nat2Z.id, firstn_all in HL.
    rewrite Hb, Nat2Z.id, firstn_all in HR. rewrite HL, HR.
    reflexivity.
Qed.

Lemma C5_witness :
  computeLCS (tokenizeWords (replicate 317 33))
    (tokenizeWords (replicate 317 33)) = []
  ∧ wordDiff (replicate 317 33) (replicate 317 33)
    = (concat ((λ t, lit "<span class=" ++ [34] ++ lit "word-removed"
                     ++ [34] ++ lit ">" ++ escape (Some t) ++ lit "</span>")
                 <$> tokenizeWords (replicate 317 33)),
       concat ((λ t, lit "<span class=" ++ [34] ++ lit "word-added"
                     ++ [34] ++ lit ">" ++ escape (Some t) ++ lit "</span>")
                 <$> tokenizeWords (replicate 317 33))).
Proof.
  apply (C5_oversized_lines_all_changed (replicate 317 33) (replicate 317 33)).
  vm_compute. reflexivity.
Defined.

(** ** The consolidator *)

Lemma take_while_app_stop {A} (p : A → bool) (run rest : list A) :
  Forall (λ x, p x = true) run →
  (∀ x, head rest = Some x → p x = false) →
  take_while p (run ++ rest) = run ∧ drop_while p (run ++ rest) = rest.
Proof.
  intros Hrun Hrest. induction Hrun as [|x run Hx _ [IH1 IH2]]; simpl.
  - destruct rest as [|y rest]; [done|]. simpl.
    by rewrite (Hrest y eq_refl).
  - rewrite Hx. by rewrite IH1, IH2.
Qed.

Lemma drop_while_shrinks {A} (p : A → bool) x (l : list A) :
  p x = true → (length (drop_while p (x :: l)) ≤ length l)%nat.
Proof. intros Hp. simpl. rewrite Hp. apply drop_while_length. Qed.

Lemma is_delete_true e : is_delete e = true ↔ e_type e = EDelete.
Proof. apply bool_decide_eq_true. Qed.

Lemma is_insert_true e : is_insert e = true ↔ e_type e = EInsert.
Proof. apply bool_decide_eq_true. Qed.

Lemma is_delete_false e : is_delete e = false ↔ e_type e ≠ EDelete.
Proof. apply bool_decide_eq_false. Qed.

Lemma is_insert_false e : is_insert e = false ↔ e_type e ≠ EInsert.
Proof. apply bool_decide_eq_false. Qed.

Section ConsolidateFacts.
Variables left right : list (list Z).

(** Fuel beyond the number of edits is never used. *)
Lemma consolidate_loop_fuels len fuel1 fuel2 edits :
  (length edits ≤ len)%nat → (len ≤ fuel1)%nat → (len ≤ fuel2)%nat →
  consolidate_loop left right fuel1 edits
  = consolidate_loop left right fuel2 edits.
Proof.
  revert fuel1 fuel2 edits.
  induction len as [|len IH]; intros fuel1 fuel2 edits Hlen H1 H2.
  { destruct edits; [|simpl in Hlen; lia]. by destruct fuel1, fuel2. }
  destruct edits as [|e rest]; [by destruct fuel1, fuel2|].
  destruct fuel1 as [|fuel1]; [lia|]. destruct fuel2 as [|fuel2]; [lia|].
  simpl in Hlen. cbn [consolidate_loop]. destruct (e_type e) eqn:He.
  - f_equal. apply IH; lia.
  - f_equal. apply IH; [|lia..].
    pose proof (drop_while_shrinks is_insert e rest) as Hs.
    rewrite is_insert_true in Hs. specialize (Hs He). lia.
  - cbv zeta. f_equal. apply IH; [|lia..].
    pose proof (drop_while_shrinks is_delete e rest) as Hs.
    rewrite is_delete_true in Hs. specialize (Hs He).
    pose proof (drop_while_length is_insert
                  (drop_while is_delete (e :: rest))). lia.
Qed.

Lemma consolidate_loop_fuel fuel edits :
  (length edits ≤ fuel)%nat →
  consolidate_loop left right fuel edits = consolidate left right edits.
Proof. intros Hf. by apply (consolidate_loop_fuels (length edits)). Qed.

Lemma consolidate_nil : consolidate left right [] = [].
Proof. done. Qed.

Lemma consolidate_equal e rest :
  e_type e = EEqual →
  consolidate left right (e :: rest)
  = equal_hunk left right e :: consolidate left right rest.
Proof.
  intros He. unfold consolidate at 1. cbn [length consolidate_loop].
  by rewrite He.
Qed.

(** A maximal run of deletes followed by a maximal run of inserts. *)
Lemma consolidate_block dels ins rest :
  dels ≠ [] →
  Forall (λ e, e_type e = EDelete) dels →
  Forall (λ e, e_type e = EInsert) ins →
  (∀ e, head rest = Some e →
     e_type e ≠ EInsert ∧ (ins = [] → e_type e ≠ EDelete)) →
  consolidate left right (dels ++ ins ++ rest)
  = block_hunks left right dels ins ++ consolidate left right rest.
Proof.
  intros Hne Hdels Hins Hrest.
  destruct (take_while_app_stop is_delete dels (ins ++ rest)) as [Ht Hd].
  { eapply Forall_impl; [done|]. intros e. by rewrite is_delete_true. }
  { intros e He. apply is_delete_false. destruct Hins as [|i ins Hi _].
    - by apply Hrest.
    - simpl in He. injection He as <-. congruence. }
  destruct (take_while_app_stop is_insert ins rest) as [Ht' Hd'].
  { eapply Forall_impl; [done|]. intros e. by rewrite is_insert_true. }
  { intros e He. apply is_insert_false. by apply Hrest. }
  destruct dels as [|d dels]; [done|].
  unfold consolidate at 1. cbn [length app consolidate_loop].
  rewrite (Forall_inv Hdels). cbv zeta.
  change (d :: dels ++ ins ++ rest) with ((d :: dels) ++ ins ++ rest).
  rewrite Ht, Hd, Ht', Hd'. f_equal.
  apply consolidate_loop_fuel. rewrite !length_app. lia.
Qed.

(** A maximal run of inserts that follows no delete. *)
Lemma consolidate_inserts ins rest :
  ins ≠ [] →
  Forall (λ e, e_type e = EInsert) ins →
  (∀ e, head rest = Some e → e_type e ≠ EInsert) →
  consolidate left right (ins ++ rest)
  = (added_hunk right <$> ins) ++ consolidate left right rest.
Proof.
  intros Hne Hins Hrest.
  destruct (take_while_app_stop is_insert ins rest) as [Ht Hd].
  { eapply Forall_impl; [done|]. intros e. by rewrite is_insert_true. }
  { intros e He. apply is_insert_false. by apply Hrest. }
  destruct ins as [|i ins]; [done|].
  unfold consolidate at 1. cbn [length app consolidate_loop].
  rewrite (Forall_inv Hins).
  change (i :: ins ++ rest) with ((i :: ins) ++ rest).
  rewrite Ht, Hd. f_equal.
  apply consolidate_loop_fuel. rewrite !length_app. lia.
Qed.

(** [consolidate] reads every edit list as [parsed] describes. *)
Lemma consolidate_parsed edits :
  parsed left right edits (consolidate left right edits).
Proof.
  remember (length edits) as len eqn:Hlen. revert edits Hlen.
  induction (lt_wf len) as [len _ IH]; intros edits ->.
  destruct edits as [|e rest]; [constructor|].
  destruct (e_type e) eqn:He.
  - rewrite consolidate_equal by done. constructor; [done|].
    apply (IH (length rest)); [simpl; lia|done].
  - set (ins := take_while is_insert (e :: rest)).
    set (tail := drop_while is_insert (e :: rest)).
    assert (e :: rest = ins ++ tail) as Hsplit
      by (symmetry; apply take_drop_while).
    assert (ins ≠ []) as Hne.
    { unfold ins. simpl. unfold is_insert at 1.
      by rewrite bool_decide_eq_true_2. }
    assert (Forall (λ e, e_type e = EInsert) ins) as Hins.
    { eapply Forall_impl; [apply take_while_Forall|].
      intros x. by rewrite is_insert_true. }
    assert (∀ x, head tail = Some x → e_type x ≠ EInsert) as Htail.
    { intros x Hx. by apply is_insert_false, (drop_while_head _ (e :: rest)). }
    rewrite Hsplit, consolidate_inserts by done.
    constructor; [done..|].
    apply (IH (length tail)); [|done].
    apply (f_equal length) in Hsplit. rewrite length_app in Hsplit.
    destruct ins; [done|]. simpl in *. lia.
  - set (dels := take_while is_delete (e :: rest)).
    set (after := drop_while is_delete (e :: rest)).
    set (ins := take_while is_insert after).
    set (tail := drop_while is_insert after).
    assert (e :: rest = dels ++ ins ++ tail) as Hsplit.
    { unfold ins, tail. rewrite take_drop_while. symmetry.
      apply take_drop_while. }
    assert (dels ≠ []) as Hne.
    { unfold dels. simpl. unfold is_delete at 1.
      by rewrite bool_decide_eq_true_2. }
    assert (Forall (λ e, e_type e = EDelete) dels) as Hdels.
    { eapply Forall_impl; [apply take_while_Forall|].
      intros x. by rewrite is_delete_true. }
    assert (Forall (λ e, e_type e = EInsert) ins) as Hins.
    { eapply Forall_impl; [apply take_while_Forall|].
      intros x. by rewrite is_insert_true. }
    assert (∀ x, head tail = Some x →
              e_type x ≠ EInsert ∧ (ins = [] → e_type x ≠ EDelete)) as Htail.
    { intros x Hx. split.
      - by apply is_insert_false, (drop_while_head _ after).
      - intros Hnil. apply is_delete_false, (drop_while_head _ (e :: rest)).
        fold after. rewrite <- (take_drop_while is_insert after).
        fold ins tail. by rewrite Hnil. }
    rewrite Hsplit, consolidate_block by done.
    constructor; [done..|].
    apply (IH (length tail)); [|done].
    apply (f_equal length) in Hsplit. rewrite !length_app in Hsplit.
    destruct dels; [done|]. simpl in *. lia.
Qed.

(** Where one reading ends and the next one starts: the edit after the
    cut neither extends a run of deletes nor pairs with what precedes. *)
Lemma consolidate_app_parsed pre hs rest :
  parsed left right pre hs →
  (∀ e1 e2, last pre = Some e1 → head rest = Some e2 →
     (e_type e2 = EDelete → e_type e1 ≠ EDelete)
     ∧ (e_type e2 = EInsert → e_type e1 = EEqual)) →
  consolidate left right (pre ++ rest) = hs ++ consolidate left right rest.
Proof.
  induction 1 as [|e pre hs He Hp IH
                  |dels ins pre hs Hne Hdels Hins Hhead Hp IH
                  |ins pre hs Hne Hins Hhead Hp IH]; intros Hcut.
  - done.
  - simpl. rewrite consolidate_equal by done. f_equal. apply IH.
    intros e1 e2 H1 H2. apply Hcut; [|done].
    rewrite last_cons, H1. done.
  - rewrite <- !app_assoc. rewrite consolidate_block; [|done..|].
    + f_equal. apply IH.
      intros e1 e2 H1 H2. apply Hcut; [|done].
      rewrite !last_app, H1. done.
    + intros e He. destruct pre as [|p pre].
      * simpl in He. rewrite app_nil_r in Hcut.
        destruct (last ins) as [i|] eqn:Hl.
        -- destruct (Hcut i e) as [_ Hi]; [by rewrite last_app, Hl|done|].
           assert (e_type i = EInsert) as Hti.
           { rewrite Forall_forall in Hins.
             by apply Hins, last_Some_elem_of. }
           split; [intros Hte; specialize (Hi Hte); congruence|].
           intros ->. done.
        -- apply last_None in Hl as ->.
           destruct (last dels) as [d|] eqn:Hl; [|by apply last_None in Hl].
           assert (e_type d = EDelete) as Htd.
           { rewrite Forall_forall in Hdels.
             by apply Hdels, last_Some_elem_of. }
           destruct (Hcut d e) as [Hd Hi]; [by rewrite app_nil_r|done|].
           split; [intros Hte; specialize (Hi Hte); congruence|].
           intros _ Hte. by apply Hd.
      * simpl in He. by apply Hhead.
  - rewrite <- !app_assoc. rewrite consolidate_inserts; [|done..|].
    + f_equal. apply IH.
      intros e1 e2 H1 H2. apply Hcut; [|done].
      rewrite !last_app, H1. done.
    + intros e He. destruct pre as [|p pre].
      * simpl in He. rewrite app_nil_r in Hcut.
        destruct (last ins) as [i|] eqn:Hl; [|by apply last_None in Hl].
        destruct (Hcut i e) as [_ Hi]; [done..|].
        assert (e_type i = EInsert) as Hti.
        { rewrite Forall_forall in Hins. by apply Hins, last_Some_elem_of. }
        intros Hte. specialize (Hi Hte). congruence.
      * simpl in He. by apply Hhead.
Qed.

(** The hunks of a block, whichever branch builds them. *)
Lemma block_hunks_eq dels ins :
  block_hunks left right dels ins
  = zip_with (changed_hunk left right)
      (take (length dels `min` length ins) dels)
      (take (length dels `min` length ins) ins)
    ++ (removed_hunk left <$> drop (length dels `min` length ins) dels)
    ++ (added_hunk right <$> drop (length dels `min` length ins) ins).
Proof.
  unfold block_hunks. destruct dels as [|d dels]; [done|].
  destruct ins as [|i ins]; done.
Qed.

End ConsolidateFacts.

(** C3. A maximal run of deletes followed by a maximal run of inserts is
    consolidated on its own: the hunks before it and after it are those of
    the edits before it and after it, and between them come, in this
    order,
    - exactly [min (length dels) (length ins)] changed hunks, the one of
      rank [k] holding the left line of the delete of rank [k] and the
      right line of the insert of rank [k], with the two indexes of
      these lines;
    - one removed hunk for every delete beyond that count, holding its
      left line, the empty string on the right, and [-1] as right index;
    - one added hunk for every insert beyond that count, holding the
      empty string on the left, its right line, and [-1] as left index.
    One of the last two lists is empty. A line read outside of its array
    is [undefined]. *)
Theorem C3_change_block_pairing
    (left right : list (list Z)) (pre dels ins post : list edit) :
  dels ≠ [] →
  Forall (λ e, e_type e = EDelete) dels →
  Forall (λ e, e_type e = EInsert) ins →
  (∀ e, last pre = Some e → e_type e ≠ EDelete) →
  (∀ e, head post = Some e →
     e_type e ≠ EInsert ∧ (ins = [] → e_type e ≠ EDelete)) →
  let count := (length dels `min` length ins)%nat in
  let line := λ (lines : list (list Z)) (i : Z),
    if decide (0 ≤ i) then lines !! Z.to_nat i else None in
  let pairs :=
    zip_with (λ del ins,
                Hunk Changed [line left (li del)] [line right (ri ins)]
                  (li del) (ri ins))
      (take count dels) (take count ins) in
  let surplus_dels :=
    (λ del, Hunk Removed [line left (li del)] [Some []] (li del) (-1))
      <$> drop count dels in
  let surplus_ins :=
    (λ ins, Hunk Added [Some []] [line right (ri ins)] (-1) (ri ins))
      <$> drop count ins in
  consolidate left right (pre ++ dels ++ ins ++ post)
  = consolidate left right pre
    ++ (pairs ++ surplus_dels ++ surplus_ins)
    ++ consolidate left right post
  ∧ length pairs = count
  ∧ length surplus_dels = (length dels - count)%nat
  ∧ length surplus_ins = (length ins - count)%nat
  ∧ (surplus_dels = [] ∨ surplus_ins = []).
Proof.
  intros Hne Hdels Hins Hpre Hpost count line pairs surplus_dels surplus_ins.
  split; [|split; [|split; [|split]]].
  - rewrite (consolidate_app_parsed left right pre
               (consolidate left right pre)).
    + f_equal. rewrite consolidate_block by done.
      by rewrite block_hunks_eq.
    + apply consolidate_parsed.
    + intros e1 e2 H1 H2. destruct dels as [|d dels]; [done|].
      simpl in H2. injection H2 as <-.
      pose proof (Forall_inv Hdels) as Hd. simpl in Hd.
      split; [intros _; by apply Hpre|]. congruence.
  - unfold pairs. rewrite length_zip_with, !length_take. lia.
  - unfold surplus_dels. by rewrite length_fmap, length_drop.
  - unfold surplus_ins. by rewrite length_fmap, length_drop.
  - unfold surplus_dels, surplus_ins.
    destruct (decide (length dels ≤ length ins)%nat).
    + left. rewrite drop_ge; [done|]. unfold count. lia.
    + right. rewrite drop_ge; [done|]. unfold count. lia.
Qed.

(** ** Edits and hunks cover both sequences *)

Lemma filter_all {A} (P : A → Prop) `{∀ x, Decision (P x)} (l : list A) :
  Forall P l → filter P l = l.
Proof.
  induction 1 as [|x l Hx _ IH]; [done|].
  by rewrite filter_cons_True, IH.
Qed.

Lemma filter_none {A} (P : A → Prop) `{∀ x, Decision (P x)} (l : list A) :
  Forall (λ x, ¬ P x) l → filter P l = [].
Proof.
  induction 1 as [|x l Hx _ IH]; [done|].
  by rewrite filter_cons_False, IH.
Qed.

Lemma Forall_zip_with {A B C} (f : A → B → C) (P : A → Prop) (Q : B → Prop)
    (R : C → Prop) (l : list A) (k : list B) :
  (∀ x y, P x → Q y → R (f x y)) →
  Forall P l → Forall Q k → Forall R (zip_with f l k).
Proof.
  intros Hf Hl. revert k.
  induction Hl as [|x l Hx _ IH]; intros k Hk; [constructor|].
  destruct Hk as [|y k Hy Hk]; simpl; constructor; eauto.
Qed.

Section Walks.
Context {A : Type} `{EqDecision A}.
Variables a b : list A.

Lemma walk_indices x y es x' y' :
  walk a b x y es x' y' →
  li <$> filter (λ e, e_type e ≠ EInsert) es = seqZ x (x' - x)
  ∧ ri <$> filter (λ e, e_type e ≠ EDelete) es = seqZ y (y' - y)
  ∧ x ≤ x' ∧ y ≤ y'.
Proof.
  induction 1 as [x y|x y es x' y' Hx Hy Heq Hw (IHl & IHr & ? & ?)
                  |x y es x' y' Hx Hw (IHl & IHr & ? & ?)
                  |x y es x' y' Hy Hw (IHl & IHr & ? & ?)].
  - rewrite !Z.sub_diag. repeat split; lia || done.
  - rewrite !filter_cons_True by done. rewrite !fmap_cons. cbn [li ri].
    rewrite (seqZ_cons x), (seqZ_cons y) by lia. rewrite IHl, IHr.
    repeat split; try lia; repeat f_equal; lia.
  - rewrite filter_cons_True by done.
    rewrite filter_cons_False by (simpl; tauto).
    rewrite !fmap_cons. cbn [li ri].
    rewrite (seqZ_cons x) by lia. rewrite IHl, IHr.
    repeat split; try lia; repeat f_equal; lia.
  - rewrite filter_cons_False by (simpl; tauto).
    rewrite filter_cons_True by done.
    rewrite !fmap_cons. cbn [li ri].
    rewrite (seqZ_cons y) by lia. rewrite IHl, IHr.
    repeat split; try lia; repeat f_equal; lia.
Qed.

Lemma walk_edits_valid x y es x' y' :
  walk a b x y es x' y' → 0 ≤ x → 0 ≤ y →
  Forall (edit_valid (Z.of_nat (length a)) (Z.of_nat (length b))) es.
Proof.
  induction 1 as [x y|x y es x' y' Hx Hy Heq Hw IH
                  |x y es x' y' Hx Hw IH|x y es x' y' Hy Hw IH];
    intros Hx0 Hy0; [constructor|..];
    (constructor; [unfold edit_valid; simpl; lia|apply IH; lia]).
Qed.

End Walks.

Lemma arr_get_seqZ {A} (l : list A) :
  (λ i, arr_get l i) <$> seqZ 0 (Z.of_nat (length l)) = Some <$> l.
Proof.
  apply list_eq. intros i. rewrite !list_lookup_fmap.
  destruct (decide (i < length l)%nat) as [Hi|Hi].
  - rewrite lookup_seqZ_lt by lia. simpl. rewrite Z.add_0_l.
    rewrite arr_get_lookup.
    destruct (lookup_lt_is_Some_2 l i Hi) as [x ->]. done.
  - rewrite lookup_seqZ_ge by lia. by rewrite lookup_ge_None_2 by lia.
Qed.

Section Coverage.
Variables left right : list (list Z).

Lemma changed_left dels ins :
  length dels = length ins →
  lStart <$> zip_with (changed_hunk left right) dels ins = li <$> dels
  ∧ concat (lLines <$> zip_with (changed_hunk left right) dels ins)
    = (λ e, arr_get left (li e)) <$> dels.
Proof.
  revert ins. induction dels as [|d dels IH]; intros [|i ins] Hlen;
    try done.
  csimpl in *. destruct (IH ins) as [-> ->]; [lia|done].
Qed.

Lemma changed_right dels ins :
  length dels = length ins →
  rStart <$> zip_with (changed_hunk left right) dels ins = ri <$> ins
  ∧ concat (rLines <$> zip_with (changed_hunk left right) dels ins)
    = (λ e, arr_get right (ri e)) <$> ins.
Proof.
  revert ins. induction dels as [|d dels IH]; intros [|i ins] Hlen;
    try done.
  csimpl in *. destruct (IH ins) as [-> ->]; [lia|done].
Qed.

Lemma removed_left dels :
  lStart <$> (removed_hunk left <$> dels) = li <$> dels
  ∧ concat (lLines <$> (removed_hunk left <$> dels))
    = (λ e, arr_get left (li e)) <$> dels.
Proof.
  induction dels as [|d dels [IH1 IH2]]; [done|]. csimpl.
  by rewrite IH1, IH2.
Qed.

Lemma added_right ins :
  rStart <$> (added_hunk right <$> ins) = ri <$> ins
  ∧ concat (rLines <$> (added_hunk right <$> ins))
    = (λ e, arr_get right (ri e)) <$> ins.
Proof.
  induction ins as [|i ins [IH1 IH2]]; [done|]. csimpl.
  by rewrite IH1, IH2.
Qed.

Lemma block_with_left dels ins :
  with_left (block_hunks left right dels ins)
  = zip_with (changed_hunk left right)
      (take (length dels `min` length ins) dels)
      (take (length dels `min` length ins) ins)
    ++ (removed_hunk left <$> drop (length dels `min` length ins) dels).
Proof.
  rewrite block_hunks_eq. unfold with_left.
  rewrite !list.filter_app.
  rewrite (filter_none _ (added_hunk right <$> _)), app_nil_r.
  2:{ apply Forall_fmap, Forall_true. intros e. simpl. tauto. }
  rewrite (filter_all _ (removed_hunk left <$> _)).
  2:{ apply Forall_fmap, Forall_true. intros e. done. }
  rewrite filter_all; [done|].
  apply (Forall_zip_with _ (λ _, True) (λ _, True));
    [done|by apply Forall_true..].
Qed.

Lemma block_with_right dels ins :
  with_right (block_hunks left right dels ins)
  = zip_with (changed_hunk left right)
      (take (length dels `min` length ins) dels)
      (take (length dels `min` length ins) ins)
    ++ (added_hunk right <$> drop (length dels `min` length ins) ins).
Proof.
  rewrite block_hunks_eq. unfold with_right.
  rewrite !list.filter_app.
  rewrite (filter_none _ (removed_hunk left <$> _)).
  2:{ apply Forall_fmap, Forall_true. intros e. simpl. tauto. }
  rewrite (filter_all _ (added_hunk right <$> _)).
  2:{ apply Forall_fmap, Forall_true. intros e. done. }
  rewrite filter_all; [done|].
  apply (Forall_zip_with _ (λ _, True) (λ _, True));
    [done|by apply Forall_true..].
Qed.

Lemma parsed_left edits hs :
  parsed left right edits hs →
  lStart <$> with_left hs = li <$> filter (λ e, e_type e ≠ EInsert) edits
  ∧ concat (lLines <$> with_left hs)
    = (λ e, arr_get left (li e)) <$> filter (λ e, e_type e ≠ EInsert) edits.
Proof.
  unfold with_left.
  induction 1 as [|e rest hs He Hp [IH1 IH2]
                  |dels ins rest hs Hne Hdels Hins Hhead Hp [IH1 IH2]
                  |ins rest hs Hne Hins Hhead Hp [IH1 IH2]].
  - done.
  - rewrite !filter_cons_True by (simpl; congruence). csimpl.
    by rewrite IH1, IH2.
  - rewrite !list.filter_app. fold (with_left (block_hunks left right dels ins)).
    rewrite block_with_left.
    rewrite (filter_all _ dels)
      by (eapply Forall_impl; [done|]; simpl; congruence).
    rewrite (filter_none _ ins)
      by (eapply Forall_impl; [done|]; simpl; intros; tauto).
    rewrite app_nil_l, !fmap_app, !concat_app, IH1, IH2.
    destruct (changed_left (take (length dels `min` length ins) dels)
                (take (length dels `min` length ins) ins)) as [-> ->].
    { rewrite !length_take. lia. }
    destruct (removed_left (drop (length dels `min` length ins) dels))
      as [-> ->].
    rewrite <- !fmap_app, take_drop. done.
  - rewrite !list.filter_app.
    rewrite (filter_none _ (added_hunk right <$> ins)).
    2:{ apply Forall_fmap, Forall_true. intros e. simpl. tauto. }
    rewrite (filter_none _ ins)
      by (eapply Forall_impl; [done|]; simpl; intros; tauto).
    done.
Qed.

Lemma parsed_right edits hs :
  parsed left right edits hs →
  rStart <$> with_right hs = ri <$> filter (λ e, e_type e ≠ EDelete) edits
  ∧ concat (rLines <$> with_right hs)
    = (λ e, arr_get right (ri e)) <$> filter (λ e, e_type e ≠ EDelete) edits.
Proof.
  unfold with_right.
  induction 1 as [|e rest hs He Hp [IH1 IH2]
                  |dels ins rest hs Hne Hdels Hins Hhead Hp [IH1 IH2]
                  |ins rest hs Hne Hins Hhead Hp [IH1 IH2]].
  - done.
  - rewrite !filter_cons_True by (simpl; congruence). csimpl.
    by rewrite IH1, IH2.
  - rewrite !list.filter_app.
    fold (with_right (block_hunks left right dels ins)).
    rewrite block_with_right.
    rewrite (filter_none _ dels)
      by (eapply Forall_impl; [done|]; simpl; intros; tauto).
    rewrite (filter_all _ ins)
      by (eapply Forall_impl; [done|]; simpl; congruence).
    rewrite app_nil_l, !fmap_app, !concat_app, IH1, IH2.
    destruct (changed_right (take (length dels `min` length ins) dels)
                (take (length dels `min` length ins) ins)) as [-> ->].
    { rewrite !length_take. lia. }
    destruct (added_right (drop (length dels `min` length ins) ins))
      as [-> ->].
    rewrite <- !fmap_app, take_drop. done.
  - rewrite !list.filter_app.
    rewrite (filter_all _ (added_hunk right <$> ins)).
    2:{ apply Forall_fmap, Forall_true. intros e. done. }
    rewrite (filter_all _ ins)
      by (eapply Forall_impl; [done|]; simpl; congruence).
    rewrite !fmap_app, !concat_app, IH1, IH2.
    destruct (added_right ins) as [-> ->]. done.
Qed.

End Coverage.

(** ** The sides of a hunk *)

Section Sides.
Variables left right : list (list Z).

Lemma side_present_get (lines : list (list Z)) i :
  0 ≤ i < Z.of_nat (length lines) → side_present lines i [arr_get lines i].
Proof.
  intros Hi. split; [done|].
  destruct (arr_get_Some lines i Hi) as (l & -> & Hl). eauto.
Qed.

Lemma equal_hunk_sides e :
  e_type e = EEqual →
  edit_valid (Z.of_nat (length left)) (Z.of_nat (length right)) e →
  hunk_sides left right (equal_hunk left right e).
Proof.
  unfold edit_valid, hunk_sides. intros -> [Hl Hr]. simpl.
  split; by apply side_present_get.
Qed.

Lemma changed_hunk_sides d i :
  e_type d = EDelete ∧
    edit_valid (Z.of_nat (length left)) (Z.of_nat (length right)) d →
  e_type i = EInsert ∧
    edit_valid (Z.of_nat (length left)) (Z.of_nat (length right)) i →
  hunk_sides left right (changed_hunk left right d i).
Proof.
  unfold edit_valid, hunk_sides. intros [-> [Hl _]] [-> [_ Hr]]. simpl.
  split; by apply side_present_get.
Qed.

Lemma removed_hunk_sides d :
  e_type d = EDelete ∧
    edit_valid (Z.of_nat (length left)) (Z.of_nat (length right)) d →
  hunk_sides left right (removed_hunk left d).
Proof.
  unfold edit_valid, hunk_sides. intros [-> [Hl _]]. simpl.
  split; [by apply side_present_get|done].
Qed.

Lemma added_hunk_sides i :
  e_type i = EInsert ∧
    edit_valid (Z.of_nat (length left)) (Z.of_nat (length right)) i →
  hunk_sides left right (added_hunk right i).
Proof.
  unfold edit_valid, hunk_sides. intros [-> [_ Hr]]. simpl.
  split; [done|by apply side_present_get].
Qed.

Lemma parsed_sides edits hs :
  parsed left right edits hs →
  Forall (edit_valid (Z.of_nat (length left)) (Z.of_nat (length right)))
    edits →
  Forall (hunk_sides left right) hs.
Proof.
  induction 1 as [|e rest hs He Hp IH
                  |dels ins rest hs Hne Hdels Hins Hhead Hp IH
                  |ins rest hs Hne Hins Hhead Hp IH]; intros Hvalid.
  - constructor.
  - apply Forall_cons in Hvalid as [Hv Hvalid].
    constructor; [by apply equal_hunk_sides|by apply IH].
  - apply Forall_app in Hvalid as [Hvd Hvalid].
    apply Forall_app in Hvalid as [Hvi Hvalid].
    pose proof (proj2 (Forall_and _ dels) (conj Hdels Hvd)) as Hd.
    pose proof (proj2 (Forall_and _ ins) (conj Hins Hvi)) as Hi.
    apply Forall_app. split; [|by apply IH].
    rewrite block_hunks_eq. rewrite !Forall_app. split; [|split].
    + eapply Forall_zip_with; [apply changed_hunk_sides| |].
      * by apply Forall_take.
      * by apply Forall_take.
    + apply Forall_fmap. eapply Forall_impl; [by apply Forall_drop|].
      apply removed_hunk_sides.
    + apply Forall_fmap. eapply Forall_impl; [by apply Forall_drop|].
      apply added_hunk_sides.
  - apply Forall_app in Hvalid as [Hvi Hvalid].
    pose proof (proj2 (Forall_and _ ins) (conj Hins Hvi)) as Hi.
    apply Forall_app. split; [|by apply IH].
    apply Forall_fmap. eapply Forall_impl; [done|].
    apply added_hunk_sides.
Qed.

End Sides.

(** What the aligner hands to the consolidator. *)
Lemma myersDiff_edits (left right : list (list Z)) (ignoreWhitespace : bool) :
  2 * (Z.of_nat (length left) + Z.of_nat (length right)) < 2 ^ 31 →
  ∃ edits,
    parsed left right edits (myersDiff left right ignoreWhitespace)
    ∧ Forall (edit_valid (Z.of_nat (length left)) (Z.of_nat (length right)))
        edits
    ∧ li <$> filter (λ e, e_type e ≠ EInsert) edits
      = seqZ 0 (Z.of_nat (length left))
    ∧ ri <$> filter (λ e, e_type e ≠ EDelete) edits
      = seqZ 0 (Z.of_nat (length right)).
Proof.
  intros Hsize. unfold myersDiff. cbv zeta.
  set (a := (λ l, normalizeForCompare l ignoreWhitespace) <$> left).
  set (b := (λ l, normalizeForCompare l ignoreWhitespace) <$> right).
  assert (length a = length left) as Hla by apply length_fmap.
  assert (length b = length right) as Hlb by apply length_fmap.
  destruct (myers_edits_walk a b) as [Hw _]; [rewrite Hla, Hlb; lia|].
  exists (myers_edits a b). split; [apply consolidate_parsed|].
  rewrite <- Hla, <- Hlb. split.
  - by apply (walk_edits_valid _ _ _ _ _ _ _ Hw).
  - destruct (walk_indices _ _ _ _ _ _ _ Hw) as (Hl & Hr & _).
    rewrite Hl, Hr. by rewrite !Z.sub_0_r.
Qed.

(** C2. The hunks of [myersDiff] cover both inputs exactly. The lines
    shown on the left by the hunks that have a left side (equal, changed,
    removed), taken in order, are the left sequence, and the left indexes
    of these hunks are 0, 1, ... in order, each once; likewise on the
    right for the hunks that have a right side (equal, changed, added).
    This holds for either value of [ignoreWhitespace]. *)
Theorem C2_hunks_cover_both_sequences
    (left right : list (list Z)) (ignoreWhitespace : bool) :
  2 * (Z.of_nat (length left) + Z.of_nat (length right)) < 2 ^ 31 →
  let hunks := myersDiff left right ignoreWhitespace in
  concat (lLines <$> with_left hunks) = Some <$> left
  ∧ concat (rLines <$> with_right hunks) = Some <$> right
  ∧ lStart <$> with_left hunks = seqZ 0 (Z.of_nat (length left))
  ∧ rStart <$> with_right hunks = seqZ 0 (Z.of_nat (length right)).
Proof.
  intros Hsize hunks.
  destruct (myersDiff_edits left right ignoreWhitespace Hsize)
    as (edits & Hp & _ & Hl & Hr).
  destruct (parsed_left _ _ _ _ Hp) as [Hl1 Hl2].
  destruct (parsed_right _ _ _ _ Hp) as [Hr1 Hr2].
  fold hunks in Hl1, Hl2, Hr1, Hr2.
  rewrite Hl1, Hr1, Hl2, Hr2.
  rewrite (list_fmap_compose li (arr_get left)).
  rewrite (list_fmap_compose ri (arr_get right)).
  rewrite Hl, Hr. by rewrite !arr_get_seqZ.
Qed.

Lemma C2_witness :
  let left := [lit "a"; lit "b"; lit "c"] in
  let right := [lit "a"; lit "x"; lit "c"; lit "d"] in
  let hunks := myersDiff left right false in
  concat (lLines <$> with_left hunks) = Some <$> left
  ∧ concat (rLines <$> with_right hunks) = Some <$> right
  ∧ lStart <$> with_left hunks = seqZ 0 (Z.of_nat (length left))
  ∧ rStart <$> with_right hunks = seqZ 0 (Z.of_nat (length right)).
Proof.
  apply (C2_hunks_cover_both_sequences
           [lit "a"; lit "b"; lit "c"]
           [lit "a"; lit "x"; lit "c"; lit "d"] false).
  vm_compute. reflexivity.
Defined.

(** C9. Every hunk of [myersDiff] satisfies the side-presence invariant:
    an equal or changed hunk shows, on each side, the line found at its
    index of that side, which is a valid index; an added hunk shows the
    right line only and a removed hunk the left line only, the side
    without a line being the placeholder (index [-1], empty text). *)
Theorem C9_hunk_side_presence
    (left right : list (list Z)) (ignoreWhitespace : bool) :
  2 * (Z.of_nat (length left) + Z.of_nat (length right)) < 2 ^ 31 →
  Forall (hunk_sides left right) (myersDiff left right ignoreWhitespace).
Proof.
  intros Hsize.
  destruct (myersDiff_edits left right ignoreWhitespace Hsize)
    as (edits & Hp & Hv & _).
  by apply (parsed_sides _ _ _ _ Hp).
Qed.

Lemma C9_witness :
  Forall (hunk_sides [lit "a"; lit "b"] [lit "a"; lit "x"; lit "y"])
    (myersDiff [lit "a"; lit "b"] [lit "a"; lit "x"; lit "y"] true).
Proof.
  apply (C9_hunk_side_presence
           [lit "a"; lit "b"] [lit "a"; lit "x"; lit "y"] true).
  vm_compute. reflexivity.
Defined.

Lemma C3_witness :
  consolidate [lit "a"; lit "b"; lit "c"; lit "d"] [lit "a"; lit "x"; lit "d"]
    [ Edit EEqual 0 0; Edit EDelete 1 (-1); Edit EDelete 2 (-1);
      Edit EInsert (-1) 1; Edit EEqual 3 2 ]
  = [ Hunk Equal [Some (lit "a")] [Some (lit "a")] 0 0;
      Hunk Changed [Some (lit "b")] [Some (lit "x")] 1 1;
      Hunk Removed [Some (lit "c")] [Some []] 2 (-1);
      Hunk Equal [Some (lit "d")] [Some (lit "d")] 3 2 ].
Proof.
  destruct (C3_change_block_pairing
              [lit "a"; lit "b"; lit "c"; lit "d"]
              [lit "a"; lit "x"; lit "d"]
              [Edit EEqual 0 0] [Edit EDelete 1 (-1); Edit EDelete 2 (-1)]
              [Edit EInsert (-1) 1] [Edit EEqual 3 2]) as [Hblock _].
  - discriminate.
  - repeat constructor.
  - repeat constructor.
  - intros e [= <-]. discriminate.
  - intros e [= <-]. split; discriminate.
  - exact Hblock.
Defined.

(** ** Escaped text and safe markup *)

Lemma safe_app s1 s2 : safe_html s1 → safe_html s2 → safe_html (s1 ++ s2).
Proof.
  induction 1 as [|c s Hc Hs IH|e s He Hs IH|t s Ht Hs IH]; intros H2.
  - done.
  - simpl. constructor; auto.
  - rewrite <- app_assoc. apply safe_entity; auto.
  - rewrite <- app_assoc. apply safe_tag; auto.
Qed.

Lemma escaped_safe s : escaped s → safe_html s.
Proof. induction 1; [constructor|by constructor|by apply safe_entity]. Qed.

Lemma plain_safe s :
  Forall (λ c, is_markup_char c = false) s → safe_html s.
Proof. induction 1; by constructor. Qed.

Lemma ESC_cases c :
  (ESC c = None ∧ is_markup_char c = false)
  ∨ (∃ e, ESC c = Some e ∧ e ∈ entities).
Proof.
  unfold ESC, entities.
  repeat case_bool_decide;
    try (right; eexists; split; [done|]; rewrite !elem_of_cons; auto 10).
  left. split; [done|]. unfold is_markup_char.
  by rewrite !bool_decide_eq_false_2.
Qed.

Lemma escape_escaped v : escaped (escape v).
Proof.
  destruct v as [s|]; [|constructor]. unfold escape.
  induction s as [|c s IH]; [constructor|].
  change ((c :: s) ≫= (λ c, default [c] (ESC c)))
    with (default [c] (ESC c) ++ (s ≫= (λ c, default [c] (ESC c)))).
  destruct (ESC_cases c) as [[-> Hc]|(e & -> & He)]; simpl.
  - by apply escaped_char.
  - by apply escaped_entity.
Qed.

(** Escaped text holds none of [<], [>], the two quotes. *)
Lemma escaped_no_markup s :
  escaped s → Forall (λ c, c ≠ 60 ∧ c ≠ 62 ∧ c ≠ 34 ∧ c ≠ 39) s.
Proof.
  induction 1 as [|c s Hc Hs IH|e s He Hs IH].
  - constructor.
  - constructor; [|done]. unfold is_markup_char in Hc.
    rewrite !orb_false_iff, !bool_decide_eq_false in Hc. tauto.
  - apply Forall_app. split; [|done].
    unfold entities in He. rewrite !elem_of_cons in He.
    destruct He as [->|[->|[->|[->|[->|He]]]]];
      [| | | | |by apply elem_of_nil in He];
      vm_compute; repeat constructor; discriminate.
Qed.

Lemma strip_prefix_Some p s rest :
  strip_prefix p s = Some rest → s = p ++ rest.
Proof.
  revert s. induction p as [|c p IH]; intros s; simpl.
  - by intros [= ->].
  - destruct s as [|c' s]; [done|]. case_bool_decide; [|done].
    intros Hs. subst c'. by rewrite (IH _ Hs).
Qed.

Lemma strip_any_Some ps s rest :
  strip_any ps s = Some rest → ∃ p, p ∈ ps ∧ s = p ++ rest.
Proof.
  induction ps as [|p ps IH]; simpl; [done|].
  destruct (strip_prefix p s) as [r|] eqn:Hp.
  - intros [= ->]. exists p. split; [left|by apply strip_prefix_Some].
  - intros Hs. destruct (IH Hs) as (q & Hq & ->).
    exists q. split; [by right|done].
Qed.

Lemma check_html_sound fuel s :
  check_html fuel s = true → safe_html s.
Proof.
  revert s. induction fuel as [|fuel IH]; intros s Hs; [done|].
  cbn [check_html] in Hs. destruct s as [|c s]; [constructor|].
  destruct (is_markup_char c) eqn:Hc; cbn [negb] in Hs.
  - destruct (strip_any entities (c :: s)) as [rest|] eqn:He.
    + apply strip_any_Some in He as (e & He & ->).
      apply safe_entity; auto.
    + destruct (strip_any tags (c :: s)) as [rest|] eqn:Ht; [|done].
      apply strip_any_Some in Ht as (t & Ht & ->).
      apply safe_tag; auto.
  - constructor; auto.
Qed.

Lemma template_safe_from t cur :
  forallb (λ s, check_html (S (length s)) s) (literal_groups t cur) = true →
  Forall (λ p, p.1 = true → safe_html p.2) t →
  safe_html (cur ++ fill t).
Proof.
  revert cur. induction t as [|[[] s] t IH]; intros cur Hc Ht;
    cbn [fill literal_groups forallb] in *.
  - rewrite app_nil_r. apply andb_true_iff in Hc as [Hc _].
    by apply check_html_sound in Hc.
  - apply andb_true_iff in Hc as [Hc Hrest].
    apply Forall_cons in Ht as [Hs Ht].
    apply safe_app; [by apply check_html_sound in Hc|].
    apply safe_app; [by apply Hs|]. by apply (IH []).
  - apply Forall_cons in Ht as [_ Ht].
    rewrite app_assoc. by apply IH.
Qed.

Lemma template_safe t :
  check_template t = true →
  Forall (λ p, p.1 = true → safe_html p.2) t →
  safe_html (fill t).
Proof. intros Hc Ht. by apply (template_safe_from t []). Qed.

(** Reading a concatenation as a template: the variables are the
    substitutions, everything else is literal text. *)
Ltac hole_flag x :=
  match x with
  | _ => let _ := match goal with _ => is_var x end in constr:(true)
  | _ => constr:(false)
  end.

Ltac reify_template s :=
  lazymatch s with
  | ?x ++ ?r =>
      let t := reify_template r in
      let flag := hole_flag x in
      constr:((flag, x) :: t)
  | ?x => let flag := hole_flag x in constr:([(flag, x)])
  end.

Ltac safe_template :=
  lazymatch goal with
  | |- safe_html ?s =>
      let t := reify_template s in
      change (safe_html (fill t));
      apply template_safe;
      [ vm_compute; reflexivity
      | repeat (apply List.Forall_cons;
                [ cbn [fst snd]; intros Hhole;
                  first [discriminate Hhole | assumption] | ]);
        apply List.Forall_nil ]
  end.

Lemma span_added_safe inner : safe_html inner → safe_html (span_added inner).
Proof. intros H. unfold span_added. safe_template. Qed.

Lemma span_removed_safe inner :
  safe_html inner → safe_html (span_removed inner).
Proof. intros H. unfold span_removed. safe_template. Qed.

Lemma marked_safe wrap toks html :
  (∀ inner, safe_html inner → safe_html (wrap inner)) →
  marked wrap toks html → safe_html html.
Proof.
  intros Hwrap (marks & _ & ->). revert toks.
  induction marks as [|mk marks IH]; intros toks; [apply safe_nil|].
  destruct toks as [|t toks]; [apply safe_nil|].
  cbn [zip_with concat]. apply safe_app; [|apply IH].
  pose proof (escaped_safe _ (escape_escaped (Some t))) as He.
  destruct mk; [by apply Hwrap|done].
Qed.

(** The digits of a number carry no markup. *)
Lemma pretty_N_go_plain x s :
  Forall (λ c, is_markup_char c = false) (lit s) →
  Forall (λ c, is_markup_char c = false) (lit (pretty_N_go x s)).
Proof.
  revert s. induction (N.lt_wf_0 x) as [x _ IH]; intros s Hs.
  destruct (decide (x = 0)%N) as [->|Hx]; [by rewrite pretty_N_go_0|].
  rewrite pretty_N_go_step by lia. apply IH; [apply N.div_lt; lia|].
  unfold lit in *. simpl. constructor; [|done].
  unfold pretty_N_char. by repeat case_match.
Qed.

Lemma num_safe z : safe_html (num z).
Proof.
  apply plain_safe. unfold num, pretty, pretty_Z.
  destruct z as [|p|p].
  - by repeat constructor.
  - unfold pretty, pretty_positive, pretty, pretty_N.
    case_decide; [by repeat constructor|].
    apply pretty_N_go_plain. constructor.
  - unfold pretty, pretty_positive, pretty, pretty_N.
    case_decide; [by repeat constructor|].
    unfold lit. simpl. constructor; [done|].
    apply pretty_N_go_plain. constructor.
Qed.

Lemma gutter_safe number : safe_html (gutter number).
Proof. destruct number; [apply num_safe|constructor]. Qed.

Lemma separator_row_safe (colspan : string) skipped :
  colspan = "6"%string ∨ colspan = "3"%string →
  safe_html (separator_row colspan skipped).
Proof.
  intros Hc. unfold separator_row.
  pose proof (num_safe skipped) as Hn. revert Hn.
  generalize (num skipped). intros digits Hn.
  destruct Hc as [-> | ->]; case_bool_decide; safe_template.
Qed.

Lemma side_row_safe t lNum lCode rNum rCode :
  safe_html lNum → safe_html lCode → safe_html rNum → safe_html rCode →
  safe_html (side_row (typeToRowClass t) lNum lCode rNum rCode).
Proof.
  intros H1 H2 H3 H4. unfold side_row. destruct t; safe_template.
Qed.

Lemma inline_row_safe (class : string) col1 col2 code :
  class = "inline-equal"%string ∨ class = "inline-removed"%string
  ∨ class = "inline-added"%string →
  safe_html col1 → safe_html col2 → safe_html code →
  safe_html (inline_row class col1 col2 code).
Proof.
  intros Hc H1 H2 H3. unfold inline_row.
  destruct Hc as [-> |[-> | ->]]; safe_template.
Qed.

Lemma no_differences_safe : safe_html no_differences.
Proof. apply (check_html_sound 400). vm_compute. reflexivity. Qed.

Lemma wordDiff_safe lineA lineB :
  safe_html (wordDiff lineA lineB).1 ∧ safe_html (wordDiff lineA lineB).2.
Proof.
  destruct (wordDiff_marked lineA lineB) as [HL HR]. split.
  - eapply marked_safe; [apply span_removed_safe|done].
  - eapply marked_safe; [apply span_added_safe|done].
Qed.

Lemma wordDiff_values_safe lineA lineB lHtml rHtml :
  wordDiff_values lineA lineB = Some (lHtml, rHtml) →
  safe_html lHtml ∧ safe_html rHtml.
Proof.
  destruct lineA as [la|], lineB as [lb|]; simpl; try done.
  intros Hw. assert (wordDiff la lb = (lHtml, rHtml)) as Heq by congruence.
  pose proof (wordDiff_safe la lb) as Hs. by rewrite Heq in Hs.
Qed.

Lemma side_cells_safe h lHtml rHtml :
  side_cells h = Some (lHtml, rHtml) → safe_html lHtml ∧ safe_html rHtml.
Proof.
  unfold side_cells. case_bool_decide.
  - apply wordDiff_values_safe.
  - intros [= <- <-]. split; apply escaped_safe, escape_escaped.
Qed.

Lemma side_loop_safe rows html skippedStart html' skippedStart' :
  safe_html html →
  side_loop rows html skippedStart = Some (html', skippedStart') →
  safe_html html'.
Proof.
  revert html skippedStart.
  induction rows as [|[i [h [nums visible]]] rows IH];
    intros html skippedStart Hhtml Hloop; cbn [side_loop] in Hloop.
  - by injection Hloop as <- _.
  - destruct (bool_decide (visible = 0)); [by eapply IH|].
    destruct (side_cells h) as [[lHtml rHtml]|] eqn:Hcells; [|done].
    destruct (side_cells_safe _ _ _ Hcells) as [Hl Hr].
    eapply IH; [|exact Hloop]. clear Hloop. apply safe_app.
    + case_bool_decide; [|done].
      apply safe_app; [done|]. apply separator_row_safe. by left.
    + apply side_row_safe;
        [ apply gutter_safe | case_bool_decide; [done|apply safe_nil]
        | apply gutter_safe | case_bool_decide; [done|apply safe_nil] ].
Qed.

Lemma renderSideBySide_safe hunks html :
  renderSideBySide hunks = Some html → safe_html html.
Proof.
  unfold renderSideBySide. destruct (negb (hasChanges hunks)).
  { intros [= <-]. apply no_differences_safe. }
  destruct (side_loop _ _ _) as [[html1 skippedStart]|] eqn:Hloop; [|done].
  intros [= <-]. apply side_loop_safe in Hloop.
  - apply safe_app; [|apply (check_html_sound 100); vm_compute; reflexivity].
    case_bool_decide; [|done].
    apply safe_app; [done|]. apply separator_row_safe. by left.
  - apply (check_html_sound 400). vm_compute. reflexivity.
Qed.

Lemma inline_loop_safe rows st st' :
  safe_html (i_html st) →
  inline_loop rows st = Some st' →
  safe_html (i_html st').
Proof.
  revert st.
  induction rows as [|[i [h visible]] rows IH]; intros st Hhtml Hloop;
    cbn [inline_loop] in Hloop.
  - by injection Hloop as <-.
  - destruct (bool_decide (visible = 0));
      [eapply IH; [|exact Hloop]; exact Hhtml|].
    cbv zeta in Hloop.
    assert (safe_html
              (if bool_decide (i_skippedStart st ≠ -1)
               then i_html st ++ separator_row "3" (i - i_skippedStart st)
               else i_html st)) as H1.
    { case_bool_decide; [|done].
      apply safe_app; [done|]. apply separator_row_safe. by right. }
    destruct (type h).
    + eapply IH; [|exact Hloop]. clear Hloop. cbn [i_html]. apply safe_app; [done|].
      apply inline_row_safe; [by left|apply num_safe| |].
      * by apply plain_safe; repeat constructor.
      * apply escaped_safe, escape_escaped.
    + destruct (wordDiff_values _ _) as [[l r]|] eqn:Hw; [|done].
      destruct (wordDiff_values_safe _ _ _ _ Hw) as [Hl Hr].
      eapply IH; [|exact Hloop]. clear Hloop. cbn [i_html]. apply safe_app; [done|].
      apply safe_app; [|apply safe_app].
      * apply inline_row_safe; [by right; left|apply num_safe| |done].
        by apply plain_safe; repeat constructor.
      * by apply plain_safe; repeat constructor.
      * apply inline_row_safe; [by right; right| |apply num_safe|done].
        by apply plain_safe; repeat constructor.
    + eapply IH; [|exact Hloop]. clear Hloop. cbn [i_html]. apply safe_app; [done|].
      apply inline_row_safe; [by right; left|apply num_safe| |].
      * by apply plain_safe; repeat constructor.
      * apply escaped_safe, escape_escaped.
    + eapply IH; [|exact Hloop]. clear Hloop. cbn [i_html]. apply safe_app; [done|].
      apply inline_row_safe; [by right; right| |apply num_safe|].
      * by apply plain_safe; repeat constructor.
      * apply escaped_safe, escape_escaped.
Qed.

Lemma renderInline_safe hunks html :
  renderInline hunks = Some html → safe_html html.
Proof.
  unfold renderInline. destruct (negb (hasChanges hunks)).
  { intros [= <-]. apply no_differences_safe. }
  destruct (inline_loop _ _) as [st|] eqn:Hloop; [|done].
  intros [= <-]. apply inline_loop_safe in Hloop.
  - apply safe_app; [|apply (check_html_sound 100); vm_compute; reflexivity].
    case_bool_decide; [|done].
    apply safe_app; [done|]. apply separator_row_safe. by right.
  - apply (check_html_sound 400). vm_compute. reflexivity.
Qed.

(** ** The renderers return *)

Lemma mark_visible_length hunks : length (mark_visible hunks) = length hunks.
Proof.
  unfold mark_visible.
  generalize (zip (seqZ 0 (Z.of_nat (length hunks))) hunks).
  generalize (Z.of_nat (length hunks)). intros len rows.
  assert (∀ visible : list Z,
            length (foldl (λ visible '(i, h),
                      if bool_decide (type h ≠ Equal) then
                        foldl (λ visible j, <[Z.to_nat j := 1]> visible)
                          visible
                          (seqZ (0 `max` (i - CONTEXT_LINES))
                             (len `min` (i + CONTEXT_LINES + 1)
                              - 0 `max` (i - CONTEXT_LINES)))
                      else visible) visible rows)
            = length visible) as Hfold.
  { induction rows as [|[i h] rows IH]; intros visible; [done|].
    cbn [foldl]. rewrite IH. case_bool_decide; [|done].
    generalize (seqZ (0 `max` (i - CONTEXT_LINES))
                  (len `min` (i + CONTEXT_LINES + 1)
                   - 0 `max` (i - CONTEXT_LINES))).
    intros js. revert visible.
    induction js as [|j js IHj]; intros visible; [done|].
    cbn [foldl]. by rewrite IHj, length_insert. }
  by rewrite Hfold, length_replicate.
Qed.

Lemma line_numbers_length hunks l r :
  length (line_numbers hunks l r) = length hunks.
Proof.
  revert l r. induction hunks as [|h hunks IH]; intros l r; [done|].
  simpl. by rewrite IH.
Qed.

(** The row loops visit every hunk. *)
Lemma indexed_rows_length hunks :
  length (indexed_rows hunks) = length hunks.
Proof.
  unfold indexed_rows.
  rewrite !length_zip, length_seqZ, line_numbers_length, mark_visible_length.
  lia.
Qed.

Lemma hunk_sides_lines_present left right h :
  hunk_sides left right h → lines_present h.
Proof.
  unfold hunk_sides, lines_present. intros Hs Ht. rewrite Ht in Hs.
  destruct Hs as [(_ & l & _ & ->) (_ & r & _ & ->)]. split; by eexists.
Qed.

Lemma wordDiff_values_present h :
  lines_present h → type h = Changed →
  is_Some (wordDiff_values (first_line (lLines h)) (first_line (rLines h))).
Proof.
  intros Hp Ht. destruct (Hp Ht) as [[l ->] [r ->]]. by eexists.
Qed.

Lemma side_loop_total rows html skippedStart :
  Forall (λ row, lines_present row.2.1) rows →
  is_Some (side_loop rows html skippedStart).
Proof.
  intros Hrows. revert html skippedStart.
  induction Hrows as [|[i [h [nums visible]]] rows Hh _ IH];
    intros html skippedStart; cbn [side_loop]; [by eexists|].
  destruct (bool_decide (visible = 0)); [apply IH|].
  unfold side_cells. case_bool_decide as Ht; [|apply IH].
  destruct (wordDiff_values_present h Hh Ht) as [[l r] ->]. apply IH.
Qed.

Lemma inline_loop_total rows st :
  Forall (λ row, lines_present row.2.1) rows →
  is_Some (inline_loop rows st).
Proof.
  intros Hrows. revert st.
  induction Hrows as [|[i [h visible]] rows Hh _ IH];
    intros st; cbn [inline_loop]; [by eexists|].
  destruct (bool_decide (visible = 0)); [apply IH|]. cbv zeta.
  destruct (type h) eqn:Ht; try apply IH.
  destruct (wordDiff_values_present h Hh Ht) as [[l r] ->]. apply IH.
Qed.

Lemma Forall_zip_hunks {A B} (P : hunk → Prop) (idx : list A)
    (hunks : list hunk) (xs : list B) :
  Forall P hunks →
  Forall (λ row : A * (hunk * B), P row.2.1) (zip idx (zip hunks xs)).
Proof.
  intros Hh. revert idx xs.
  induction Hh as [|h hunks Hh _ IH]; intros [|i idx] [|x xs]; simpl;
    try constructor; auto.
Qed.

Lemma renderers_total hunks :
  Forall lines_present hunks →
  is_Some (renderSideBySide hunks) ∧ is_Some (renderInline hunks).
Proof.
  intros Hh. split.
  - unfold renderSideBySide. destruct (negb (hasChanges hunks)); [by eexists|].
    destruct (side_loop_total (indexed_rows hunks)
                (lit "<table class=" ++ quoted "diff-table" ++ lit " role="
                 ++ quoted "table"
                 ++ lit "><colgroup><col/><col/><col/><col/><col/><col/></colgroup><tbody>")
                (-1)) as [[html sk] ->]; [|by eexists].
    by apply Forall_zip_hunks.
  - unfold renderInline. destruct (negb (hasChanges hunks)); [by eexists|].
    destruct (inline_loop_total
                (zip (seqZ 0 (Z.of_nat (length hunks)))
                   (zip hunks (mark_visible hunks)))
                (InlineState
                   (lit "<table class=" ++ quoted "inline-table"
                    ++ lit " role=" ++ quoted "table"
                    ++ lit "><colgroup><col/><col/><col/></colgroup><tbody>")
                   (-1) 1 1)) as [st ->]; [|by eexists].
    by apply Forall_zip_hunks.
Qed.


(** ** The entry point *)

(** Two empty texts are one empty line each, not two empty sequences. *)
Lemma C4_counterexample :
  result_hunks
    (run unit (λ _, inl []) (λ _, inr []) [] [] (Options false false []))
  ≠ Some [].
Proof. vm_compute. discriminate. Qed.

(** C4, as the engine has it. The aligner applied to two empty line
    sequences gives no edit and [myersDiff] no hunk. [run] on two empty
    texts, without JSON mode, does not reach that case: each text splits
    into one empty line, and the result is a success whose hunks are the
    single equal hunk pairing these two lines, with all-zero statistics
    and the no-differences placeholder as markup. *)
Theorem C4_empty_inputs
    (json : Type) (JSON_parse : list Z → list Z + json)
    (JSON_stringify : json → list Z + list Z)
    (whitespace : bool) (view : list Z) :
  myers_edits ([] : list (list Z)) [] = []
  ∧ myersDiff [] [] whitespace = []
  ∧ run json JSON_parse JSON_stringify [] [] (Options whitespace false view)
    = Some (RunOk no_differences (Stats 0 0 0) (lit "  " ++ [10])
              [Hunk Equal [Some []] [Some []] 0 0]).
Proof.
  split; [done|]. split; [by destruct whitespace|].
  unfold run, run_lines. cbn [jsonMode ignoreWhitespace viewMode].
  assert (myersDiff (splitLines []) (splitLines []) whitespace
          = [Hunk Equal [Some []] [Some []] 0 0]) as ->.
  { destruct whitespace; vm_compute; reflexivity. }
  case_bool_decide; vm_compute; reflexivity.
Qed.




(** Within the size bound no exception escapes a renderer: [run] returns
    a result. *)
Lemma run_lines_returns (left right : list Z) (opts : options) :
  2 * (Z.of_nat (length (splitLines left))
       + Z.of_nat (length (splitLines right))) < 2 ^ 31 →
  is_Some (run_lines left right opts).
Proof.
  intros Hsize. unfold run_lines. cbv zeta.
  destruct (myersDiff_edits (splitLines left) (splitLines right)
              (ignoreWhitespace opts) Hsize) as (edits & Hp & Hv & _).
  pose proof (parsed_sides _ _ _ _ Hp Hv) as Hsides.
  destruct (renderers_total
              (myersDiff (splitLines left) (splitLines right)
                 (ignoreWhitespace opts))) as [[h1 H1] [h2 H2]].
  { eapply Forall_impl; [done|]. apply hunk_sides_lines_present. }
  case_bool_decide; [rewrite H1|rewrite H2]; by eexists.
Qed.

(** The markup of a result is that of one of the two renderers. *)
Lemma run_html_safe (json : Type) (JSON_parse : list Z → list Z + json)
    (JSON_stringify : json → list Z + list Z) (leftText rightText : list Z)
    (opts : options) html st plainText hunks :
  run json JSON_parse JSON_stringify leftText rightText opts
  = Some (RunOk html st plainText hunks) →
  safe_html html.
Proof.
  assert (∀ l r, run_lines l r opts = Some (RunOk html st plainText hunks) →
                 safe_html html) as Hlines.
  { intros l r. unfold run_lines. cbv zeta.
    destruct (if bool_decide (viewMode opts = lit "sidebyside")
              then renderSideBySide _ else renderInline _)
      as [h|] eqn:Hr; [|done].
    intros [= <- _ _ _]. revert Hr.
    case_bool_decide; [apply renderSideBySide_safe|apply renderInline_safe]. }
  unfold run. destruct (jsonMode opts); [|apply Hlines].
  destruct (normalizeJSON _ _ _ leftText); [done|].
  destruct (normalizeJSON _ _ _ rightText); [done|]. apply Hlines.
Qed.

(** C6. Raw text reaches the rendered markup through [escape] only.
    - The escaped form of a string is made of characters that carry no
      markup and of the five entities: it holds none of [<], [>] and the
      two quotes, and no [&] but the one that opens an entity.
    - [wordDiff] shows every token of each line once, in order and
      escaped; a token marked as removed or added is the escaped token
      inside its [span] marker.
    - The two cells of a side-by-side row are the outputs of [wordDiff]
      for a changed hunk and the escaped lines otherwise.
    - Hence what [renderSideBySide] and [renderInline] return, and with
      them the [html] of every result of [run], consists of the tags of
      the engine with such escaped text between them; and the renderers
      do return on hunks that satisfy the side-presence invariant. *)
Theorem C6_rendered_text_is_escaped :
  (∀ text,
     escaped (escape (Some text))
     ∧ Forall (λ c, c ≠ 60 ∧ c ≠ 62 ∧ c ≠ 34 ∧ c ≠ 39) (escape (Some text)))
  ∧ (∀ lineA lineB,
       marked span_removed (tokenizeWords lineA) (wordDiff lineA lineB).1
       ∧ marked span_added (tokenizeWords lineB) (wordDiff lineA lineB).2)
  ∧ (∀ h lHtml rHtml,
       side_cells h = Some (lHtml, rHtml) →
       if bool_decide (type h = Changed)
       then ∃ la lb,
              first_line (lLines h) = Some la
              ∧ first_line (rLines h) = Some lb
              ∧ wordDiff la lb = (lHtml, rHtml)
       else lHtml = escape (first_line (lLines h))
            ∧ rHtml = escape (first_line (rLines h)))
  ∧ (∀ hunks html, renderSideBySide hunks = Some html → safe_html html)
  ∧ (∀ hunks html, renderInline hunks = Some html → safe_html html)
  ∧ (∀ json JSON_parse JSON_stringify leftText rightText opts
       html st plainText hunks,
       run json JSON_parse JSON_stringify leftText rightText opts
       = Some (RunOk html st plainText hunks) →
       safe_html html)
  ∧ (∀ left right hunks,
       Forall (hunk_sides left right) hunks →
       is_Some (renderSideBySide hunks) ∧ is_Some (renderInline hunks)).
Proof.
  split; [|split; [|split; [|split; [|split; [|split]]]]].
  - intros text. pose proof (escape_escaped (Some text)) as He.
    split; [done|by apply escaped_no_markup].
  - apply wordDiff_marked.
  - intros h lHtml rHtml. unfold side_cells. case_bool_decide.
    + destruct (first_line (lLines h)) as [la|]; [|done].
      destruct (first_line (rLines h)) as [lb|]; [|done].
      simpl. intros Hw. exists la, lb. split; [done|]. split; [done|].
      congruence.
    + intros Hc. split; congruence.
  - apply renderSideBySide_safe.
  - apply renderInline_safe.
  - apply run_html_safe.
  - intros left right hunks Hh. apply renderers_total.
    eapply Forall_impl; [done|]. apply hunk_sides_lines_present.
Qed.

Lemma C6_witness :
  safe_html
    (default []
       (renderSideBySide (myersDiff [lit "<b>me & you</b>"]
                            [lit "<i>you</i>"] false))).
Proof.
  destruct C6_rendered_text_is_escaped as (_ & _ & _ & Hside & _).
  destruct (renderSideBySide _) as [html|] eqn:Hr.
  - exact (Hside _ html Hr).
  - vm_compute in Hr. discriminate Hr.
Defined.

(** ** The scenarios of the design *)

Example scenario_A :
  myersDiff [lit "a"; lit "b"; lit "c"] [lit "a"; lit "x"; lit "c"] false
  = [ Hunk Equal [Some (lit "a")] [Some (lit "a")] 0 0;
      Hunk Changed [Some (lit "b")] [Some (lit "x")] 1 1;
      Hunk Equal [Some (lit "c")] [Some (lit "c")] 2 2 ]
  ∧ computeStats
      (myersDiff [lit "a"; lit "b"; lit "c"] [lit "a"; lit "x"; lit "c"] false)
    = Stats 0 0 1.
Proof. split; vm_compute; reflexivity. Qed.

Example scenario_B :
  myersDiff [lit "a"; lit "b"] [lit "a"; lit "b"; lit "c"] false
  = [ Hunk Equal [Some (lit "a")] [Some (lit "a")] 0 0;
      Hunk Equal [Some (lit "b")] [Some (lit "b")] 1 1;
      Hunk Added [Some []] [Some (lit "c")] (-1) 2 ]
  ∧ computeStats
      (myersDiff [lit "a"; lit "b"] [lit "a"; lit "b"; lit "c"] false)
    = Stats 1 0 0.
Proof. split; vm_compute; reflexivity. Qed.

Example scenario_C :
  myersDiff [lit "  x  "] [lit "x"] true
  = [ Hunk Equal [Some (lit "  x  ")] [Some (lit "x")] 0 0 ].
Proof. vm_compute. reflexivity. Qed.

Example tokens_of_a_line :
  tokenizeWords (lit "let x_1 =  f(y);")
  = [ lit "let"; lit " "; lit "x_1"; lit " "; lit "="; lit "  "; lit "f";
      lit "("; lit "y"; lit ")"; lit ";" ].
Proof. vm_compute. reflexivity. Qed.

Example escape_of_markup :
  escape (Some (lit "<a href='x'>&</a>"))
  = lit "&lt;a href=&#39;x&#39;&gt;&amp;&lt;/a&gt;".
Proof. vm_compute. reflexivity. Qed.
(** * Further properties of the engine *)

(** ** Escaping *)

Lemma escape_cons c s :
  escape (Some (c :: s)) = default [c] (ESC c) ++ escape (Some s).
Proof. done. Qed.

Lemma escape_app s t :
  escape (Some (s ++ t)) = escape (Some s) ++ escape (Some t).
Proof. unfold escape. apply bind_app. Qed.

(** What [escape] writes for one character. *)
Lemma escape_char_cases c :
  (is_markup_char c = false ∧ default [c] (ESC c) = [c])
  ∨ (c = 38 ∧ default [c] (ESC c) = [38; 97; 109; 112; 59])
  ∨ (c = 60 ∧ default [c] (ESC c) = [38; 108; 116; 59])
  ∨ (c = 62 ∧ default [c] (ESC c) = [38; 103; 116; 59])
  ∨ (c = 34 ∧ default [c] (ESC c) = [38; 113; 117; 111; 116; 59])
  ∨ (c = 39 ∧ default [c] (ESC c) = [38; 35; 51; 57; 59]).
Proof.
  unfold ESC. repeat case_bool_decide; subst; auto 10.
  left. split; [|done]. unfold is_markup_char.
  by rewrite !bool_decide_eq_false_2.
Qed.

Lemma plain_not_amp c : is_markup_char c = false → c ≠ 38.
Proof.
  unfold is_markup_char. rewrite !orb_false_iff, !bool_decide_eq_false.
  tauto.
Qed.

(** X1. [escape] loses no information: two strings have the same
    escaped form only if they are the same string. *)
Theorem escape_injective (s t : list Z) :
  escape (Some s) = escape (Some t) ↔ s = t.
Proof.
  split; [|by intros ->]. revert t.
  induction s as [|c s IH]; intros [|d t].
  - done.
  - rewrite escape_cons.
    destruct (escape_char_cases d)
      as [[_ ->]|[[_ ->]|[[_ ->]|[[_ ->]|[[_ ->]|[_ ->]]]]]]; discriminate.
  - rewrite escape_cons.
    destruct (escape_char_cases c)
      as [[_ ->]|[[_ ->]|[[_ ->]|[[_ ->]|[[_ ->]|[_ ->]]]]]]; discriminate.
  - rewrite !escape_cons.
    destruct (escape_char_cases c)
      as [[Hc ->]|[[-> ->]|[[-> ->]|[[-> ->]|[[-> ->]|[-> ->]]]]]];
    destruct (escape_char_cases d)
      as [[Hd ->]|[[-> ->]|[[-> ->]|[[-> ->]|[[-> ->]|[-> ->]]]]]];
    simpl; intros Heq;
    try apply plain_not_amp in Hc; try apply plain_not_amp in Hd;
    first [ discriminate Heq
          | injection Heq; intros; subst;
            first [ congruence | f_equal; by apply IH ] ].
Qed.

Lemma escape_length s : (length s ≤ length (escape (Some s)))%nat.
Proof.
  induction s as [|c s IH]; [done|]. rewrite escape_cons, length_app.
  destruct (escape_char_cases c)
    as [[_ ->]|[[_ ->]|[[_ ->]|[[_ ->]|[[_ ->]|[_ ->]]]]]];
    cbn [length]; lia.
Qed.

(** X2. [escape] works character by character: the escaped form of a
    concatenation is the concatenation of the escaped forms, it is never
    shorter than the string, and it is the string itself exactly when
    the string holds none of the five characters [&], [<], [>] and the
    two quotes. *)
Theorem escape_characterwise (s t : list Z) :
  escape (Some (s ++ t)) = escape (Some s) ++ escape (Some t)
  ∧ (length s ≤ length (escape (Some s)))%nat
  ∧ (escape (Some s) = s ↔ Forall (λ c, is_markup_char c = false) s).
Proof.
  split; [apply escape_app|]. split; [apply escape_length|]. split.
  - induction s as [|c s IH]; [constructor|]. rewrite escape_cons.
    pose proof (escape_length s) as Hlen.
    destruct (escape_char_cases c)
      as [[Hc ->]|[[-> ->]|[[-> ->]|[[-> ->]|[[-> ->]|[-> ->]]]]]];
      intros Heq;
      try (apply (f_equal length) in Heq; rewrite length_app in Heq;
           cbn [length] in Heq; lia).
    cbn [app] in Heq. injection Heq as Heq. constructor; auto.
  - induction 1 as [|c s Hc Hs IH]; [done|]. rewrite escape_cons.
    destruct (escape_char_cases c)
      as [[_ ->]|[[-> _]|[[-> _]|[[-> _]|[[-> _]|[-> _]]]]]];
      try discriminate Hc.
    cbn [app]. by rewrite IH.
Qed.

(** ** Lines *)

Lemma lf_only_cons c text : c ≠ 13 → lf_only (c :: text) = c :: lf_only text.
Proof.
  intros Hc. destruct text as [|c' text]; [done|]. cbn [lf_only].
  by rewrite (bool_decide_eq_false_2 (c = 13)).
Qed.

Lemma lf_only_cr c text :
  c ≠ 10 → lf_only (13 :: c :: text) = 13 :: lf_only (c :: text).
Proof.
  intros Hc. cbn [lf_only]. rewrite (bool_decide_eq_false_2 (c = 10)) by done.
  by rewrite andb_false_r.
Qed.

Lemma lf_only_crlf text : lf_only (13 :: 10 :: text) = 10 :: lf_only text.
Proof.
  change (lf_only (13 :: 10 :: text)) with (lf_only (10 :: text)).
  by apply lf_only_cons.
Qed.

Lemma no_lf_nil : no_lf [].
Proof. unfold no_lf. apply not_elem_of_nil. Qed.

Lemma no_lf_snoc cur c : no_lf cur → c ≠ 10 → no_lf (cur ++ [c]).
Proof.
  unfold no_lf. rewrite elem_of_app, list_elem_of_singleton.
  intros ? ? [?|?]; [done|congruence].
Qed.

Lemma split_from_spec (len : nat) text cur :
  (length text ≤ len)%nat →
  no_lf cur →
  Forall no_lf (split_from cur text)
  ∧ length (split_from cur text)
    = S (length (filter (λ c, c = 10) text))
  ∧ join_lines (Some <$> split_from cur text) = cur ++ lf_only text.
Proof.
  revert text cur. induction len as [|len IH]; intros text cur Hlen Hcur.
  { destruct text; [|simpl in Hlen; lia]. simpl.
    rewrite app_nil_r. by repeat constructor. }
  assert (∀ t, (length t ≤ len)%nat →
            Forall no_lf (cur :: split_from [] t)
            ∧ length (cur :: split_from [] t)
              = S (S (length (filter (λ c, c = 10) t)))
            ∧ join_lines (Some <$> cur :: split_from [] t)
              = cur ++ 10 :: lf_only t) as Hline.
  { intros t Ht. destruct (IH t [] Ht no_lf_nil) as (Hf & Hl & Hj).
    split; [by constructor|]. split; [cbn [length]; by rewrite Hl|].
    rewrite fmap_cons. cbn [join_lines].
    destruct (Some <$> split_from [] t) eqn:Hs.
    { apply (f_equal length) in Hs. rewrite length_fmap, Hl in Hs.
      discriminate Hs. }
    by rewrite Hj. }
  destruct text as [|c text];
    [simpl; rewrite app_nil_r; by repeat constructor|].
  simpl in Hlen. cbn [split_from]. case_bool_decide as Hc10.
  { subst c. rewrite filter_cons_True by done.
    rewrite lf_only_cons by done. apply Hline. lia. }
  rewrite filter_cons_False by done.
  case_bool_decide as Hc13.
  - subst c. destruct text as [|c' text'].
    { simpl. split; [|done]. repeat constructor. by apply no_lf_snoc. }
    simpl in Hlen. case_bool_decide as Hc'.
    + subst c'. rewrite filter_cons_True by done.
      rewrite lf_only_crlf. apply Hline. lia.
    + rewrite lf_only_cr by done.
      destruct (IH (c' :: text') (cur ++ [13])) as (Hf & Hl & Hj);
        [simpl; lia|by apply no_lf_snoc|].
      by rewrite Hj, <- app_assoc.
  - rewrite lf_only_cons by done.
    destruct (IH text (cur ++ [c])) as (Hf & Hl & Hj);
      [lia|by apply no_lf_snoc|].
    by rewrite Hj, <- app_assoc.
Qed.

(** X3. [splitLines] never returns an empty array, no line it returns
    holds a line feed, and it returns one line more than the text has
    line feeds. *)
Theorem splitLines_lines (text : list Z) :
  splitLines text ≠ []
  ∧ Forall no_lf (splitLines text)
  ∧ length (splitLines text) = S (length (filter (λ c, c = 10) text)).
Proof.
  destruct (split_from_spec (length text) text [] (le_n _) no_lf_nil)
    as (Hf & Hl & _).
  split; [|done]. intros Hnil. unfold splitLines in Hnil.
  by rewrite Hnil in Hl.
Qed.

(** X4. Joining the lines of a text with line feeds gives the text back
    with every CR LF pair written LF; a text without carriage return is
    given back unchanged. *)
Theorem join_splitLines (text : list Z) :
  join_lines (Some <$> splitLines text) = lf_only text
  ∧ (13 ∉ text → join_lines (Some <$> splitLines text) = text).
Proof.
  destruct (split_from_spec (length text) text [] (le_n _) no_lf_nil)
    as (_ & _ & Hj).
  split; [done|]. intros Hcr. unfold splitLines. rewrite Hj. simpl.
  clear Hj. induction text as [|c text IH]; [done|].
  apply not_elem_of_cons in Hcr as [Hc Hcr].
  rewrite lf_only_cons by done. by rewrite IH.
Qed.

Lemma no_lf_cons c line : no_lf (c :: line) ↔ c ≠ 10 ∧ no_lf line.
Proof.
  unfold no_lf. rewrite not_elem_of_cons.
  split; intros [? ?]; split; congruence.
Qed.

Lemma no_cr_end_cons c c' line :
  no_cr_end (c :: c' :: line) ↔ no_cr_end (c' :: line).
Proof. done. Qed.

(** Reading a last line. *)
Lemma split_from_last line cur :
  no_lf line → split_from cur line = [cur ++ line].
Proof.
  revert cur. induction line as [|c line IH]; intros cur Hline.
  { simpl. by rewrite app_nil_r. }
  apply no_lf_cons in Hline as [Hc Hline]. cbn [split_from].
  rewrite bool_decide_eq_false_2 by done.
  rewrite IH by done. rewrite <- app_assoc.
  case_bool_decide; [|done]. destruct line as [|c' line]; [done|].
  apply no_lf_cons in Hline as [Hc' _].
  by rewrite bool_decide_eq_false_2.
Qed.

(** Reading a line that is followed by a line feed. *)
Lemma split_from_line line cur rest :
  no_lf line → no_cr_end line →
  split_from cur (line ++ 10 :: rest) = (cur ++ line) :: split_from [] rest.
Proof.
  revert cur. induction line as [|c line IH]; intros cur Hline Hend.
  { simpl. by rewrite app_nil_r. }
  apply no_lf_cons in Hline as [Hc Hline].
  cbn [app split_from]. rewrite bool_decide_eq_false_2 by done.
  destruct line as [|c' line].
  - assert (c ≠ 13) as Hc13 by (intros ->; by apply Hend).
    rewrite (bool_decide_eq_false_2 (c = 13)) by done.
    by rewrite (IH (cur ++ [c])), <- app_assoc.
  - pose proof Hline as [Hc' _]%no_lf_cons.
    rewrite (IH (cur ++ [c])), <- app_assoc by done.
    case_bool_decide; [|done]. cbn [app]. by rewrite bool_decide_eq_false_2.
Qed.

Lemma split_join_lines (lines : list (list Z)) :
  lines ≠ [] →
  Forall (λ line, no_lf line ∧ no_cr_end line) lines →
  splitLines (join_lines (Some <$> lines)) = lines.
Proof.
  intros Hne Hlines. unfold splitLines.
  induction Hlines as [|line lines [Hlf Hcr] Hlines IH]; [done|].
  rewrite fmap_cons. cbn [join_lines].
  destruct lines as [|line' lines].
  - simpl. by rewrite split_from_last.
  - rewrite fmap_cons. rewrite <- fmap_cons. cbn [default].
    change ([10] ++ ?t) with (10 :: t).
    rewrite split_from_line by done. rewrite IH by done. done.
Qed.

(** X5. A nonempty list of lines that hold no line feed and do not end
    with a carriage return is read back by [splitLines] from its join:
    splitting undoes joining. *)
Theorem splitLines_join (lines : list (list Z)) :
  lines ≠ [] →
  Forall (λ line, no_lf line ∧ no_cr_end line) lines →
  splitLines (join_lines (Some <$> lines)) = lines.
Proof. apply split_join_lines. Qed.

Lemma splitLines_join_witness :
  splitLines (join_lines (Some <$> [lit "a"; []; lit "b c"]))
  = [lit "a"; []; lit "b c"].
Proof.
  apply splitLines_join; [done|].
  repeat (apply List.Forall_cons;
          [unfold no_lf, no_cr_end; split; compute_done|]).
  apply List.Forall_nil.
Defined.

(** ** Whitespace normalisation *)

Lemma drop_while_snoc {A} (p : A → bool) (r : list A) c :
  drop_while p (r ++ [c])
  = match drop_while p r with
    | [] => if p c then [] else [c]
    | k => k ++ [c]
    end.
Proof.
  induction r as [|x r IH]; simpl; [by destruct (p c)|].
  destruct (p x); [done|]. done.
Qed.

Lemma drop_end_reverse {A} (p : A → bool) (s : list A) :
  reverse (drop_while p (reverse s)) = drop_end p s.
Proof.
  induction s as [|c s IH]; [done|].
  rewrite reverse_cons, drop_while_snoc. cbn [drop_end]. rewrite <- IH.
  destruct (drop_while p (reverse s)) as [|x k].
  - simpl. by destruct (p c).
  - rewrite reverse_app. simpl.
    destruct (reverse (x :: k)) eqn:Hr; [|done].
    apply (f_equal length) in Hr. rewrite length_reverse in Hr.
    discriminate Hr.
Qed.

Lemma trim_drop s : trim s = drop_end is_space (drop_while is_space s).
Proof. apply drop_end_reverse. Qed.

Lemma drop_end_snoc {A} (p : A → bool) (k : list A) c :
  p c = true → drop_end p (k ++ [c]) = drop_end p k.
Proof.
  intros Hc. induction k as [|x k IH]; simpl; [by rewrite Hc|].
  by rewrite IH.
Qed.

Lemma drop_end_last {A} (p : A → bool) (s : list A) c :
  last (drop_end p s) = Some c → p c = false.
Proof.
  revert c. induction s as [|x s IH]; intros c; simpl; [done|].
  destruct (drop_end p s) as [|y r].
  - destruct (p x) eqn:Hx; [done|]. simpl. by intros [= <-].
  - intros Hl. by apply IH.
Qed.

Lemma drop_end_head {A} (p : A → bool) (s : list A) :
  (∀ c, head s = Some c → p c = false) →
  ∀ c, head (drop_end p s) = Some c → p c = false.
Proof.
  intros Hs c. destruct s as [|x s]; simpl; [done|].
  destruct (drop_end p s); [destruct (p x); [done|]|];
    simpl; intros [= <-]; by apply Hs.
Qed.

Lemma drop_end_id {A} (p : A → bool) (s : list A) :
  (∀ c, last s = Some c → p c = false) → drop_end p s = s.
Proof.
  induction s as [|x s IH]; intros Hs; simpl; [done|].
  destruct s as [|y s].
  - simpl. by rewrite (Hs x).
  - rewrite IH by (intros c Hc; by apply Hs). done.
Qed.

Lemma drop_while_id {A} (p : A → bool) (s : list A) :
  (∀ c, head s = Some c → p c = false) → drop_while p s = s.
Proof. intros Hs. destruct s as [|x s]; simpl; [done|]. by rewrite (Hs x). Qed.

Lemma spaced_weaken b line : spaced b line → spaced false line.
Proof.
  destruct line as [|c line]; simpl; [done|].
  destruct (is_space c); [|done]. intros (-> & _ & H). done.
Qed.

Lemma collapse_spaced b line : spaced b (collapse_spaces b line).
Proof.
  revert b. induction line as [|c line IH]; intros b; [done|].
  cbn [collapse_spaces]. destruct (is_space c) eqn:Hc.
  - destruct b; [apply IH|]. cbn [spaced].
    replace (is_space 32) with true by done. auto.
  - cbn [spaced]. rewrite Hc. apply IH.
Qed.

Lemma spaced_collapse b line : spaced b line → collapse_spaces b line = line.
Proof.
  revert b. induction line as [|c line IH]; intros b; simpl; [done|].
  destruct (is_space c).
  - intros (-> & -> & H). by rewrite IH.
  - intros H. by rewrite IH.
Qed.

Lemma spaced_drop_while b line :
  spaced b line → spaced false (drop_while is_space line).
Proof.
  revert b. induction line as [|c line IH]; intros b; simpl; [done|].
  destruct (is_space c) eqn:Hc.
  - intros (_ & _ & H). by apply (IH true).
  - intros H. simpl. by rewrite Hc.
Qed.

Lemma spaced_drop_end b line : spaced b line → spaced b (drop_end is_space line).
Proof.
  revert b. induction line as [|c line IH]; intros b; [done|].
  cbn [spaced drop_end]. destruct (is_space c) eqn:Hc.
  - intros (-> & -> & H). apply IH in H.
    destruct (drop_end is_space line) as [|y r]; [done|].
    change (32 = 32 ∧ false = false ∧ spaced true (y :: r)). auto.
  - intros H. apply IH in H.
    destruct (drop_end is_space line) as [|y r];
      cbn [spaced]; by rewrite Hc.
Qed.

(** The two readings of the normal form. *)
Lemma spaced_only b line c :
  spaced b line → c ∈ line → is_space c = true → c = 32.
Proof.
  revert b. induction line as [|x line IH]; intros b Hsp Hin Hc.
  { by apply elem_of_nil in Hin. }
  simpl in Hsp. apply elem_of_cons in Hin as [->|Hin].
  - rewrite Hc in Hsp. by destruct Hsp.
  - destruct (is_space x).
    + destruct Hsp as (_ & _ & Hsp). by apply (IH true).
    + by apply (IH false).
Qed.

Lemma spaced_apart b line pre c d post :
  spaced b line → line = pre ++ c :: d :: post →
  is_space c = true → is_space d = false.
Proof.
  revert b pre. induction line as [|x line IH]; intros b pre Hsp Heq Hc.
  { by destruct pre. }
  simpl in Hsp. destruct pre as [|y pre]; simpl in Heq.
  - injection Heq as -> ->. rewrite Hc in Hsp.
    destruct Hsp as (_ & _ & Hsp). simpl in Hsp.
    destruct (is_space d); [|done]. by destruct Hsp as (_ & ? & _).
  - injection Heq as -> ->.
    destruct (is_space y).
    + destruct Hsp as (_ & _ & Hsp). by apply (IH true pre).
    + by apply (IH false pre).
Qed.

Lemma spaced_single line :
  spaced false line →
  (∀ c, head line = Some c → is_space c = false) →
  (∀ c, last line = Some c → is_space c = false) →
  single_spaced line.
Proof.
  intros Hsp Hhead Hlast. split; [done|split; [done|split]].
  - intros c. by apply spaced_only with false.
  - intros pre c d post. by apply spaced_apart with false.
Qed.

Lemma single_spaced_spaced line : single_spaced line → spaced false line.
Proof.
  intros (Hhead & _ & Honly & Hadj).
  assert (∀ b, (b = true → ∀ c, head line = Some c → is_space c = false) →
            spaced b line) as Hgen.
  2:{ apply Hgen. done. }
  clear Hhead.
  induction line as [|x line IH]; intros b Hb; simpl; [done|].
  assert (spaced (is_space x) line) as Hrec.
  { apply IH.
    - intros c Hc. apply Honly. by right.
    - intros pre c d post ->. by apply (Hadj (x :: pre) c d post).
    - intros Hx c Hc. destruct line as [|y line]; [done|].
      injection Hc as ->. by apply (Hadj [] x c line). }
  destruct (is_space x) eqn:Hx; [|done].
  split; [apply Honly; [by left|done]|]. split; [|done].
  destruct b; [|done]. by rewrite (Hb eq_refl x) in Hx.
Qed.

Lemma normalize_single_spaced line :
  single_spaced (normalizeForCompare line true).
Proof.
  unfold normalizeForCompare. rewrite trim_drop.
  apply spaced_single.
  - apply spaced_drop_end. eapply spaced_drop_while. apply collapse_spaced.
  - apply drop_end_head. apply drop_while_head.
  - apply drop_end_last.
Qed.

Lemma single_spaced_normalize line :
  single_spaced line → normalizeForCompare line true = line.
Proof.
  intros Hs. pose proof (single_spaced_spaced line Hs) as Hsp.
  destruct Hs as (Hhead & Hlast & _).
  unfold normalizeForCompare. rewrite trim_drop.
  rewrite spaced_collapse by done. rewrite drop_while_id by done.
  by apply drop_end_id.
Qed.

(** X6. With [ignoreWhitespace], [normalizeForCompare] brings a line to
    a normal form: the result has no whitespace at either end and holds
    whitespace only as single spaces. The lines it leaves unchanged are
    exactly those in normal form, so normalising twice is normalising
    once (for either value of the flag). *)
Theorem normalizeForCompare_normal_form (line : list Z) (whitespace : bool) :
  single_spaced (normalizeForCompare line true)
  ∧ (normalizeForCompare line true = line ↔ single_spaced line)
  ∧ normalizeForCompare (normalizeForCompare line whitespace) whitespace
    = normalizeForCompare line whitespace.
Proof.
  split; [apply normalize_single_spaced|]. split.
  - split; [|apply single_spaced_normalize].
    intros <-. apply normalize_single_spaced.
  - destruct whitespace; [|done].
    apply single_spaced_normalize, normalize_single_spaced.
Qed.

Lemma collapse_app b l1 l2 :
  collapse_spaces b (l1 ++ l2)
  = collapse_spaces b l1 ++ collapse_spaces (ends_space b l1) l2.
Proof.
  revert b. induction l1 as [|c l1 IH]; intros b; [done|].
  cbn [app collapse_spaces ends_space].
  destruct (is_space c); [destruct b|]; by rewrite IH.
Qed.

Lemma collapse_run b run :
  run ≠ [] → Forall (λ c, is_space c = true) run →
  collapse_spaces b run = (if b then [] else [32])
  ∧ ends_space b run = true.
Proof.
  intros Hne Hrun. revert b Hne.
  induction Hrun as [|c run Hc Hrun IH]; intros b Hne; [done|].
  cbn [collapse_spaces ends_space]. rewrite Hc.
  destruct run as [|c' run]; [by destruct b|].
  destruct (IH true) as [-> ->]; [done|]. by destruct b.
Qed.

Lemma drop_while_collapse b line :
  drop_while is_space (collapse_spaces b line)
  = drop_while is_space (collapse_spaces true line).
Proof.
  destruct line as [|c line]; [done|]. cbn [collapse_spaces].
  destruct (is_space c) eqn:Hc; [|done]. by destruct b.
Qed.

Lemma trim_snoc_space s : trim (s ++ [32]) = trim s.
Proof.
  rewrite !trim_drop, drop_while_snoc.
  destruct (drop_while is_space s) as [|x k]; [done|].
  by rewrite drop_end_snoc.
Qed.

(** X7. With [ignoreWhitespace], a line is compared up to its
    whitespace: a nonempty run of whitespace characters can be replaced
    by any other one, and whitespace at the start or at the end of the
    line can be removed, without changing the normalised line. *)
Theorem normalizeForCompare_whitespace (pre run run' post : list Z) :
  run ≠ [] → run' ≠ [] →
  Forall (λ c, is_space c = true) run →
  Forall (λ c, is_space c = true) run' →
  normalizeForCompare (pre ++ run ++ post) true
  = normalizeForCompare (pre ++ run' ++ post) true
  ∧ normalizeForCompare (run ++ post) true = normalizeForCompare post true
  ∧ normalizeForCompare (pre ++ run) true = normalizeForCompare pre true.
Proof.
  intros Hne Hne' Hrun Hrun'. unfold normalizeForCompare.
  split; [|split].
  - rewrite !collapse_app.
    destruct (collapse_run (ends_space false pre) run) as [-> ->]; [done..|].
    by destruct (collapse_run (ends_space false pre) run') as [-> ->].
  - rewrite collapse_app.
    destruct (collapse_run false run) as [-> ->]; [done..|].
    rewrite !trim_drop. cbn [app drop_while].
    replace (is_space 32) with true by done.
    by rewrite <- (drop_while_collapse false).
  - rewrite collapse_app.
    destruct (collapse_run (ends_space false pre) run) as [-> _]; [done..|].
    destruct (ends_space false pre); [by rewrite app_nil_r|].
    apply trim_snoc_space.
Qed.

Lemma normalizeForCompare_whitespace_witness :
  normalizeForCompare (lit "a" ++ [9; 32] ++ lit "b") true
  = normalizeForCompare (lit "a" ++ [32] ++ lit "b") true
  ∧ normalizeForCompare ([9; 32] ++ lit "b") true
    = normalizeForCompare (lit "b") true
  ∧ normalizeForCompare (lit "a" ++ [9; 32]) true
    = normalizeForCompare (lit "a") true.
Proof.
  apply normalizeForCompare_whitespace; [done|done|..];
    repeat (apply List.Forall_cons; [done|]); apply List.Forall_nil.
Defined.

(** ** What the hunks say about the lines *)

Section WalkShape.
Context {A : Type} `{EqDecision A}.
Variables a b : list A.

Lemma walk_app_inv es1 es2 x y x' y' :
  walk a b x y (es1 ++ es2) x' y' →
  ∃ xm ym, walk a b x y es1 xm ym ∧ walk a b xm ym es2 x' y'.
Proof.
  revert x y. induction es1 as [|e es1 IH]; intros x y Hw.
  { exists x, y. split; [constructor|done]. }
  inversion Hw as [|? ? ? ? ? Hx Hy Heq Hw'|? ? ? ? ? Hx Hw'|? ? ? ? ? Hy Hw'];
    subst; destruct (IH _ _ Hw') as (xm & ym & H1 & H2);
    exists xm, ym; (split; [|done]); by constructor.
Qed.

Lemma walk_equal_lines x y es x' y' :
  walk a b x y es x' y' →
  Forall (λ e, e_type e = EEqual → arr_get a (li e) = arr_get b (ri e)) es.
Proof. induction 1; constructor; done. Qed.

Lemma walk_deletes x y dels x' y' :
  walk a b x y dels x' y' →
  Forall (λ e, e_type e = EDelete) dels →
  x' = x + Z.of_nat (length dels) ∧ y' = y
  ∧ ∀ (j : nat) d, dels !! j = Some d → li d = x + Z.of_nat j.
Proof.
  induction 1 as [x y|x y es x' y' Hx Hy Heq Hw IH
                  |x y es x' y' Hx Hw IH|x y es x' y' Hy Hw IH];
    intros Hd.
  - simpl. split; [lia|]. split; [done|]. intros j d Hj. done.
  - by apply Forall_cons in Hd as [Hd _].
  - apply Forall_cons in Hd as [_ Hd]. destruct (IH Hd) as (-> & -> & Hj).
    simpl. split; [lia|]. split; [done|].
    intros [|j] d; simpl; [intros [= <-]; simpl; lia|].
    intros Hl. rewrite (Hj _ _ Hl). lia.
  - by apply Forall_cons in Hd as [Hd _].
Qed.

Lemma walk_inserts x y ins x' y' :
  walk a b x y ins x' y' →
  Forall (λ e, e_type e = EInsert) ins →
  x' = x ∧ y' = y + Z.of_nat (length ins)
  ∧ ∀ (j : nat) i, ins !! j = Some i → ri i = y + Z.of_nat j.
Proof.
  induction 1 as [x y|x y es x' y' Hx Hy Heq Hw IH
                  |x y es x' y' Hx Hw IH|x y es x' y' Hy Hw IH];
    intros Hd.
  - simpl. split; [done|]. split; [lia|]. intros j d Hj. done.
  - by apply Forall_cons in Hd as [Hd _].
  - by apply Forall_cons in Hd as [Hd _].
  - apply Forall_cons in Hd as [_ Hd]. destruct (IH Hd) as (-> & -> & Hj).
    simpl. split; [done|]. split; [lia|].
    intros [|j] d; simpl; [intros [= <-]; simpl; lia|].
    intros Hl. rewrite (Hj _ _ Hl). lia.
Qed.

Lemma reach_rights (k : nat) x y c :
  reach a b x y c → x + Z.of_nat k ≤ Z.of_nat (length a) →
  reach a b (x + Z.of_nat k) y (c + k).
Proof.
  induction k as [|k IH]; intros Hr Hk.
  - by rewrite Z.add_0_r, Nat.add_0_r.
  - replace (x + Z.of_nat (S k)) with (x + Z.of_nat k + 1) by lia.
    rewrite Nat.add_succ_r. apply reach_right; [apply IH; [done|lia]|lia].
Qed.

Lemma reach_downs (k : nat) x y c :
  reach a b x y c → y + Z.of_nat k ≤ Z.of_nat (length b) →
  reach a b x (y + Z.of_nat k) (c + k).
Proof.
  induction k as [|k IH]; intros Hr Hk.
  - by rewrite Z.add_0_r, Nat.add_0_r.
  - replace (y + Z.of_nat (S k)) with (y + Z.of_nat k + 1) by lia.
    rewrite Nat.add_succ_r. apply reach_down; [apply IH; [done|lia]|lia].
Qed.

Lemma edit_cost_app es1 es2 :
  edit_cost (es1 ++ es2) = (edit_cost es1 + edit_cost es2)%nat.
Proof. unfold edit_cost. by rewrite list.filter_app, length_app. Qed.

Lemma edit_cost_changes es :
  Forall (λ e, e_type e ≠ EEqual) es → edit_cost es = length es.
Proof. intros Hes. unfold edit_cost. by rewrite filter_all. Qed.

(** In a shortest walk no deleted line of a change block is equal to an
    inserted line of the block: keeping the two lines would save two
    moves. *)
Lemma block_lines_differ pre dels ins rest (j j' : nat) d i :
  walk a b 0 0 (pre ++ dels ++ ins ++ rest)
    (Z.of_nat (length a)) (Z.of_nat (length b)) →
  (∀ c, reach a b (Z.of_nat (length a)) (Z.of_nat (length b)) c →
     (edit_cost (pre ++ dels ++ ins ++ rest) ≤ c)%nat) →
  Forall (λ e, e_type e = EDelete) dels →
  Forall (λ e, e_type e = EInsert) ins →
  dels !! j = Some d → ins !! j' = Some i →
  arr_get a (li d) ≠ arr_get b (ri i).
Proof.
  intros Hw Hmin Hdels Hins Hd Hi Heq.
  apply walk_app_inv in Hw as (x1 & y1 & Hw1 & Hw).
  apply walk_app_inv in Hw as (x2 & y2 & Hw2 & Hw).
  apply walk_app_inv in Hw as (x3 & y3 & Hw3 & Hw4).
  destruct (walk_deletes _ _ _ _ _ Hw2 Hdels) as (-> & -> & Hli).
  destruct (walk_inserts _ _ _ _ _ Hw3 Hins) as (-> & -> & Hri).
  rewrite (Hli _ _ Hd), (Hri _ _ Hi) in Heq.
  pose proof (lookup_lt_Some _ _ _ Hd) as Hj.
  pose proof (lookup_lt_Some _ _ _ Hi) as Hj'.
  destruct (walk_indices _ _ _ _ _ _ _ Hw1) as (_ & _ & Hx1 & Hy1).
  destruct (walk_indices _ _ _ _ _ _ _ Hw4) as (_ & _ & Hx4 & Hy4).
  pose proof (walk_reach a b _ _ _ _ _ 0 Hw1 (reach_origin a b)) as Hr.
  apply (reach_rights j) in Hr; [|lia].
  apply (reach_downs j') in Hr; [|lia].
  apply reach_diag in Hr; [|lia|lia|done].
  apply (reach_rights (length dels - S j)) in Hr; [|lia].
  apply (reach_downs (length ins - S j')) in Hr; [|lia].
  replace (x1 + Z.of_nat j + 1 + Z.of_nat (length dels - S j))
    with (x1 + Z.of_nat (length dels)) in Hr by lia.
  replace (y1 + Z.of_nat j' + 1 + Z.of_nat (length ins - S j'))
    with (y1 + Z.of_nat (length ins)) in Hr by lia.
  pose proof (walk_reach a b _ _ _ _ _ _ Hw4 Hr) as Hr'.
  apply Hmin in Hr'. rewrite !edit_cost_app in Hr'.
  rewrite (edit_cost_changes dels), (edit_cost_changes ins) in Hr'.
  - lia.
  - eapply Forall_impl; [done|]. simpl. congruence.
  - eapply Forall_impl; [done|]. simpl. congruence.
Qed.

Lemma script_same (l : list A) : script l l 0.
Proof. induction l; by constructor. Qed.

Lemma script_zero (l k : list A) : script l k 0 → l = k.
Proof.
  intros Hs. remember 0%nat as c eqn:Hc.
  induction Hs; try discriminate; [done|]. f_equal. auto.
Qed.

(** A walk made of kept lines only runs down one diagonal. *)
Lemma walk_all_equal x y es x' y' :
  walk a b x y es x' y' →
  Forall (λ e, e_type e = EEqual) es →
  x' - x = y' - y
  ∧ es = (λ i, Edit EEqual (x + i) (y + i)) <$> seqZ 0 (x' - x).
Proof.
  induction 1 as [x y|x y es x' y' Hx Hy Heq Hw IH
                  |x y es x' y' Hx Hw IH|x y es x' y' Hy Hw IH];
    intros Hes.
  - rewrite !Z.sub_diag. done.
  - apply Forall_cons in Hes as [_ Hes]. destruct (IH Hes) as [Hd Hes'].
    split; [lia|].
    destruct (walk_indices _ _ _ _ _ _ _ Hw) as (_ & _ & ? & ?).
    rewrite seqZ_cons by lia. rewrite fmap_cons, !Z.add_0_r. f_equal.
    rewrite Hes' at 1.
    replace (Z.pred (x' - x)) with (x' - (x + 1)) by lia.
    change (Z.succ 0) with (1 + 0).
    rewrite <- (fmap_add_seqZ 1 0). rewrite <- list_fmap_compose.
    apply list_fmap_ext. intros _ i _. simpl. f_equal; lia.
  - by apply Forall_cons in Hes as [Hes _].
  - by apply Forall_cons in Hes as [Hes _].
Qed.

End WalkShape.

Section HunkOrigins.
Variables left right : list (list Z).

Lemma block_hunk_inv dels ins h :
  h ∈ block_hunks left right dels ins →
  (∃ (j : nat) d i,
     dels !! j = Some d ∧ ins !! j = Some i
     ∧ h = changed_hunk left right d i)
  ∨ (∃ d, d ∈ dels ∧ h = removed_hunk left d)
  ∨ (∃ i, i ∈ ins ∧ h = added_hunk right i).
Proof.
  rewrite block_hunks_eq, !elem_of_app, !list_elem_of_fmap,
    elem_of_lookup_zip_with.
  intros [(j & d & i & -> & Hd & Hi)|[(d & -> & Hd)|(i & -> & Hi)]].
  - left. apply lookup_take_Some in Hd as [Hd _].
    apply lookup_take_Some in Hi as [Hi _]. by exists j, d, i.
  - right. left. exists d. split; [|done].
    apply list_elem_of_lookup_1 in Hd as [k Hd].
    rewrite lookup_drop in Hd. by eapply list_elem_of_lookup_2.
  - right. right. exists i. split; [|done].
    apply list_elem_of_lookup_1 in Hi as [k Hi].
    rewrite lookup_drop in Hi. by eapply list_elem_of_lookup_2.
Qed.

(** Where a hunk comes from. *)
Lemma parsed_hunk_inv edits hs h :
  parsed left right edits hs → h ∈ hs →
  (∃ e, e ∈ edits ∧ e_type e = EEqual ∧ h = equal_hunk left right e)
  ∨ (∃ pre dels ins rest (j : nat) d i,
       edits = pre ++ dels ++ ins ++ rest
       ∧ Forall (λ e, e_type e = EDelete) dels
       ∧ Forall (λ e, e_type e = EInsert) ins
       ∧ dels !! j = Some d ∧ ins !! j = Some i
       ∧ h = changed_hunk left right d i)
  ∨ (∃ d, d ∈ edits ∧ e_type d = EDelete ∧ h = removed_hunk left d)
  ∨ (∃ i, i ∈ edits ∧ e_type i = EInsert ∧ h = added_hunk right i).
Proof.
  induction 1 as [|e rest hs He Hp IH|dels ins rest hs Hne Hd Hi Hnext Hp IH
                  |ins rest hs Hne Hi Hnext Hp IH]; intros Hin.
  - by apply elem_of_nil in Hin.
  - apply elem_of_cons in Hin as [->|Hin].
    { left. exists e. split; [by left|done]. }
    destruct (IH Hin)
      as [(e' & ? & ? & ?)
         |[(pre & dels & ins & rest' & j & d & i & -> & ? & ? & ? & ? & ?)
          |[(d & ? & ? & ?)|(i & ? & ? & ?)]]].
    + left. exists e'. split; [by right|done].
    + right. left. exists (e :: pre), dels, ins, rest', j, d, i. done.
    + right. right. left. exists d. split; [by right|done].
    + right. right. right. exists i. split; [by right|done].
  - apply elem_of_app in Hin as [Hin|Hin].
    { apply block_hunk_inv in Hin
        as [(j & d & i & ? & ? & ?)|[(d & Hin & ?)|(i & Hin & ?)]].
      - right. left. by exists [], dels, ins, rest, j, d, i.
      - right. right. left. exists d. rewrite elem_of_app.
        split; [by left|]. split; [|done].
        rewrite Forall_forall in Hd. by apply Hd.
      - right. right. right. exists i. rewrite !elem_of_app.
        split; [by right; left|]. split; [|done].
        rewrite Forall_forall in Hi. by apply Hi. }
    destruct (IH Hin)
      as [(e' & ? & ? & ?)
         |[(pre & dels' & ins' & rest' & j & d & i & -> & ? & ? & ? & ? & ?)
          |[(d & ? & ? & ?)|(i & ? & ? & ?)]]].
    + left. exists e'. rewrite !elem_of_app. auto.
    + right. left. exists (dels ++ ins ++ pre), dels', ins', rest', j, d, i.
      by rewrite <- !app_assoc.
    + right. right. left. exists d. rewrite !elem_of_app. auto.
    + right. right. right. exists i. rewrite !elem_of_app. auto.
  - apply elem_of_app in Hin as [Hin|Hin].
    { apply list_elem_of_fmap in Hin as (i & -> & Hin).
      right. right. right. exists i. rewrite elem_of_app.
      split; [by left|]. split; [|done].
      rewrite Forall_forall in Hi. by apply Hi. }
    destruct (IH Hin)
      as [(e' & ? & ? & ?)
         |[(pre & dels' & ins' & rest' & j & d & i & -> & ? & ? & ? & ? & ?)
          |[(d & ? & ? & ?)|(i & ? & ? & ?)]]].
    + left. exists e'. rewrite !elem_of_app. auto.
    + right. left. exists (ins ++ pre), dels', ins', rest', j, d, i.
      by rewrite <- !app_assoc.
    + right. right. left. exists d. rewrite !elem_of_app. auto.
    + right. right. right. exists i. rewrite !elem_of_app. auto.
Qed.

End HunkOrigins.

Lemma arr_get_fmap {A B} (f : A → B) (l : list A) i :
  arr_get (f <$> l) i = f <$> arr_get l i.
Proof.
  unfold arr_get. destruct (decide (0 ≤ i)); [|done].
  by rewrite list_lookup_fmap.
Qed.

(** The edits behind the hunks of [myersDiff]: a shortest walk through
    the edit graph of the normalised lines. *)
Lemma myersDiff_walk (left right : list (list Z)) (ignoreWhitespace : bool) :
  2 * (Z.of_nat (length left) + Z.of_nat (length right)) < 2 ^ 31 →
  let a := (λ l, normalizeForCompare l ignoreWhitespace) <$> left in
  let b := (λ l, normalizeForCompare l ignoreWhitespace) <$> right in
  ∃ edits,
    myersDiff left right ignoreWhitespace = consolidate left right edits
    ∧ edits = myers_edits a b
    ∧ parsed left right edits (myersDiff left right ignoreWhitespace)
    ∧ walk a b 0 0 edits (Z.of_nat (length left)) (Z.of_nat (length right))
    ∧ Forall (edit_valid (Z.of_nat (length left)) (Z.of_nat (length right)))
        edits
    ∧ ∀ c, reach a b (Z.of_nat (length left)) (Z.of_nat (length right)) c →
        (edit_cost edits ≤ c)%nat.
Proof.
  intros Hsize a b.
  assert (length a = length left) as Hla by apply length_fmap.
  assert (length b = length right) as Hlb by apply length_fmap.
  destruct (myers_edits_walk a b) as [Hw Hmin]; [rewrite Hla, Hlb; lia|].
  rewrite Hla, Hlb in Hw, Hmin.
  exists (myers_edits a b). split; [done|]. split; [done|].
  split; [apply consolidate_parsed|]. split; [done|]. split; [|done].
  rewrite <- Hla, <- Hlb. eapply walk_edits_valid; [exact Hw|done..].
Qed.

Lemma equal_hunks_lines
    (left right : list (list Z)) (ignoreWhitespace : bool) :
  2 * (Z.of_nat (length left) + Z.of_nat (length right)) < 2 ^ 31 →
  Forall (λ h, type h = Equal →
            ∃ l r,
              0 ≤ lStart h ∧ left !! Z.to_nat (lStart h) = Some l
              ∧ 0 ≤ rStart h ∧ right !! Z.to_nat (rStart h) = Some r
              ∧ lLines h = [Some l] ∧ rLines h = [Some r]
              ∧ normalizeForCompare l ignoreWhitespace
                = normalizeForCompare r ignoreWhitespace)
    (myersDiff left right ignoreWhitespace).
Proof.
  intros Hsize.
  destruct (myersDiff_walk left right ignoreWhitespace Hsize)
    as (edits & _ & _ & Hp & Hw & Hv & _).
  apply Forall_forall. intros h Hin Ht.
  destruct (parsed_hunk_inv _ _ _ _ _ Hp Hin)
    as [(e & He & Hte & ->)
       |[(pre & dels & ins & rest' & j & d & i & _ & _ & _ & _ & _ & ->)
        |[(d & _ & _ & ->)|(i & _ & _ & ->)]]]; try discriminate Ht.
  rewrite Forall_forall in Hv. specialize (Hv e He).
  unfold edit_valid in Hv. rewrite Hte in Hv. destruct Hv as [Hl Hr].
  pose proof (walk_equal_lines _ _ _ _ _ _ _ Hw) as Heq.
  rewrite Forall_forall in Heq. specialize (Heq e He Hte).
  rewrite !arr_get_fmap in Heq.
  destruct (arr_get_Some left (li e) Hl) as (l & Hgl & Hll).
  destruct (arr_get_Some right (ri e) Hr) as (r & Hgr & Hlr).
  rewrite Hgl, Hgr in Heq. injection Heq as Heq.
  exists l, r. unfold equal_hunk. cbn [lStart rStart lLines rLines].
  rewrite Hgl, Hgr. repeat split; (lia || done).
Qed.

(** X8. An [equal] hunk of [myersDiff] pairs two lines that are the
    same once normalised: it shows the left line of index [lStart] and
    the right line of index [rStart], and [normalizeForCompare] maps the
    two to the same string. *)
Theorem equal_hunks_pair_equal_lines
    (left right : list (list Z)) (ignoreWhitespace : bool) :
  2 * (Z.of_nat (length left) + Z.of_nat (length right)) < 2 ^ 31 →
  Forall (λ h, type h = Equal →
            ∃ l r,
              0 ≤ lStart h ∧ left !! Z.to_nat (lStart h) = Some l
              ∧ 0 ≤ rStart h ∧ right !! Z.to_nat (rStart h) = Some r
              ∧ lLines h = [Some l] ∧ rLines h = [Some r]
              ∧ normalizeForCompare l ignoreWhitespace
                = normalizeForCompare r ignoreWhitespace)
    (myersDiff left right ignoreWhitespace).
Proof. apply equal_hunks_lines. Qed.

Lemma equal_hunks_pair_equal_lines_witness :
  Forall (λ h, type h = Equal →
            ∃ l r,
              0 ≤ lStart h ∧ [lit " a"; lit "b"] !! Z.to_nat (lStart h) = Some l
              ∧ 0 ≤ rStart h
              ∧ [lit "a "; lit "c"] !! Z.to_nat (rStart h) = Some r
              ∧ lLines h = [Some l] ∧ rLines h = [Some r]
              ∧ normalizeForCompare l true = normalizeForCompare r true)
    (myersDiff [lit " a"; lit "b"] [lit "a "; lit "c"] true).
Proof. apply equal_hunks_pair_equal_lines. done. Defined.

(** X9. A [changed] hunk of [myersDiff] pairs two lines that differ
    even once normalised: the aligner is minimal, and a deleted line
    equal to an inserted line of the same block would have been kept. *)
Theorem changed_hunks_pair_different_lines
    (left right : list (list Z)) (ignoreWhitespace : bool) :
  2 * (Z.of_nat (length left) + Z.of_nat (length right)) < 2 ^ 31 →
  Forall (λ h, type h = Changed →
            ∃ l r,
              0 ≤ lStart h ∧ left !! Z.to_nat (lStart h) = Some l
              ∧ 0 ≤ rStart h ∧ right !! Z.to_nat (rStart h) = Some r
              ∧ lLines h = [Some l] ∧ rLines h = [Some r]
              ∧ normalizeForCompare l ignoreWhitespace
                ≠ normalizeForCompare r ignoreWhitespace)
    (myersDiff left right ignoreWhitespace).
Proof.
  intros Hsize.
  destruct (myersDiff_walk left right ignoreWhitespace Hsize)
    as (edits & _ & _ & Hp & Hw & Hv & Hmin).
  apply Forall_forall. intros h Hin Ht.
  destruct (parsed_hunk_inv _ _ _ _ _ Hp Hin)
    as [(e & _ & _ & ->)
       |[(pre & dels & ins & rest' & j & d & i & -> & Hd & Hi & Hjd & Hji & ->)
        |[(d & _ & _ & ->)|(i & _ & _ & ->)]]]; try discriminate Ht.
  rewrite Forall_forall in Hv.
  assert (d ∈ pre ++ dels ++ ins ++ rest') as Hind.
  { rewrite !elem_of_app. right. left. by eapply list_elem_of_lookup_2. }
  assert (i ∈ pre ++ dels ++ ins ++ rest') as Hini.
  { rewrite !elem_of_app. right. right. left.
    by eapply list_elem_of_lookup_2. }
  pose proof (Hv d Hind) as Hvd. pose proof (Hv i Hini) as Hvi.
  unfold edit_valid in Hvd, Hvi.
  rewrite Forall_forall in Hd, Hi.
  rewrite (Hd d) in Hvd by by eapply list_elem_of_lookup_2.
  rewrite (Hi i) in Hvi by by eapply list_elem_of_lookup_2.
  destruct Hvd as [Hl _]. destruct Hvi as [_ Hr].
  destruct (arr_get_Some left (li d) Hl) as (l & Hgl & Hll).
  destruct (arr_get_Some right (ri i) Hr) as (r & Hgr & Hlr).
  exists l, r. unfold changed_hunk. cbn [lStart rStart lLines rLines].
  rewrite Hgl, Hgr. repeat split; try (lia || done).
  intros Heq.
  assert (length ((λ l, normalizeForCompare l ignoreWhitespace) <$> left)
          = length left) as Hla by apply length_fmap.
  assert (length ((λ l, normalizeForCompare l ignoreWhitespace) <$> right)
          = length right) as Hlb by apply length_fmap.
  eapply (block_lines_differ _ _ pre dels ins rest' j j d i).
  - rewrite Hla, Hlb. exact Hw.
  - rewrite Hla, Hlb. exact Hmin.
  - by apply Forall_forall.
  - by apply Forall_forall.
  - done.
  - done.
  - rewrite !arr_get_fmap, Hgl, Hgr. simpl. by rewrite Heq.
Qed.

Lemma changed_hunks_pair_different_lines_witness :
  Forall (λ h, type h = Changed →
            ∃ l r,
              0 ≤ lStart h ∧ [lit "a"; lit "b"] !! Z.to_nat (lStart h) = Some l
              ∧ 0 ≤ rStart h
              ∧ [lit "a"; lit "c"] !! Z.to_nat (rStart h) = Some r
              ∧ lLines h = [Some l] ∧ rLines h = [Some r]
              ∧ normalizeForCompare l false ≠ normalizeForCompare r false)
    (myersDiff [lit "a"; lit "b"] [lit "a"; lit "c"] false).
Proof. apply changed_hunks_pair_different_lines. done. Defined.

(** ** Statistics *)

Lemma count_type_app t hs1 hs2 :
  count_type t (hs1 ++ hs2) = (count_type t hs1 + count_type t hs2)%nat.
Proof. unfold count_type. by rewrite list.filter_app, length_app. Qed.

Lemma count_type_cons t h hs :
  count_type t (h :: hs)
  = ((if decide (type h = t) then 1 else 0) + count_type t hs)%nat.
Proof.
  unfold count_type. destruct (decide (type h = t)).
  - by rewrite filter_cons_True.
  - by rewrite filter_cons_False.
Qed.

Lemma count_type_all t t' hs :
  Forall (λ h, type h = t') hs →
  count_type t hs = if decide (t' = t) then length hs else 0%nat.
Proof.
  intros Hhs. unfold count_type. destruct (decide (t' = t)) as [<-|Hne].
  - by rewrite filter_all.
  - rewrite filter_none; [done|]. eapply Forall_impl; [done|].
    simpl. congruence.
Qed.

Lemma computeStats_from s hs :
  foldl (λ s h,
           let s1 := if bool_decide (type h = Added)
                     then Stats (added s + 1) (removed s) (changed s) else s in
           let s2 := if bool_decide (type h = Removed)
                     then Stats (added s1) (removed s1 + 1) (changed s1)
                     else s1 in
           if bool_decide (type h = Changed)
           then Stats (added s2) (removed s2) (changed s2 + 1) else s2)
    s hs
  = Stats (added s + Z.of_nat (count_type Added hs))
      (removed s + Z.of_nat (count_type Removed hs))
      (changed s + Z.of_nat (count_type Changed hs)).
Proof.
  revert s. induction hs as [|h hs IH]; intros s.
  { destruct s. unfold count_type. cbn. f_equal; lia. }
  cbn [foldl]. rewrite IH, !count_type_cons.
  destruct s as [sa sr sc]. destruct (type h); simpl; f_equal; lia.
Qed.

(** [computeStats] counts the hunks of each type. *)
Lemma computeStats_counts hs :
  computeStats hs
  = Stats (Z.of_nat (count_type Added hs)) (Z.of_nat (count_type Removed hs))
      (Z.of_nat (count_type Changed hs)).
Proof. unfold computeStats. by rewrite computeStats_from. Qed.

Section HunkCounts.
Variables left right : list (list Z).

Lemma block_counts dels ins :
  count_type Equal (block_hunks left right dels ins) = 0%nat
  ∧ (count_type Changed (block_hunks left right dels ins)
     + count_type Removed (block_hunks left right dels ins)
     = length dels)%nat
  ∧ (count_type Changed (block_hunks left right dels ins)
     + count_type Added (block_hunks left right dels ins)
     = length ins)%nat.
Proof.
  rewrite block_hunks_eq.
  set (k := (length dels `min` length ins)%nat).
  assert (Forall (λ h, type h = Changed)
            (zip_with (changed_hunk left right) (take k dels) (take k ins)))
    as Hc.
  { apply Forall_forall. intros h Hh.
    apply elem_of_lookup_zip_with in Hh as (? & ? & ? & -> & _). done. }
  assert (Forall (λ h, type h = Removed) (removed_hunk left <$> drop k dels))
    as Hr by (apply Forall_fmap, Forall_true; done).
  assert (Forall (λ h, type h = Added) (added_hunk right <$> drop k ins))
    as Ha by (apply Forall_fmap, Forall_true; done).
  rewrite !count_type_app.
  rewrite !(count_type_all _ _ _ Hc), !(count_type_all _ _ _ Hr),
    !(count_type_all _ _ _ Ha).
  rewrite length_zip_with, !length_fmap, !length_drop, !length_take.
  simpl. unfold k. lia.
Qed.

Lemma filter_length_app {A} (P : A → Prop) `{∀ x, Decision (P x)} l1 l2 :
  length (filter P (l1 ++ l2))
  = (length (filter P l1) + length (filter P l2))%nat.
Proof. by rewrite list.filter_app, length_app. Qed.

Lemma parsed_counts edits hs :
  parsed left right edits hs →
  count_type Equal hs = length (filter (λ e, e_type e = EEqual) edits)
  ∧ (count_type Changed hs + count_type Removed hs)%nat
    = length (filter (λ e, e_type e = EDelete) edits)
  ∧ (count_type Changed hs + count_type Added hs)%nat
    = length (filter (λ e, e_type e = EInsert) edits).
Proof.
  induction 1 as [|e rest hs He Hp (IH1 & IH2 & IH3)
                  |dels ins rest hs Hne Hd Hi Hnext Hp (IH1 & IH2 & IH3)
                  |ins rest hs Hne Hi Hnext Hp (IH1 & IH2 & IH3)].
  - done.
  - rewrite !count_type_cons. cbn [equal_hunk type].
    rewrite filter_cons_True by done.
    rewrite !filter_cons_False by congruence.
    simpl. lia.
  - destruct (block_counts dels ins) as (B1 & B2 & B3).
    rewrite !count_type_app, !filter_length_app.
    rewrite (filter_all (λ e, e_type e = EDelete) dels) by done.
    rewrite (filter_all (λ e, e_type e = EInsert) ins) by done.
    rewrite (filter_none (λ e, e_type e = EEqual) dels),
      (filter_none (λ e, e_type e = EInsert) dels),
      (filter_none (λ e, e_type e = EEqual) ins),
      (filter_none (λ e, e_type e = EDelete) ins);
      try (eapply Forall_impl; [done|]; simpl; congruence).
    simpl. lia.
  - assert (Forall (λ h, type h = Added) (added_hunk right <$> ins)) as Ha
      by (apply Forall_fmap, Forall_true; done).
    rewrite !count_type_app, !filter_length_app.
    rewrite !(count_type_all _ _ _ Ha), length_fmap.
    rewrite (filter_all (λ e, e_type e = EInsert) ins) by done.
    rewrite (filter_none (λ e, e_type e = EEqual) ins),
      (filter_none (λ e, e_type e = EDelete) ins);
      try (eapply Forall_impl; [done|]; simpl; congruence).
    simpl. lia.
Qed.

End HunkCounts.

Lemma edit_partition (es : list edit) :
  length es
  = (length (filter (λ e, e_type e = EEqual) es)
     + length (filter (λ e, e_type e = EDelete) es)
     + length (filter (λ e, e_type e = EInsert) es))%nat
  ∧ edit_cost es
    = (length (filter (λ e, e_type e = EDelete) es)
       + length (filter (λ e, e_type e = EInsert) es))%nat
  ∧ length (filter (λ e, e_type e ≠ EInsert) es)
    = (length (filter (λ e, e_type e = EEqual) es)
       + length (filter (λ e, e_type e = EDelete) es))%nat
  ∧ length (filter (λ e, e_type e ≠ EDelete) es)
    = (length (filter (λ e, e_type e = EEqual) es)
       + length (filter (λ e, e_type e = EInsert) es))%nat.
Proof.
  unfold edit_cost. induction es as [|e es (IH1 & IH2 & IH3 & IH4)]; [done|].
  destruct e as [[] ? ?];
    repeat (first [rewrite filter_cons_True by (simpl; congruence)
                  |rewrite filter_cons_False by (simpl; congruence)]);
    simpl; lia.
Qed.

Lemma myersDiff_counts (left right : list (list Z)) (ignoreWhitespace : bool) :
  2 * (Z.of_nat (length left) + Z.of_nat (length right)) < 2 ^ 31 →
  let a := (λ l, normalizeForCompare l ignoreWhitespace) <$> left in
  let b := (λ l, normalizeForCompare l ignoreWhitespace) <$> right in
  let hunks := myersDiff left right ignoreWhitespace in
  (count_type Equal hunks + count_type Changed hunks
   + count_type Removed hunks = length left)%nat
  ∧ (count_type Equal hunks + count_type Changed hunks
     + count_type Added hunks = length right)%nat
  ∧ (count_type Added hunks + count_type Removed hunks
     + 2 * count_type Changed hunks = edit_cost (myers_edits a b))%nat.
Proof.
  intros Hsize a b hunks.
  destruct (myersDiff_walk left right ignoreWhitespace Hsize)
    as (edits & _ & Hedits & Hp & Hw & _ & _).
  fold a b in Hedits, Hw. rewrite <- Hedits.
  destruct (parsed_counts _ _ _ _ Hp) as (C1 & C2 & C3). fold hunks in C1, C2, C3.
  destruct (edit_partition edits) as (_ & P2 & P3 & P4).
  destruct (walk_indices _ _ _ _ _ _ _ Hw) as (Hl & Hr & _).
  apply (f_equal length) in Hl, Hr.
  rewrite length_fmap, length_seqZ in Hl, Hr. lia.
Qed.

(** X10. The statistics measure the edit distance of the normalised
    line sequences: [added + removed + 2 * changed] is the number of
    insertions and deletions of an edit script from the left to the
    right sequence, and no edit script has fewer. *)
Theorem stats_measure_edit_distance
    (left right : list (list Z)) (ignoreWhitespace : bool) :
  2 * (Z.of_nat (length left) + Z.of_nat (length right)) < 2 ^ 31 →
  let a := (λ l, normalizeForCompare l ignoreWhitespace) <$> left in
  let b := (λ l, normalizeForCompare l ignoreWhitespace) <$> right in
  let s := computeStats (myersDiff left right ignoreWhitespace) in
  0 ≤ added s ∧ 0 ≤ removed s ∧ 0 ≤ changed s
  ∧ script a b (Z.to_nat (added s + removed s + 2 * changed s))
  ∧ ∀ c, script a b c → added s + removed s + 2 * changed s ≤ Z.of_nat c.
Proof.
  intros Hsize a b s.
  destruct (myersDiff_counts left right ignoreWhitespace Hsize)
    as (_ & _ & Hcost).
  fold a b in Hcost.
  destruct (myers_edits_minimal a b) as [Hs Hmin].
  { unfold a, b. rewrite !length_fmap. lia. }
  unfold s. rewrite computeStats_counts. cbn [added removed changed].
  split; [lia|]. split; [lia|]. split; [lia|].
  replace (Z.to_nat _) with (edit_cost (myers_edits a b)) by lia.
  split; [done|]. intros c Hc. apply Hmin in Hc. lia.
Qed.

Lemma stats_measure_edit_distance_witness :
  let a := [lit "a"; lit "b"; lit "c"] in
  let b := [lit "a"; lit "x"; lit "c"; lit "d"] in
  let s := computeStats (myersDiff a b false) in
  0 ≤ added s ∧ 0 ≤ removed s ∧ 0 ≤ changed s
  ∧ script a b (Z.to_nat (added s + removed s + 2 * changed s))
  ∧ ∀ c, script a b c → added s + removed s + 2 * changed s ≤ Z.of_nat c.
Proof.
  apply (stats_measure_edit_distance
           [lit "a"; lit "b"; lit "c"] [lit "a"; lit "x"; lit "c"; lit "d"]
           false).
  done.
Defined.

(** X11. The hunks account for every line: the numbers of equal,
    changed and removed hunks add up to the number of left lines, those
    of equal, changed and added hunks to the number of right lines; so
    [added - removed] is the difference of the two line counts. *)
Theorem stats_match_line_counts
    (left right : list (list Z)) (ignoreWhitespace : bool) :
  2 * (Z.of_nat (length left) + Z.of_nat (length right)) < 2 ^ 31 →
  let hunks := myersDiff left right ignoreWhitespace in
  let s := computeStats hunks in
  Z.of_nat (count_type Equal hunks) + changed s + removed s
  = Z.of_nat (length left)
  ∧ Z.of_nat (count_type Equal hunks) + changed s + added s
    = Z.of_nat (length right)
  ∧ added s - removed s
    = Z.of_nat (length right) - Z.of_nat (length left).
Proof.
  intros Hsize hunks s.
  destruct (myersDiff_counts left right ignoreWhitespace Hsize)
    as (Hl & Hr & _).
  fold hunks in Hl, Hr.
  unfold s. rewrite computeStats_counts. cbn [added removed changed]. lia.
Qed.

Lemma stats_match_line_counts_witness :
  let hunks := myersDiff [lit "a"; lit "b"] [lit "b"; lit "c"; lit "d"] false in
  let s := computeStats hunks in
  Z.of_nat (count_type Equal hunks) + changed s + removed s = 2
  ∧ Z.of_nat (count_type Equal hunks) + changed s + added s = 3
  ∧ added s - removed s = 3 - 2.
Proof.
  apply (stats_match_line_counts [lit "a"; lit "b"]
           [lit "b"; lit "c"; lit "d"] false).
  done.
Defined.

(** ** Inputs that compare equal *)

Lemma hasChanges_false hs :
  hasChanges hs = false ↔ Forall (λ h, type h = Equal) hs.
Proof.
  unfold hasChanges. induction hs as [|h hs IH]; simpl.
  { split; [constructor|done]. }
  rewrite orb_false_iff, IH, bool_decide_eq_false, Forall_cons.
  split; intros [H1 H2]; split; try done.
  - by destruct (decide (type h = Equal)).
  - by intros ?.
Qed.

Lemma filter_length_zero {A} (P : A → Prop) `{∀ x, Decision (P x)} l :
  length (filter P l) = 0%nat → Forall (λ x, ¬ P x) l.
Proof.
  induction l as [|x l IH]; [constructor|].
  destruct (decide (P x)).
  - by rewrite filter_cons_True.
  - rewrite filter_cons_False by done. intros Hl. constructor; auto.
Qed.

Lemma consolidate_all_equal (left right : list (list Z)) es :
  Forall (λ e, e_type e = EEqual) es →
  consolidate left right es = equal_hunk left right <$> es.
Proof.
  induction 1 as [|e es He Hes IH]; [done|].
  by rewrite consolidate_equal, IH.
Qed.

Lemma myersDiff_no_change
    (left right : list (list Z)) (ignoreWhitespace : bool) :
  2 * (Z.of_nat (length left) + Z.of_nat (length right)) < 2 ^ 31 →
  let a := (λ l, normalizeForCompare l ignoreWhitespace) <$> left in
  let b := (λ l, normalizeForCompare l ignoreWhitespace) <$> right in
  let hunks := myersDiff left right ignoreWhitespace in
  (hasChanges hunks = false ↔ a = b)
  ∧ (computeStats hunks = Stats 0 0 0 ↔ a = b)
  ∧ (a = b →
     hunks = (λ '(i, (l, r)), Hunk Equal [Some l] [Some r] i i)
             <$> zip (seqZ 0 (Z.of_nat (length left))) (zip left right)).
Proof.
  intros Hsize a b hunks.
  destruct (myersDiff_walk left right ignoreWhitespace Hsize)
    as (edits & Hcons & Hedits & Hp & Hw & _ & Hmin).
  fold a b hunks in Hedits, Hw, Hmin, Hcons, Hp.
  destruct (myersDiff_counts left right ignoreWhitespace Hsize)
    as (_ & _ & Hcost).
  fold a b hunks in Hcost. rewrite <- Hedits in Hcost.
  assert (length a = length left) as Hla by apply length_fmap.
  assert (length b = length right) as Hlb by apply length_fmap.
  assert (edit_cost edits = 0%nat → a = b) as Hzero.
  { intros H0. apply script_zero. rewrite <- H0. apply walk_script.
    by rewrite Hla, Hlb. }
  assert (a = b → edit_cost edits = 0%nat) as Hsame.
  { intros Hab. assert (script a b 0) as Hs.
    { rewrite Hab. apply script_same. }
    apply script_reach in Hs. rewrite Hla, Hlb in Hs.
    apply Hmin in Hs. lia. }
  split; [|split].
  - rewrite hasChanges_false. split; [|intros Hab; apply Hsame in Hab].
    + intros Hall. apply Hzero.
      rewrite !(count_type_all _ _ _ Hall) in Hcost. simpl in Hcost. lia.
    + assert (count_type Added hunks = 0 ∧ count_type Removed hunks = 0
              ∧ count_type Changed hunks = 0)%nat as (Ha & Hr & Hc) by lia.
      apply filter_length_zero in Ha, Hr, Hc.
      rewrite Forall_forall in Ha, Hr, Hc. apply Forall_forall.
      intros h Hh. specialize (Ha h Hh). specialize (Hr h Hh).
      specialize (Hc h Hh). by destruct (type h).
  - rewrite computeStats_counts. split.
    + intros [= Ha Hr Hc]. apply Hzero. lia.
    + intros Hab. apply Hsame in Hab. f_equal; lia.
  - intros Hab. pose proof (Hsame Hab) as H0.
    assert (Forall (λ e, e_type e = EEqual) edits) as Hall.
    { apply filter_length_zero in H0. eapply Forall_impl; [done|].
      simpl. intros e He. by destruct (decide (e_type e = EEqual)). }
    destruct (walk_all_equal _ _ _ _ _ _ _ Hw Hall) as [Hnm Hes].
    rewrite Hcons, consolidate_all_equal by done.
    rewrite Hes, <- list_fmap_compose, Z.sub_0_r.
    apply list_eq. intros k. rewrite !list_lookup_fmap, lookup_zip_with.
    destruct (decide (k < length left)%nat) as [Hk|Hk].
    + rewrite lookup_seqZ_lt by lia. rewrite lookup_zip_with.
      destruct (lookup_lt_is_Some_2 left k Hk) as [l Hl].
      destruct (lookup_lt_is_Some_2 right k) as [r Hr]; [lia|].
      rewrite Hl, Hr. simpl. unfold equal_hunk. cbn [li ri].
      rewrite !Z.add_0_l, !arr_get_lookup, Hl, Hr. done.
    + rewrite lookup_seqZ_ge by lia. done.
Qed.

(** X12. [myersDiff] reports no change exactly when the two sequences
    of normalised lines are the same: then, and only then, no hunk has
    a type other than [equal] and the statistics are all zero; and in
    that case the hunks pair the lines of the two sides one by one, in
    order. *)
Theorem no_change_iff_lines_compare_equal
    (left right : list (list Z)) (ignoreWhitespace : bool) :
  2 * (Z.of_nat (length left) + Z.of_nat (length right)) < 2 ^ 31 →
  let a := (λ l, normalizeForCompare l ignoreWhitespace) <$> left in
  let b := (λ l, normalizeForCompare l ignoreWhitespace) <$> right in
  let hunks := myersDiff left right ignoreWhitespace in
  (hasChanges hunks = false ↔ a = b)
  ∧ (computeStats hunks = Stats 0 0 0 ↔ a = b)
  ∧ (a = b →
     hunks = (λ '(i, (l, r)), Hunk Equal [Some l] [Some r] i i)
             <$> zip (seqZ 0 (Z.of_nat (length left))) (zip left right)).
Proof. apply myersDiff_no_change. Qed.

Lemma no_change_iff_lines_compare_equal_witness :
  let left := [lit "a  b"; lit "c"] in
  let right := [lit " a b"; lit "c "] in
  let a := (λ l, normalizeForCompare l true) <$> left in
  let b := (λ l, normalizeForCompare l true) <$> right in
  let hunks := myersDiff left right true in
  (hasChanges hunks = false ↔ a = b)
  ∧ (computeStats hunks = Stats 0 0 0 ↔ a = b)
  ∧ (a = b →
     hunks = (λ '(i, (l, r)), Hunk Equal [Some l] [Some r] i i)
             <$> zip (seqZ 0 (Z.of_nat (length left))) (zip left right)).
Proof.
  apply (no_change_iff_lines_compare_equal
           [lit "a  b"; lit "c"] [lit " a b"; lit "c "] true).
  done.
Defined.

(** ** Deletions next to insertions *)

Lemma free_app hs1 hs2 :
  removed_then_added_free hs1 → removed_then_added_free hs2 →
  (∀ h1 h2, last hs1 = Some h1 → head hs2 = Some h2 →
     type h1 = Removed → type h2 ≠ Added) →
  removed_then_added_free (hs1 ++ hs2).
Proof.
  intros H1 H2 Hb i h1 h2 Hi Hsi Ht.
  destruct (decide (S i < length hs1)%nat) as [Hlt|Hge].
  - rewrite lookup_app_l in Hi, Hsi by lia. by apply (H1 i h1 h2).
  - destruct (decide (S i = length hs1)) as [Heq|Hne].
    + rewrite lookup_app_l in Hi by lia. rewrite lookup_app_r in Hsi by lia.
      apply (Hb h1 h2); [|by destruct hs2; rewrite Heq, Nat.sub_diag in Hsi|done].
      rewrite last_lookup. rewrite <- Heq. done.
    + rewrite lookup_app_r in Hi, Hsi by lia.
      replace (S i - length hs1)%nat with (S (i - length hs1)) in Hsi by lia.
      by apply (H2 (i - length hs1)%nat h1 h2).
Qed.

Lemma free_all (t : hunk_type) hs :
  Forall (λ h, type h = t) hs → removed_then_added_free hs.
Proof.
  intros Hall i h1 h2 Hi Hsi Ht. rewrite Forall_forall in Hall.
  rewrite (Hall h2) by by eapply list_elem_of_lookup_2.
  rewrite <- (Hall h1) by by eapply list_elem_of_lookup_2. by rewrite Ht.
Qed.

Section Pairing.
Variables left right : list (list Z).

Lemma block_free dels ins :
  removed_then_added_free (block_hunks left right dels ins).
Proof.
  rewrite block_hunks_eq.
  set (k := (length dels `min` length ins)%nat).
  assert (Forall (λ h, type h = Changed)
            (zip_with (changed_hunk left right) (take k dels) (take k ins)))
    as Hc.
  { apply Forall_forall. intros h Hh.
    apply elem_of_lookup_zip_with in Hh as (? & ? & ? & -> & _). done. }
  assert (Forall (λ h, type h = Removed) (removed_hunk left <$> drop k dels))
    as Hr by (apply Forall_fmap, Forall_true; done).
  assert (Forall (λ h, type h = Added) (added_hunk right <$> drop k ins))
    as Ha by (apply Forall_fmap, Forall_true; done).
  apply free_app; [by eapply free_all| |].
  - apply free_app; [by eapply free_all|by eapply free_all|].
    intros h1 h2 Hl Hh _.
    assert (drop k dels ≠ []) as Hd by (intros Hd; by rewrite Hd in Hl).
    assert (drop k ins ≠ []) as Hi by (intros Hi; by rewrite Hi in Hh).
    exfalso.
    assert (k < length dels)%nat.
    { destruct (decide (k < length dels)%nat); [done|].
      by rewrite drop_ge in Hd by lia. }
    assert (k < length ins)%nat.
    { destruct (decide (k < length ins)%nat); [done|].
      by rewrite drop_ge in Hi by lia. }
    unfold k in *. lia.
  - intros h1 h2 Hl _ Ht. apply last_Some_elem_of in Hl.
    rewrite Forall_forall in Hc. rewrite (Hc h1 Hl) in Ht. done.
Qed.

(** The first hunk of a consolidated list is an added one only when the
    first edit is an insertion. *)
Lemma parsed_head edits hs e h :
  parsed left right edits hs → head edits = Some e → head hs = Some h →
  e_type e ≠ EInsert → type h ≠ Added.
Proof.
  intros Hp. destruct Hp as [|e' rest hs He Hp|dels ins rest hs Hne Hd Hi Hnext Hp
                            |ins rest hs Hne Hi Hnext Hp].
  - done.
  - simpl. intros _ [= <-] _. done.
  - destruct dels as [|d dels]; [done|]. simpl. intros [= <-] Hh _.
    rewrite block_hunks_eq in Hh.
    destruct ins as [|i ins]; simpl in Hh; injection Hh as <-; done.
  - destruct ins as [|i ins]; [done|]. simpl. intros [= <-] _ Hins.
    by apply Forall_cons in Hi as [? _].
Qed.

Lemma parsed_free edits hs :
  parsed left right edits hs → removed_then_added_free hs.
Proof.
  induction 1 as [|e rest hs He Hp IH|dels ins rest hs Hne Hd Hi Hnext Hp IH
                  |ins rest hs Hne Hi Hnext Hp IH].
  - intros i h1 h2 Hi. done.
  - apply (free_app [_]); [by apply (free_all Equal); repeat constructor|done|].
    intros h1 h2 [= <-] _. done.
  - apply free_app; [apply block_free|done|].
    intros h1 h2 _ Hh _.
    destruct rest as [|e rest].
    { inversion Hp; subst; try done; by destruct dels0 || destruct ins0. }
    destruct (Hnext e eq_refl) as [Hne' _].
    by apply (parsed_head (e :: rest) hs e h2).
  - apply free_app; [|done|].
    + apply (free_all Added). apply Forall_fmap, Forall_true. done.
    + intros h1 h2 Hl _ Ht. apply last_Some_elem_of in Hl.
      apply list_elem_of_fmap in Hl as (i & -> & _). done.
Qed.

End Pairing.

(** X13. In what the consolidator returns, for any edit list, a removed
    hunk is never directly followed by an added hunk: a deletion directly
    followed by an insertion is always shown as a changed hunk. *)
Theorem removed_never_followed_by_added
    (left right : list (list Z)) (edits : list edit) (i : nat) (h1 h2 : hunk) :
  consolidate left right edits !! i = Some h1 →
  consolidate left right edits !! S i = Some h2 →
  type h1 = Removed →
  type h2 ≠ Added.
Proof.
  intros Hi Hsi Ht.
  by apply (parsed_free left right edits _ (consolidate_parsed _ _ edits)
              i h1 h2).
Qed.

Lemma removed_never_followed_by_added_witness :
  type (Hunk Removed [Some (lit "c")] [Some []] 2 (-1)) ≠ Added.
Proof.
  apply (removed_never_followed_by_added
           [lit "a"; lit "b"; lit "c"] [lit "x"]
           [Edit EDelete 0 (-1); Edit EDelete 1 (-1); Edit EInsert (-1) 0;
            Edit EDelete 2 (-1)]
           1 (Hunk Removed [Some (lit "b")] [Some []] 1 (-1))).
  - vm_compute. reflexivity.
  - vm_compute. reflexivity.
  - reflexivity.
Defined.

(** ** Swapping the two sides *)

Lemma script_sym {A} (l k : list A) c : script l k c → script k l c.
Proof. induction 1; by constructor. Qed.

(** X14. Swapping the two sides swaps insertions and deletions in the
    statistics: [added + changed] of one comparison is
    [removed + changed] of the other, whatever the pairing into changed
    hunks; so the total [added + removed + 2 * changed] is the same. *)
Theorem stats_of_swapped_sides
    (left right : list (list Z)) (ignoreWhitespace : bool) :
  2 * (Z.of_nat (length left) + Z.of_nat (length right)) < 2 ^ 31 →
  let s := computeStats (myersDiff left right ignoreWhitespace) in
  let s' := computeStats (myersDiff right left ignoreWhitespace) in
  added s' + changed s' = removed s + changed s
  ∧ removed s' + changed s' = added s + changed s
  ∧ added s' + removed s' + 2 * changed s'
    = added s + removed s + 2 * changed s.
Proof.
  intros Hsize s s'.
  destruct (myersDiff_counts left right ignoreWhitespace Hsize)
    as (Hl & Hr & Hcost).
  destruct (myersDiff_counts right left ignoreWhitespace)
    as (Hl' & Hr' & Hcost'); [lia|].
  set (a := (λ l, normalizeForCompare l ignoreWhitespace) <$> left) in *.
  set (b := (λ l, normalizeForCompare l ignoreWhitespace) <$> right) in *.
  destruct (myers_edits_minimal a b) as [Hs Hmin].
  { unfold a, b. rewrite !length_fmap. lia. }
  destruct (myers_edits_minimal b a) as [Hs' Hmin'].
  { unfold a, b. rewrite !length_fmap. lia. }
  apply script_sym, Hmin in Hs'. apply script_sym, Hmin' in Hs.
  unfold s, s'. rewrite !computeStats_counts. cbn [added removed changed].
  lia.
Qed.

Lemma stats_of_swapped_sides_witness :
  let s := computeStats
             (myersDiff [lit "a"; lit "b"] [lit "b"; lit "c"; lit "d"] false) in
  let s' := computeStats
              (myersDiff [lit "b"; lit "c"; lit "d"] [lit "a"; lit "b"] false) in
  added s' + changed s' = removed s + changed s
  ∧ removed s' + changed s' = added s + changed s
  ∧ added s' + removed s' + 2 * changed s'
    = added s + removed s + 2 * changed s.
Proof.
  apply (stats_of_swapped_sides [lit "a"; lit "b"]
           [lit "b"; lit "c"; lit "d"] false).
  done.
Defined.

(** ** The common subsequence of [computeLCS] *)

Lemma to_int16_small z : - 2 ^ 15 ≤ z < 2 ^ 15 → to_int16 z = z.
Proof.
  intros Hz. unfold to_int16.
  rewrite Z.mod_small by lia. lia.
Qed.

Lemma dp_get_set_eq dp i j x :
  0 ≤ i → 0 ≤ j →
  (Z.to_nat i < length dp)%nat →
  Forall (λ row, (Z.to_nat j < length row)%nat) dp →
  dp_get (dp_set dp i j x) i j = to_int16 x.
Proof.
  intros Hi Hj Hlen Hrows. unfold dp_get, dp_set, arr_get, ta_get.
  rewrite !decide_True by lia. rewrite list_lookup_alter_eq.
  destruct (lookup_lt_is_Some_2 dp (Z.to_nat i) Hlen) as [row Hrow].
  rewrite Hrow. simpl.
  rewrite list_lookup_insert_eq; [done|].
  rewrite Forall_forall in Hrows. apply Hrows.
  by eapply list_elem_of_lookup_2.
Qed.

Lemma dp_get_set_ne dp i j x i' j' :
  0 ≤ i → 0 ≤ j → 0 ≤ i' → 0 ≤ j' → (i' ≠ i ∨ j' ≠ j) →
  dp_get (dp_set dp i j x) i' j' = dp_get dp i' j'.
Proof.
  intros Hi Hj Hi' Hj' Hne. unfold dp_get, dp_set, arr_get, ta_get.
  rewrite !decide_True by lia.
  destruct (decide (i' = i)) as [->|Hii].
  - rewrite list_lookup_alter_eq.
    destruct (dp !! Z.to_nat i) as [row|]; [|done]. simpl.
    rewrite list_lookup_insert_ne by lia. done.
  - rewrite list_lookup_alter_ne by lia. done.
Qed.

Section LCSFacts.
Variables a b : list (list Z).

Local Abbreviation n := (Z.of_nat (length a)).
Local Abbreviation m := (Z.of_nat (length b)).
Local Abbreviation L := (lcs_length a b).

Lemma dp_set_shape dp i j x : dp_shape a b dp → dp_shape a b (dp_set dp i j x).
Proof.
  intros [Hlen Hrows]. unfold dp_set. case_decide; [|done]. split.
  - by rewrite length_alter.
  - apply Forall_alter; [done|]. intros row _ Hrow.
    by rewrite length_insert.
Qed.

Lemma lcs_length_0_r i : L i 0 = 0.
Proof. by destruct i. Qed.

Lemma lcs_length_S i j :
  L (S i) (S j)
  = if decide (a !! i = b !! j) then L i j + 1
    else L i (S j) `max` L (S i) j.
Proof. done. Qed.

Lemma lcs_length_bounds i j :
  0 ≤ L i j ≤ Z.of_nat i `min` Z.of_nat j.
Proof.
  revert j. induction i as [|i IHi]; intros j; [simpl; lia|].
  induction j as [|j IHj]; [simpl; lia|].
  rewrite lcs_length_S. pose proof (IHi j). pose proof (IHi (S j)).
  case_decide; lia.
Qed.

(** The elements of a list, the last one apart. *)
Lemma sublist_snoc_inv {A} (s k : list A) x :
  sublist s (k ++ [x]) →
  sublist s k ∨ ∃ s', s = s' ++ [x] ∧ sublist s' k.
Proof.
  intros Hs. apply sublist_app_r in Hs as (s1 & s2 & -> & H1 & H2).
  inversion H2 as [|? ? ? H3|? ? ? H3]; subst.
  - apply sublist_nil_r in H3 as ->. right. by exists s1.
  - apply sublist_nil_r in H3 as ->. left. by rewrite app_nil_r.
Qed.

(** No common subsequence of two prefixes is longer than [lcs_length]
    says. *)
Lemma lcs_length_upper i j s :
  (i ≤ length a)%nat → (j ≤ length b)%nat →
  sublist s (take i a) → sublist s (take j b) →
  Z.of_nat (length s) ≤ L i j.
Proof.
  revert j s. induction i as [|i IHi]; intros j s Hi Hj Ha Hb.
  { rewrite take_0 in Ha. apply sublist_nil_r in Ha as ->. simpl. lia. }
  induction j as [|j IHj] in s, Hj, Ha, Hb |- *.
  { rewrite take_0 in Hb. apply sublist_nil_r in Hb as ->.
    rewrite lcs_length_0_r. simpl. lia. }
  destruct (lookup_lt_is_Some_2 a i) as [x Hx]; [lia|].
  destruct (lookup_lt_is_Some_2 b j) as [y Hy]; [lia|].
  rewrite (take_S_r _ _ _ Hx) in Ha. rewrite (take_S_r _ _ _ Hy) in Hb.
  rewrite lcs_length_S, Hx, Hy.
  destruct (sublist_snoc_inv _ _ _ Ha) as [Ha'|(s1 & -> & Ha')];
    destruct (sublist_snoc_inv _ _ _ Hb) as [Hb'|(s2 & Hs2 & Hb')].
  - pose proof (IHi j s ltac:(lia) ltac:(lia) Ha' Hb').
    pose proof (IHi (S j) s ltac:(lia) ltac:(lia) Ha').
    rewrite (take_S_r _ _ _ Hy) in H0. specialize (H0 Hb).
    case_decide; lia.
  - subst s.
    assert (sublist s2 (take i a)) as Ha2.
    { etrans; [|done]. by apply sublist_inserts_r. }
    pose proof (IHi j s2 ltac:(lia) ltac:(lia) Ha2 Hb').
    pose proof (IHi (S j) (s2 ++ [y]) ltac:(lia) ltac:(lia) Ha').
    rewrite (take_S_r _ _ _ Hy) in H0. specialize (H0 Hb).
    rewrite length_app in *. simpl in *. case_decide; lia.
  - assert (sublist s1 (take j b)) as Hb1.
    { etrans; [|done]. by apply sublist_inserts_r. }
    pose proof (IHi j s1 ltac:(lia) ltac:(lia) Ha' Hb1).
    assert (sublist (s1 ++ [x]) (take (S i) a)) as Ha1.
    { rewrite (take_S_r _ _ _ Hx). by apply sublist_app. }
    pose proof (IHj (s1 ++ [x]) ltac:(lia) Ha1 Hb').
    rewrite length_app in *. simpl in *. case_decide; lia.
  - apply app_inj_tail in Hs2 as [-> ->].
    pose proof (IHi j s2 ltac:(lia) ltac:(lia) Ha' Hb').
    rewrite length_app. simpl. rewrite decide_True by done. lia.
Qed.

Section Capped.
Hypothesis Hcap : n * m ≤ 100000.

Lemma lcs_length_int16 i j :
  0 ≤ i ≤ n → 0 ≤ j ≤ m →
  to_int16 (L (Z.to_nat i) (Z.to_nat j)) = L (Z.to_nat i) (Z.to_nat j).
Proof.
  intros Hi Hj. apply to_int16_small.
  pose proof (lcs_length_bounds (Z.to_nat i) (Z.to_nat j)).
  assert (L (Z.to_nat i) (Z.to_nat j) * L (Z.to_nat i) (Z.to_nat j)
          ≤ 100000) by nia.
  nia.
Qed.

(** One iteration of the inner loop fills one more cell of row [i]. *)
Lemma lcs_cell_filled dp i c :
  1 ≤ i ≤ n → 0 ≤ c < m →
  dp_shape a b dp → filled a b dp i c →
  dp_shape a b (lcs_cell a b dp i (c + 1))
  ∧ filled a b (lcs_cell a b dp i (c + 1)) i (c + 1).
Proof.
  intros Hi Hc Hshape Hfill. split; [by apply dp_set_shape|].
  unfold lcs_cell.
  assert ((if bool_decide (arr_get a (i - 1) = arr_get b (c + 1 - 1))
           then dp_get dp (i - 1) (c + 1 - 1) + 1
           else dp_get dp (i - 1) (c + 1) `max` dp_get dp i (c + 1 - 1))
          = L (Z.to_nat i) (Z.to_nat (c + 1))) as ->.
  { rewrite !Hfill by lia. rewrite !decide_True by lia.
    replace (Z.to_nat i) with (S (Z.to_nat (i - 1))) by lia.
    replace (Z.to_nat (c + 1)) with (S (Z.to_nat (c + 1 - 1))) by lia.
    rewrite lcs_length_S.
    replace (arr_get a (i - 1)) with (a !! Z.to_nat (i - 1))
      by (unfold arr_get; by rewrite decide_True by lia).
    replace (arr_get b (c + 1 - 1)) with (b !! Z.to_nat (c + 1 - 1))
      by (unfold arr_get; by rewrite decide_True by lia).
    replace (S (Z.to_nat (c + 1 - 1))) with (Z.to_nat (c + 1)) by lia.
    replace (S (Z.to_nat (i - 1))) with (Z.to_nat i) by lia.
    case_bool_decide; by case_decide. }
  destruct Hshape as [Hlen Hrows].
  intros i' j' Hi' Hj'.
  destruct (decide (i' = i ∧ j' = c + 1)) as [[-> ->]|Hne].
  - rewrite dp_get_set_eq; [|lia|lia|lia|].
    + rewrite lcs_length_int16 by lia. by rewrite decide_True by lia.
    + eapply Forall_impl; [done|]. simpl. intros row ->. lia.
  - rewrite dp_get_set_ne by lia. rewrite Hfill by done.
    repeat case_decide; (done || lia).
Qed.

(** The inner loop fills row [i]. *)
Lemma lcs_row_filled (c : nat) dp i :
  1 ≤ i ≤ n → Z.of_nat c ≤ m →
  dp_shape a b dp → filled a b dp i 0 →
  dp_shape a b (foldl (λ dp j, lcs_cell a b dp i j) dp (seqZ 1 (Z.of_nat c)))
  ∧ filled a b
      (foldl (λ dp j, lcs_cell a b dp i j) dp (seqZ 1 (Z.of_nat c)))
      i (Z.of_nat c).
Proof.
  intros Hi. induction c as [|c IH]; intros Hc Hshape Hfill; [done|].
  rewrite seqZ_S, foldl_app. cbn [foldl].
  destruct IH as [Hs Hf]; [lia|done|done|].
  replace (Z.of_nat (S c)) with (Z.of_nat c + 1) by lia.
  replace (1 + Z.of_nat c) with (Z.of_nat c + 1) by lia.
  apply lcs_cell_filled; (done || lia).
Qed.

(** The outer loop fills the rows one after the other. *)
Lemma lcs_rows_filled (r : nat) :
  Z.of_nat r ≤ n →
  let dp :=
    foldl (λ dp i, foldl (λ dp j, lcs_cell a b dp i j) dp (seqZ 1 m))
      (replicate (Z.to_nat (n + 1)) (replicate (Z.to_nat (m + 1)) 0))
      (seqZ 1 (Z.of_nat r)) in
  dp_shape a b dp ∧ filled a b dp (Z.of_nat r) m.
Proof.
  induction r as [|r IH]; intros Hr dp.
  - unfold dp. change (seqZ 1 (Z.of_nat 0)) with (@nil Z). cbn [foldl].
    split.
    + split; [rewrite length_replicate; lia|].
      apply Forall_replicate. rewrite length_replicate. lia.
    + intros i' j' Hi' Hj'. unfold dp_get, arr_get, ta_get.
      rewrite !decide_True by lia.
      rewrite lookup_replicate_2 by lia. simpl.
      rewrite lookup_replicate_2 by lia. simpl.
      case_decide as Hd; [|done].
      replace i' with 0 by lia. done.
  - unfold dp. rewrite seqZ_S, foldl_app. cbn [foldl].
    destruct IH as [Hs Hf]; [lia|].
    replace (1 + Z.of_nat r) with (Z.of_nat (S r)) by lia.
    replace m with (Z.of_nat (length b)) at 3 5 by done.
    apply lcs_row_filled; [lia|lia|done|].
    intros i' j' Hi' Hj'. rewrite Hf by done.
    repeat case_decide; try (done || lia).
    + replace j' with 0 by lia. by rewrite lcs_length_0_r.
Qed.

(** The table of [computeLCS] holds [lcs_length] in every cell. *)
Lemma lcs_table_filled i j :
  0 ≤ i ≤ n → 0 ≤ j ≤ m →
  dp_get (lcs_table a b n m) i j = L (Z.to_nat i) (Z.to_nat j).
Proof.
  intros Hi Hj. unfold lcs_table.
  destruct (lcs_rows_filled (length a)) as [_ Hf]; [lia|].
  rewrite Hf by done. by rewrite decide_True by lia.
Qed.

(** The backward walk collects as many elements as [lcs_length] says. *)
Lemma lcs_walk_length fuel i j result :
  0 ≤ i ≤ n → 0 ≤ j ≤ m → i + j ≤ Z.of_nat fuel →
  Z.of_nat (length (lcs_walk a b fuel (lcs_table a b n m) i j result).2)
  = L (Z.to_nat i) (Z.to_nat j) + Z.of_nat (length result).
Proof.
  revert i j result. induction fuel as [|fuel IH]; intros i j result Hi Hj Hf.
  { replace i with 0 by lia. replace j with 0 by lia. done. }
  cbn [lcs_walk]. case_bool_decide as Hi0; simpl.
  2:{ replace i with 0 by lia. done. }
  case_bool_decide as Hj0; simpl.
  2:{ replace j with 0 by lia. by rewrite lcs_length_0_r. }
  rewrite !lcs_table_filled by lia.
  replace (L (Z.to_nat i) (Z.to_nat j))
    with (L (S (Z.to_nat (i - 1))) (S (Z.to_nat (j - 1))))
    by (f_equal; lia).
  rewrite lcs_length_S.
  replace (arr_get a (i - 1)) with (a !! Z.to_nat (i - 1))
    by (unfold arr_get; by rewrite decide_True by lia).
  replace (arr_get b (j - 1)) with (b !! Z.to_nat (j - 1))
    by (unfold arr_get; by rewrite decide_True by lia).
  replace (S (Z.to_nat (i - 1))) with (Z.to_nat i) by lia.
  replace (S (Z.to_nat (j - 1))) with (Z.to_nat j) by lia.
  case_bool_decide as Heq.
  - rewrite decide_True by done. rewrite IH by lia. simpl. lia.
  - rewrite decide_False by done. case_bool_decide as Hgt.
    + rewrite IH by lia. lia.
    + rewrite IH by lia. lia.
Qed.

End Capped.

(** The backward walk collects a common subsequence, whatever the
    table holds. *)
Lemma lcs_walk_common fuel dp i j result :
  0 ≤ i ≤ n → 0 ≤ j ≤ m →
  ∃ l, (lcs_walk a b fuel dp i j result).2 = (Some <$> l) ++ result
       ∧ sublist l (take (Z.to_nat i) a)
       ∧ sublist l (take (Z.to_nat j) b).
Proof.
  revert i j result. induction fuel as [|fuel IH]; intros i j result Hi Hj.
  { exists []. split; [done|]. split; apply sublist_nil_l. }
  cbn [lcs_walk].
  destruct (bool_decide (i > 0) && bool_decide (j > 0)) eqn:Hpos.
  2:{ exists []. split; [done|]. split; apply sublist_nil_l. }
  apply andb_true_iff in Hpos as [Hi0 Hj0].
  apply bool_decide_eq_true in Hi0, Hj0.
  destruct (arr_get_Some a (i - 1)) as (x & Hgx & Hx); [lia|].
  destruct (arr_get_Some b (j - 1)) as (y & Hgy & Hy); [lia|].
  assert (take (Z.to_nat i) a = take (Z.to_nat (i - 1)) a ++ [x]) as Hta.
  { replace i with (i - 1 + 1) at 1 by lia. apply take_succ; [lia|done]. }
  assert (take (Z.to_nat j) b = take (Z.to_nat (j - 1)) b ++ [y]) as Htb.
  { replace j with (j - 1 + 1) at 1 by lia. apply take_succ; [lia|done]. }
  rewrite Hta, Htb. case_bool_decide as Heq.
  - destruct (IH (i - 1) (j - 1) (arr_get a (i - 1) :: result))
      as (l & -> & Hla & Hlb); [lia|lia|].
    exists (l ++ [x]). rewrite Hgx, fmap_app, <- app_assoc.
    split; [done|]. rewrite Hgx, Hgy in Heq. injection Heq as <-.
    split; by apply sublist_app.
  - case_bool_decide.
    + destruct (IH (i - 1) j result) as (l & -> & Hla & Hlb); [lia|lia|].
      exists l. split; [done|]. rewrite Htb in Hlb.
      split; [by apply sublist_inserts_r|done].
    + destruct (IH i (j - 1) result) as (l & -> & Hla & Hlb); [lia|lia|].
      exists l. split; [done|]. rewrite Hta in Hla.
      split; [done|by apply sublist_inserts_r].
Qed.

End LCSFacts.

Lemma computeLCS_common (a b : list (list Z)) :
  ∃ l, computeLCS a b = Some <$> l ∧ sublist l a ∧ sublist l b.
Proof.
  unfold computeLCS. cbv zeta.
  destruct (bool_decide _ || bool_decide _).
  { exists []. split; [done|]. split; apply sublist_nil_l. }
  case_bool_decide.
  { exists []. split; [done|]. split; apply sublist_nil_l. }
  destruct (lcs_walk_common a b
              (Z.to_nat (Z.of_nat (length a) + Z.of_nat (length b)))
              (lcs_table a b (Z.of_nat (length a)) (Z.of_nat (length b)))
              (Z.of_nat (length a)) (Z.of_nat (length b)) [])
    as (l & -> & Hla & Hlb); [lia|lia|].
  exists l. rewrite app_nil_r. rewrite !Nat2Z.id, !firstn_all in *. done.
Qed.

(** X15. What [computeLCS] returns is a common subsequence of its two
    arguments: its elements are elements of both token arrays, in the
    order of both. *)
Theorem computeLCS_common_subsequence (a b : list (list Z)) :
  ∃ l, computeLCS a b = Some <$> l ∧ sublist l a ∧ sublist l b.
Proof. apply computeLCS_common. Qed.

(** X16. Below the size cap ([n * m] at most 100000) the common
    subsequence of [computeLCS] is a longest one: no common subsequence
    of the two token arrays has more elements. *)
Theorem computeLCS_longest (a b s : list (list Z)) :
  Z.of_nat (length a) * Z.of_nat (length b) ≤ 100000 →
  sublist s a → sublist s b →
  (length s ≤ length (computeLCS a b))%nat.
Proof.
  intros Hcap Hsa Hsb. unfold computeLCS. cbv zeta.
  destruct (bool_decide (Z.of_nat (length a) = 0)
            || bool_decide (Z.of_nat (length b) = 0)) eqn:Hz.
  { apply orb_true_iff in Hz as [Hz|Hz]; apply bool_decide_eq_true in Hz.
    - destruct a; [|done]. by apply sublist_nil_r in Hsa as ->.
    - destruct b; [|done]. by apply sublist_nil_r in Hsb as ->. }
  rewrite bool_decide_eq_false_2 by lia.
  pose proof (lcs_walk_length a b Hcap
                (Z.to_nat (Z.of_nat (length a) + Z.of_nat (length b)))
                (Z.of_nat (length a)) (Z.of_nat (length b)) []) as Hlen.
  rewrite !Nat2Z.id in Hlen.
  pose proof (lcs_length_upper a b (length a) (length b) s) as Hup.
  rewrite !firstn_all in Hup. simpl in Hlen.
  specialize (Hup (le_n _) (le_n _) Hsa Hsb).
  specialize (Hlen ltac:(lia) ltac:(lia) ltac:(lia)). lia.
Qed.

Lemma computeLCS_longest_witness :
  (length [lit "b"; lit "c"]
   ≤ length (computeLCS [lit "a"; lit "b"; lit "c"]
               [lit "b"; lit "x"; lit "c"]))%nat.
Proof.
  apply computeLCS_longest.
  - done.
  - apply sublist_cons. apply sublist_skip. apply sublist_skip.
    apply sublist_nil.
  - apply sublist_skip. apply sublist_cons. apply sublist_skip.
    apply sublist_nil.
Defined.

(** ** What [wordDiff] highlights *)

Lemma show_tokens_snoc wrap marks toks (mk : bool) t :
  length marks = length toks →
  show_tokens wrap (marks ++ [mk]) (toks ++ [t])
  = show_tokens wrap marks toks
    ++ (if mk then wrap (escape (Some t)) else escape (Some t)).
Proof.
  intros Hlen. unfold show_tokens.
  rewrite zip_with_app by done. rewrite concat_app. simpl.
  by rewrite app_nil_r.
Qed.

Lemma unmarked_snoc marks toks (mk : bool) t :
  length marks = length toks →
  unmarked (marks ++ [mk]) (toks ++ [t])
  = unmarked marks toks ++ (if mk then [] else [t]).
Proof.
  intros Hlen. unfold unmarked.
  rewrite zip_with_app by done. rewrite list.filter_app, fmap_app.
  f_equal. simpl. destruct mk.
  - by rewrite filter_cons_False by done.
  - by rewrite filter_cons_True by done.
Qed.

Lemma js_index_Some (l : list (option (list Z))) i t :
  arr_get l i = Some (Some t) → js_index l i = Some t.
Proof. unfold js_index. by intros ->. Qed.

Section WordBranches.
Variables tokA tokB : list (list Z).
Variable lcs : list (option (list Z)).

(** The three branches of the body, with all that the first one has
    tested. *)
Lemma word_body_branches st :
  word_in_range tokA tokB st → word_guard tokA tokB st = true →
  (ai st < Z.of_nat (length tokA) ∧ bi st < Z.of_nat (length tokB)
   ∧ w_li st < Z.of_nat (length lcs)
   ∧ arr_get tokA (ai st) = js_index lcs (w_li st)
   ∧ arr_get tokB (bi st) = js_index lcs (w_li st)
   ∧ word_body tokA tokB lcs st
     = WordState (ai st + 1) (bi st + 1) (w_li st + 1)
         (leftHtml st ++ escape (arr_get tokA (ai st)))
         (rightHtml st ++ escape (arr_get tokB (bi st))))
  ∨ (bi st < Z.of_nat (length tokB)
     ∧ word_body tokA tokB lcs st
       = WordState (ai st) (bi st + 1) (w_li st) (leftHtml st)
           (rightHtml st ++ span_added (escape (arr_get tokB (bi st)))))
  ∨ (ai st < Z.of_nat (length tokA)
     ∧ word_body tokA tokB lcs st
       = WordState (ai st + 1) (bi st) (w_li st)
           (leftHtml st ++ span_removed (escape (arr_get tokA (ai st))))
           (rightHtml st)).
Proof.
  intros [Ha Hb] Hg. unfold word_guard in Hg. unfold word_body. cbv zeta.
  destruct (_ && _ && _ && _ && _) eqn:H1.
  { left. rewrite !andb_true_iff, !bool_decide_eq_true in H1.
    destruct H1 as ((((? & ?) & ?) & ?) & ?). done. }
  destruct (bool_decide (bi st < Z.of_nat (length tokB))) eqn:H2; simpl.
  - apply bool_decide_eq_true in H2.
    destruct (bool_decide (Z.of_nat (length tokA) ≤ ai st)) eqn:H3; simpl.
    { right. left. done. }
    apply bool_decide_eq_false in H3.
    destruct (negb _); [right; left; done|].
    right. right. split; [lia|done].
  - apply bool_decide_eq_false in H2.
    rewrite orb_false_r in Hg. apply bool_decide_eq_true in Hg.
    right. right. done.
Qed.

End WordBranches.

(** X17. The tokens that [wordDiff] leaves without a marker are the same
    on both sides: both outputs show all their tokens in order, each
    escaped and some inside their marker, and the unmarked tokens of the
    left output are, one by one, the unmarked tokens of the right
    output; they are the first elements of the common subsequence that
    [computeLCS] returned. *)
Theorem wordDiff_unmarked_tokens_agree (lineA lineB : list Z) :
  let tokA := tokenizeWords lineA in
  let tokB := tokenizeWords lineB in
  ∃ marksA marksB,
    length marksA = length tokA ∧ length marksB = length tokB
    ∧ wordDiff lineA lineB
      = (show_tokens span_removed marksA tokA,
         show_tokens span_added marksB tokB)
    ∧ unmarked marksA tokA = unmarked marksB tokB
    ∧ Some <$> unmarked marksA tokA `prefix_of` computeLCS tokA tokB.
Proof.
  intros tokA tokB. unfold wordDiff. cbv zeta. fold tokA tokB.
  set (lcs := computeLCS tokA tokB).
  destruct (word_loop_final tokA tokB lcs
    (λ st, 0 ≤ w_li st ≤ Z.of_nat (length lcs)
           ∧ ∃ mA mB,
               length mA = Z.to_nat (ai st) ∧ length mB = Z.to_nat (bi st)
               ∧ leftHtml st
                 = show_tokens span_removed mA (take (Z.to_nat (ai st)) tokA)
               ∧ rightHtml st
                 = show_tokens span_added mB (take (Z.to_nat (bi st)) tokB)
               ∧ unmarked mA (take (Z.to_nat (ai st)) tokA)
                 = unmarked mB (take (Z.to_nat (bi st)) tokB)
               ∧ Some <$> unmarked mA (take (Z.to_nat (ai st)) tokA)
                 = take (Z.to_nat (w_li st)) lcs))
    as (Ha & Hb & Hli & mA & mB & HlA & HlB & HL & HR & Hsame & Hlcs).
  - intros s Hr (Hli & mA & mB & HlA & HlB & HL & HR & Hsame & Hlcs) Hg.
    pose proof Hr as [Hra Hrb].
    assert (length mA = length (take (Z.to_nat (ai s)) tokA)) as HlA'
      by (rewrite length_take; lia).
    assert (length mB = length (take (Z.to_nat (bi s)) tokB)) as HlB'
      by (rewrite length_take; lia).
    destruct (word_body_branches tokA tokB lcs s Hr Hg)
      as [(Hai & Hbi & Hl & HeqA & HeqB & ->)|[(Hbi & ->)|(Hai & ->)]];
      cbn [ai bi w_li leftHtml rightHtml].
    + destruct (arr_get_Some tokA (ai s)) as (ta & Hga & Hta); [lia|].
      destruct (arr_get_Some tokB (bi s)) as (tb & Hgb & Htb); [lia|].
      destruct (arr_get_Some lcs (w_li s)) as (e & Hge & He); [lia|].
      assert (e = Some ta) as ->.
      { rewrite Hga in HeqA. unfold js_index in HeqA.
        by rewrite Hge in HeqA. }
      assert (tb = ta) as ->.
      { rewrite Hgb in HeqB. unfold js_index in HeqB.
        rewrite Hge in HeqB. simpl in HeqB. congruence. }
      split; [lia|]. exists (mA ++ [false]), (mB ++ [false]).
      rewrite (take_succ _ _ _ (proj1 Hra) Hta).
      rewrite (take_succ _ _ _ (proj1 Hrb) Htb).
      rewrite (take_succ _ _ _ (proj1 Hli) He).
      rewrite !show_tokens_snoc, !unmarked_snoc by done.
      rewrite !length_app, Hga, Hgb, HL, HR, Hsame, fmap_app, <- Hlcs, Hsame.
      simpl. repeat split; (lia || done).
    + destruct (arr_get_Some tokB (bi s)) as (tb & Hgb & Htb); [lia|].
      split; [lia|]. exists mA, (mB ++ [true]).
      rewrite (take_succ _ _ _ (proj1 Hrb) Htb).
      rewrite !show_tokens_snoc, !unmarked_snoc by done.
      rewrite !length_app, Hgb, HR, app_nil_r.
      simpl. repeat split; (lia || done).
    + destruct (arr_get_Some tokA (ai s)) as (ta & Hga & Hta); [lia|].
      split; [lia|]. exists (mA ++ [true]), mB.
      rewrite (take_succ _ _ _ (proj1 Hra) Hta).
      rewrite !show_tokens_snoc, !unmarked_snoc by done.
      rewrite !length_app, Hga, HL, app_nil_r.
      simpl. repeat split; (lia || done).
  - simpl. split; [lia|]. by exists [], [].
  - rewrite Ha, Nat2Z.id in HL, HlA, Hsame, Hlcs.
    rewrite Hb, Nat2Z.id in HR, HlB, Hsame.
    rewrite firstn_all in HL, HR, Hlcs. rewrite !firstn_all in Hsame.
    exists mA, mB. rewrite HL, HR, Hlcs.
    split; [done|]. split; [done|]. split; [done|]. split; [done|].
    exists (drop (Z.to_nat (w_li
      (word_loop tokA tokB lcs (length tokA + length tokB)
         (WordState 0 0 0 [] [])))) lcs).
    by rewrite take_drop.
Qed.

(** The backward walk on twice the same array takes every element. *)
Lemma lcs_walk_same (a : list (list Z)) fuel dp i result :
  0 ≤ i ≤ Z.of_nat (length a) → i ≤ Z.of_nat fuel →
  (lcs_walk a a fuel dp i i result).2
  = (Some <$> take (Z.to_nat i) a) ++ result.
Proof.
  revert i result. induction fuel as [|fuel IH]; intros i result Hi Hf.
  { replace i with 0 by lia. done. }
  cbn [lcs_walk]. case_bool_decide as Hi0; simpl.
  2:{ replace i with 0 by lia. done. }
  rewrite bool_decide_eq_true_2 by done.
  destruct (arr_get_Some a (i - 1)) as (x & Hgx & Hx); [lia|].
  rewrite IH by lia. rewrite Hgx.
  replace i with (i - 1 + 1) at 2 by lia.
  rewrite (take_succ a (i - 1) x) by (lia || done).
  by rewrite fmap_app, <- app_assoc.
Qed.

Lemma computeLCS_same (a : list (list Z)) :
  Z.of_nat (length a) * Z.of_nat (length a) ≤ 100000 →
  computeLCS a a = Some <$> a.
Proof.
  intros Hcap. unfold computeLCS. cbv zeta.
  destruct a as [|x a]; [done|].
  rewrite !(bool_decide_eq_false_2 (_ = 0)) by (simpl; lia).
  rewrite bool_decide_eq_false_2 by lia. cbn [orb].
  rewrite lcs_walk_same by lia.
  by rewrite Nat2Z.id, firstn_all, app_nil_r.
Qed.

Lemma escape_concat (toks : list (list Z)) :
  concat ((λ t, escape (Some t)) <$> toks) = escape (Some (concat toks)).
Proof.
  induction toks as [|t toks IH]; [done|].
  rewrite fmap_cons. cbn [concat]. by rewrite escape_app, IH.
Qed.

(** X18. On twice the same line, below the size cap of [computeLCS],
    [wordDiff] highlights nothing: both outputs are the escaped line. *)
Theorem wordDiff_same_line (line : list Z) :
  Z.of_nat (length (tokenizeWords line))
  * Z.of_nat (length (tokenizeWords line)) ≤ 100000 →
  wordDiff line line = (escape (Some line), escape (Some line)).
Proof.
  intros Hcap. unfold wordDiff. cbv zeta.
  rewrite computeLCS_same by done.
  destruct (match_tokens_spec (length line) line (le_n _)) as (Hcat & _).
  fold (tokenizeWords line) in Hcat.
  set (tok := tokenizeWords line) in *.
  destruct (word_loop_final tok tok (Some <$> tok)
    (λ st, ai st = bi st ∧ w_li st = ai st
           ∧ leftHtml st
             = escape (Some (concat (take (Z.to_nat (ai st)) tok)))
           ∧ rightHtml st = leftHtml st))
    as (Ha & _ & _ & _ & HL & HR).
  - intros s [Hra Hrb] (Hab & Hli & HL & HR) Hg.
    unfold word_guard in Hg.
    assert (ai s < Z.of_nat (length tok)) as Hai.
    { apply orb_true_iff in Hg as [Hg|Hg];
        apply bool_decide_eq_true in Hg; lia. }
    destruct (arr_get_Some tok (ai s)) as (t & Hgt & Ht); [lia|].
    assert (js_index (Some <$> tok) (w_li s) = Some t) as Hjs.
    { apply js_index_Some. rewrite Hli, arr_get_fmap, Hgt. done. }
    unfold word_body. cbv zeta.
    rewrite <- Hab, Hjs, Hgt, length_fmap.
    rewrite !bool_decide_eq_true_2 by (done || lia).
    cbn [andb ai bi w_li leftHtml rightHtml].
    rewrite (take_succ _ _ _ (proj1 Hra) Ht).
    rewrite concat_app, escape_app, HR, HL. simpl. rewrite app_nil_r.
    repeat split; (lia || done).
  - done.
  - rewrite HR, HL, Ha, Nat2Z.id, firstn_all, Hcat. done.
Qed.

Lemma wordDiff_same_line_witness :
  wordDiff (lit "x <- y") (lit "x <- y")
  = (escape (Some (lit "x <- y")), escape (Some (lit "x <- y"))).
Proof. apply wordDiff_same_line. vm_compute. discriminate. Defined.

(** Without a common subsequence, every token is highlighted. *)
Lemma wordDiff_no_lcs (lineA lineB : list Z) :
  computeLCS (tokenizeWords lineA) (tokenizeWords lineB) = [] →
  wordDiff lineA lineB
  = (concat ((λ t, span_removed (escape (Some t))) <$> tokenizeWords lineA),
     concat ((λ t, span_added (escape (Some t))) <$> tokenizeWords lineB)).
Proof.
  intros Hlcs. unfold wordDiff. cbv zeta. rewrite Hlcs.
  set (tokA := tokenizeWords lineA) in *.
  set (tokB := tokenizeWords lineB) in *.
  destruct (word_loop_final tokA tokB []
    (λ st, leftHtml st
           = concat ((λ t, span_removed (escape (Some t)))
                       <$> take (Z.to_nat (ai st)) tokA)
           ∧ rightHtml st
             = concat ((λ t, span_added (escape (Some t)))
                         <$> take (Z.to_nat (bi st)) tokB)))
    as (Ha & Hb & HL & HR).
  - intros s Hr [HL HR] Hg. pose proof Hr as [Hra Hrb].
    destruct (word_body_branches tokA tokB [] s Hr Hg)
      as [(Hai & _ & _ & Heq & _)|[(Hbi & ->)|(Hai & ->)]]; simpl.
    + destruct (arr_get_Some tokA (ai s)) as (ta & Hta & _); [lia|].
      rewrite Hta in Heq. unfold js_index, arr_get in Heq.
      by case_decide.
    + destruct (arr_get_Some tokB (bi s)) as (tb & -> & Htb); [lia|].
      rewrite (take_succ _ _ _ (proj1 Hrb) Htb).
      split; [done|].
      rewrite fmap_app, concat_app, HR. simpl. by rewrite app_nil_r.
    + destruct (arr_get_Some tokA (ai s)) as (ta & -> & Hta); [lia|].
      rewrite (take_succ _ _ _ (proj1 Hra) Hta).
      split; [|done].
      rewrite fmap_app, concat_app, HL. simpl. by rewrite app_nil_r.
  - done.
  - rewrite Ha, Nat2Z.id, firstn_all in HL.
    rewrite Hb, Nat2Z.id, firstn_all in HR. by rewrite HL, HR.
Qed.

(** X19. Two lines that share no token are highlighted entirely: every
    token of the left line is inside a removed marker and every token of
    the right line inside an added marker, that is, escaped and between
    [<span class="word-removed">] (or [<span class="word-added">]) and
    [</span>]. In particular this is what [wordDiff] returns when one of
    the two lines is empty. *)
Theorem wordDiff_no_common_token (lineA lineB : list Z) :
  Forall (λ t, t ∉ tokenizeWords lineB) (tokenizeWords lineA) →
  wordDiff lineA lineB
  = (concat ((λ t, lit "<span class=" ++ [34] ++ lit "word-removed"
                   ++ [34] ++ lit ">" ++ escape (Some t) ++ lit "</span>")
               <$> tokenizeWords lineA),
     concat ((λ t, lit "<span class=" ++ [34] ++ lit "word-added"
                   ++ [34] ++ lit ">" ++ escape (Some t) ++ lit "</span>")
               <$> tokenizeWords lineB)).
Proof.
  intros Hdisj.
  transitivity
    (concat ((λ t, span_removed (escape (Some t))) <$> tokenizeWords lineA),
     concat ((λ t, span_added (escape (Some t))) <$> tokenizeWords lineB));
    [|reflexivity].
  apply wordDiff_no_lcs.
  destruct (computeLCS_common (tokenizeWords lineA)
              (tokenizeWords lineB)) as (l & -> & Hla & Hlb).
  destruct l as [|t l]; [done|]. exfalso.
  apply sublist_cons_l in Hla as (k1 & k2 & Ha & _).
  apply sublist_cons_l in Hlb as (k3 & k4 & Hb & _).
  rewrite Forall_forall in Hdisj. apply (Hdisj t).
  - rewrite Ha, elem_of_app. right. by left.
  - rewrite Hb, elem_of_app. right. by left.
Qed.

Lemma wordDiff_no_common_token_witness :
  wordDiff (lit "a+b") (lit "c d")
  = (concat ((λ t, lit "<span class=" ++ [34] ++ lit "word-removed"
                   ++ [34] ++ lit ">" ++ escape (Some t) ++ lit "</span>")
               <$> tokenizeWords (lit "a+b")),
     concat ((λ t, lit "<span class=" ++ [34] ++ lit "word-added"
                   ++ [34] ++ lit ">" ++ escape (Some t) ++ lit "</span>")
               <$> tokenizeWords (lit "c d"))).
Proof.
  apply wordDiff_no_common_token.
  compute_done.
Defined.

(** ** The tokens of a line, read back *)

Lemma token_shape_head t :
  token_shape t →
  ∃ c t', t = c :: t'
    ∧ ((is_word c = true ∧ Forall (λ c, is_word c = true) t)
       ∨ (is_word c = false ∧ is_space c = true
          ∧ Forall (λ c, is_space c = true) t)
       ∨ (is_word c = false ∧ is_space c = false ∧ t' = [])).
Proof.
  intros [[Hne Hw]|[[Hne Hs]|(c & -> & Hw & Hs)]].
  - destruct t as [|c t']; [done|]. exists c, t'. split; [done|]. left.
    split; [|done]. by apply Forall_cons in Hw as [? _].
  - destruct t as [|c t']; [done|]. exists c, t'. split; [done|]. right. left.
    pose proof Hs as [Hc _]%Forall_cons. split; [|done].
    destruct (is_word c) eqn:Hw; [|done].
    by destruct (word_not_space c).
  - exists c, []. split; [done|]. right. right. done.
Qed.

Lemma match_tokens_concat toks fuel :
  Forall token_shape toks → runs_maximal toks →
  (length (concat toks) ≤ fuel)%nat →
  match_tokens fuel (concat toks) = toks.
Proof.
  revert fuel. induction toks as [|t toks IH]; intros fuel Hsh Hmax Hfuel.
  { simpl. apply match_tokens_nil. }
  apply Forall_cons in Hsh as [Ht Hsh]. destruct Hmax as [Hnext Hmax].
  destruct (token_shape_head t Ht) as (c & t' & -> & Hcase).
  cbn [concat] in *. rewrite length_app in Hfuel.
  destruct fuel as [|fuel]; [simpl in Hfuel; lia|].
  assert (∀ c2, head (concat toks) = Some c2 →
            ∃ t2 toks', toks = t2 :: toks' ∧ head t2 = Some c2) as Hhead.
  { intros c2 Hc2. destruct toks as [|t2 toks']; [done|].
    apply Forall_cons in Hsh as [Ht2 _].
    destruct (token_shape_head t2 Ht2) as (c' & t2' & -> & _).
    exists (c' :: t2'), toks'. split; [done|]. by simpl in *. }
  assert (∀ c1 p, last (c :: t') = Some c1 → p c1 = true →
            (∀ c1 c2, p c1 = true → p c2 = true →
               (is_word c1 = true ∧ is_word c2 = true)
               ∨ (is_space c1 = true ∧ is_space c2 = true)) →
            ∀ c2, head (concat toks) = Some c2 → p c2 = false) as Hstop.
  { intros c1 p Hlast Hp1 Hp c2 Hc2.
    destruct (Hhead c2 Hc2) as (t2 & toks' & -> & Ht2).
    destruct (Hnext c1 c2 Hlast Ht2) as [Hnw Hns].
    destruct (p c2) eqn:Hp2; [|done].
    destruct (Hp c1 c2 Hp1 Hp2); tauto. }
  assert (∀ p : Z → bool, Forall (λ c, p c = true) (c :: t') →
            ∃ c1, last (c :: t') = Some c1 ∧ p c1 = true) as Hlast.
  { intros p Hall. destruct (last (c :: t')) as [c1|] eqn:Hl.
    - exists c1. split; [done|]. rewrite Forall_forall in Hall.
      apply Hall. by apply last_Some_elem_of.
    - by apply last_None in Hl. }
  change ((c :: t') ++ concat toks) with (c :: (t' ++ concat toks)).
  cbn [match_tokens].
  destruct Hcase as [[Hw Hall]|[(Hw & Hs & Hall)|(Hw & Hs & ->)]].
  - rewrite Hw.
    destruct (Hlast is_word Hall) as (c1 & Hl1 & Hc1).
    destruct (take_while_app_stop is_word (c :: t') (concat toks))
      as [Htake Hdrop]; [done| |].
    { apply (Hstop c1 is_word Hl1 Hc1). auto. }
    cbn [app] in Htake, Hdrop. rewrite Htake, Hdrop.
    f_equal. apply IH; [done|done|simpl in Hfuel; lia].
  - rewrite Hw, Hs.
    destruct (Hlast is_space Hall) as (c1 & Hl1 & Hc1).
    destruct (take_while_app_stop is_space (c :: t') (concat toks))
      as [Htake Hdrop]; [done| |].
    { apply (Hstop c1 is_space Hl1 Hc1). auto. }
    cbn [app] in Htake, Hdrop. rewrite Htake, Hdrop.
    f_equal. apply IH; [done|done|simpl in Hfuel; lia].
  - rewrite Hw, Hs. cbn [orb negb app].
    f_equal. apply IH; [done|done|simpl in Hfuel; lia].
Qed.

(** X20. The tokens of a line are the only way to cut it into runs:
    any list of tokens (runs of word characters, runs of whitespace,
    single other symbols) of which no two neighbours belong to one run
    is what [tokenizeWords] returns for its concatenation. *)
Theorem tokenizeWords_concat (toks : list (list Z)) :
  Forall token_shape toks → runs_maximal toks →
  tokenizeWords (concat toks) = toks.
Proof. intros Hsh Hmax. by apply match_tokens_concat. Qed.

Lemma tokenizeWords_concat_witness :
  tokenizeWords (concat [lit "ab"; lit " "; lit "+"])
  = [lit "ab"; lit " "; lit "+"].
Proof.
  apply tokenizeWords_concat.
  - apply List.Forall_cons; [left; split; [done|compute_done]|].
    apply List.Forall_cons; [right; left; split; [done|compute_done]|].
    apply List.Forall_cons; [right; right; by exists 43|].
    apply List.Forall_nil.
  - split; [|split; [|done]].
    + intros c1 c2 H1 H2. injection H1 as <-. injection H2 as <-.
      split; intros [H3 H4]; discriminate.
    + intros c1 c2 H1 H2. injection H1 as <-. injection H2 as <-.
      split; intros [H3 H4]; discriminate.
Defined.

(** ** Which rows the renderers show *)

Lemma set_range_lookup (n lo : Z) (V : list Z) (j : nat) :
  0 ≤ lo →
  length (foldl (λ v k, <[Z.to_nat k := 1]> v) V (seqZ lo n)) = length V
  ∧ foldl (λ v k, <[Z.to_nat k := 1]> v) V (seqZ lo n) !! j
    = if decide (lo ≤ Z.of_nat j < lo + n ∧ (j < length V)%nat)
      then Some 1 else V !! j.
Proof.
  intros Hlo. destruct (decide (n < 0)) as [Hneg|Hpos].
  { rewrite seqZ_nil by lia. simpl. split; [done|].
    by rewrite decide_False by lia. }
  replace n with (Z.of_nat (Z.to_nat n)) by lia.
  generalize (Z.to_nat n). clear n Hpos. intros cnt.
  induction cnt as [|cnt [IHlen IH]].
  { simpl. split; [done|]. by rewrite decide_False by lia. }
  rewrite seqZ_S, foldl_app. cbn [foldl].
  split; [by rewrite length_insert|].
  destruct (decide (j = Z.to_nat (lo + Z.of_nat cnt))) as [->|Hne].
  - destruct (decide ((Z.to_nat (lo + Z.of_nat cnt) < length V)%nat))
      as [Hin|Hout].
    + rewrite list_lookup_insert_eq by (rewrite IHlen; lia).
      by rewrite decide_True by lia.
    + rewrite list_insert_ge by (rewrite IHlen; lia). rewrite IH.
      repeat case_decide; (done || lia).
  - rewrite list_lookup_insert_ne by done. rewrite IH.
    repeat case_decide; (done || lia).
Qed.

Section Visible.
Variable len : Z.

Local Abbreviation mark :=
  (λ (visible : list Z) '(i, h),
     if bool_decide (type h ≠ Equal) then
       foldl (λ visible j, <[Z.to_nat j := 1]> visible) visible
         (seqZ (0 `max` (i - CONTEXT_LINES))
            (len `min` (i + CONTEXT_LINES + 1)
             - 0 `max` (i - CONTEXT_LINES)))
     else visible).

Lemma mark_from (rest : list hunk) (s : Z) (V : list Z) (j : nat) :
  0 ≤ s → s + Z.of_nat (length rest) = len → length V = Z.to_nat len →
  let V' := foldl mark V (zip (seqZ s (Z.of_nat (length rest))) rest) in
  (V' !! j = Some 1 ↔
     V !! j = Some 1
     ∨ ((j < length V)%nat
        ∧ ∃ (i : nat) h,
            rest !! i = Some h ∧ type h ≠ Equal
            ∧ s + Z.of_nat i - CONTEXT_LINES ≤ Z.of_nat j
              ≤ s + Z.of_nat i + CONTEXT_LINES))
  ∧ (V' !! j ≠ Some 1 → V' !! j = V !! j).
Proof.
  revert s V. induction rest as [|h rest IH]; intros s V Hs Hlen HV V'.
  { unfold V'. simpl. split; [|done]. split; [by left|].
    intros [?|(_ & i & h & ? & _)]; done. }
  unfold V'. cbn [length]. rewrite seqZ_cons by lia. cbn [zip zip_with foldl].
  replace (Z.pred (Z.of_nat (S (length rest))))
    with (Z.of_nat (length rest)) by lia.
  set (V1 := if bool_decide (type h ≠ Equal) then _ else V).
  assert (length V1 = length V
          ∧ V1 !! j
            = if decide (type h ≠ Equal
                         ∧ s - CONTEXT_LINES ≤ Z.of_nat j ≤ s + CONTEXT_LINES
                         ∧ (j < length V)%nat)
              then Some 1 else V !! j) as [HV1 Hj1].
  { unfold V1. case_bool_decide as Ht.
    - destruct (set_range_lookup
                  (len `min` (s + CONTEXT_LINES + 1)
                   - 0 `max` (s - CONTEXT_LINES))
                  (0 `max` (s - CONTEXT_LINES)) V j) as [Hl ->]; [lia|].
      split; [done|]. unfold CONTEXT_LINES in *.
      case_decide as H1; case_decide as H2; try done; exfalso.
      + apply H2. split; [done|]. lia.
      + apply H1. destruct H2 as (_ & ? & ?). lia.
    - split; [done|]. rewrite decide_False; [done|]. tauto. }
  unfold Z.succ.
  destruct (IH (s + 1) V1) as [IH1 IH2]; [lia|cbn [length] in Hlen; lia|lia|].
  rewrite HV1 in IH1. split.
  - rewrite IH1, Hj1. split.
    + intros [H1|(Hj & i & h' & Hi & Ht & Hr)].
      * case_decide as Hd; [|by left]. right. split; [lia|].
        exists 0%nat, h. simpl. split; [done|]. split; [tauto|]. lia.
      * right. split; [done|]. exists (S i), h'. simpl.
        split; [done|]. split; [done|]. lia.
    + intros [H1|(Hj & [|i] & h' & Hi & Ht & Hr)].
      * left. case_decide; [done|done].
      * simpl in Hi. injection Hi as <-. left.
        rewrite decide_True; [done|]. split; [done|]. lia.
      * right. split; [done|]. exists i, h'. simpl in Hi.
        split; [done|]. split; [done|]. lia.
  - intros Hne. rewrite IH2 by done. rewrite Hj1.
    case_decide as Hd; [|done]. exfalso. apply Hne.
    apply IH1. by left.
Qed.

End Visible.

(** X21. A hunk is shown by the renderers exactly when it lies within
    [CONTEXT_LINES] hunks of a hunk that is not [equal]: [visible] has
    one flag per hunk, the flag is 1 for these hunks and 0 for all
    others. *)
Theorem mark_visible_context (hunks : list hunk) :
  length (mark_visible hunks) = length hunks
  ∧ ∀ j : nat, (j < length hunks)%nat →
      (mark_visible hunks !! j = Some 1 ∧ near_change hunks j)
      ∨ (mark_visible hunks !! j = Some 0 ∧ ¬ near_change hunks j).
Proof.
  split; [apply mark_visible_length|]. intros j Hj.
  unfold mark_visible. cbv zeta.
  destruct (mark_from (Z.of_nat (length hunks)) hunks 0
              (replicate (length hunks) 0) j) as [H1 H2];
    [lia|lia|rewrite length_replicate; lia|].
  cbv zeta in H1, H2. rewrite length_replicate in H1.
  rewrite lookup_replicate_2 in H1, H2 by done.
  set (V := foldl _ _ _) in *.
  assert (near_change hunks j ↔ V !! j = Some 1) as Hnear.
  { rewrite H1. unfold near_change. split.
    - intros (i & h & ? & ? & ?). right. split; [done|].
      exists i, h. split; [done|]. split; [done|]. lia.
    - intros [?|(_ & i & h & ? & ? & ?)]; [done|].
      exists i, h. split; [done|]. split; [done|]. lia. }
  destruct (decide (V !! j = Some 1)) as [Hv|Hv].
  - left. split; [done|]. by apply Hnear.
  - right. split; [by apply H2|]. by rewrite Hnear.
Qed.

(** ** Line numbers *)

(** What the renderers rely on: the sides of every hunk, and the line
    indexes of each side in order. *)
Lemma myersDiff_layout (left right : list (list Z)) (ignoreWhitespace : bool) :
  2 * (Z.of_nat (length left) + Z.of_nat (length right)) < 2 ^ 31 →
  let hunks := myersDiff left right ignoreWhitespace in
  Forall (hunk_sides left right) hunks
  ∧ lStart <$> with_left hunks = seqZ 0 (Z.of_nat (length left))
  ∧ rStart <$> with_right hunks = seqZ 0 (Z.of_nat (length right))
  ∧ concat (lLines <$> with_left hunks) = Some <$> left
  ∧ concat (rLines <$> with_right hunks) = Some <$> right.
Proof.
  intros Hsize hunks.
  destruct (myersDiff_edits left right ignoreWhitespace Hsize)
    as (edits & Hp & Hv & Hl & Hr).
  destruct (parsed_left _ _ _ _ Hp) as [Hl1 Hl2].
  destruct (parsed_right _ _ _ _ Hp) as [Hr1 Hr2].
  fold hunks in Hl1, Hl2, Hr1, Hr2.
  split; [by eapply parsed_sides|].
  rewrite Hl1, Hr1, Hl2, Hr2.
  rewrite (list_fmap_compose li (arr_get left)).
  rewrite (list_fmap_compose ri (arr_get right)).
  rewrite Hl, Hr. by rewrite !arr_get_seqZ.
Qed.

(** A side is present exactly when its index is not negative. *)
Lemma hunk_sides_index left right h :
  hunk_sides left right h →
  (0 ≤ lStart h ↔ type h ≠ Added) ∧ (0 ≤ rStart h ↔ type h ≠ Removed).
Proof.
  unfold hunk_sides, side_present, side_absent.
  destruct (type h); intros [Hl Hr]; split; split; intros ?;
    try done; lia.
Qed.

Lemma with_left_cons h hunks :
  with_left (h :: hunks)
  = if decide (type h ≠ Added) then h :: with_left hunks
    else with_left hunks.
Proof.
  unfold with_left. case_decide.
  - by rewrite filter_cons_True by done.
  - by rewrite filter_cons_False by tauto.
Qed.

Lemma with_right_cons h hunks :
  with_right (h :: hunks)
  = if decide (type h ≠ Removed) then h :: with_right hunks
    else with_right hunks.
Proof.
  unfold with_right. case_decide.
  - by rewrite filter_cons_True by done.
  - by rewrite filter_cons_False by tauto.
Qed.

Lemma seqZ_cons_inv (x : Z) (l : list Z) s cnt :
  x :: l = seqZ s cnt → x = s ∧ l = seqZ (s + 1) (cnt - 1).
Proof.
  intros Heq. destruct (decide (0 < cnt)) as [Hc|Hc].
  - rewrite seqZ_cons in Heq by done. by injection Heq as -> ->.
  - by rewrite seqZ_nil in Heq by lia.
Qed.

Lemma line_numbers_spec hunks l r cl cr :
  Forall (λ h, (0 ≤ lStart h ↔ type h ≠ Added)
               ∧ (0 ≤ rStart h ↔ type h ≠ Removed)) hunks →
  lStart <$> with_left hunks = seqZ (l - 1) cl →
  rStart <$> with_right hunks = seqZ (r - 1) cr →
  line_numbers hunks l r
  = (λ h, (if bool_decide (0 ≤ lStart h) then Some (lStart h + 1) else None,
           if bool_decide (0 ≤ rStart h) then Some (rStart h + 1) else None))
    <$> hunks.
Proof.
  intros Hs. revert l r cl cr.
  induction Hs as [|h hunks [Hhl Hhr] _ IH]; intros l r cl cr Hl Hr; [done|].
  cbn [line_numbers]. rewrite fmap_cons.
  rewrite with_left_cons in Hl. rewrite with_right_cons in Hr.
  assert (∃ l' cl', (if bool_decide (0 ≤ lStart h) then l + 1 else l) = l'
            ∧ lStart <$> with_left hunks = seqZ (l' - 1) cl'
            ∧ (0 ≤ lStart h → l = lStart h + 1)) as (l' & cl' & -> & Hl' & Hle).
  { case_bool_decide as Hb.
    - rewrite decide_True in Hl by by apply Hhl.
      rewrite fmap_cons in Hl. apply seqZ_cons_inv in Hl as [Hx Hl].
      exists (l + 1), (cl - 1). split; [done|].
      split; [by replace (l + 1 - 1) with (l - 1 + 1) by lia|]. lia.
    - rewrite decide_False in Hl by (rewrite <- Hhl; lia).
      exists l, cl. split; [done|]. split; [done|]. lia. }
  assert (∃ r' cr', (if bool_decide (0 ≤ rStart h) then r + 1 else r) = r'
            ∧ rStart <$> with_right hunks = seqZ (r' - 1) cr'
            ∧ (0 ≤ rStart h → r = rStart h + 1)) as (r' & cr' & -> & Hr' & Hre).
  { case_bool_decide as Hb.
    - rewrite decide_True in Hr by by apply Hhr.
      rewrite fmap_cons in Hr. apply seqZ_cons_inv in Hr as [Hx Hr].
      exists (r + 1), (cr - 1). split; [done|].
      split; [by replace (r + 1 - 1) with (r - 1 + 1) by lia|]. lia.
    - rewrite decide_False in Hr by (rewrite <- Hhr; lia).
      exists r, cr. split; [done|]. split; [done|]. lia. }
  rewrite (IH _ _ _ _ Hl' Hr'). f_equal.
  repeat case_bool_decide; try done; f_equal; try f_equal; lia.
Qed.

(** X22. The line numbers that [renderSideBySide] precomputes for the
    hunks of [myersDiff] are the line numbers of the texts: a side that
    is present is numbered with its line index plus one, a side that is
    absent has no number. *)
Theorem line_numbers_are_line_indexes
    (left right : list (list Z)) (ignoreWhitespace : bool) :
  2 * (Z.of_nat (length left) + Z.of_nat (length right)) < 2 ^ 31 →
  let hunks := myersDiff left right ignoreWhitespace in
  line_numbers hunks 1 1
  = (λ h, (if bool_decide (type h ≠ Added) then Some (lStart h + 1) else None,
           if bool_decide (type h ≠ Removed) then Some (rStart h + 1)
           else None))
    <$> hunks.
Proof.
  intros Hsize hunks.
  destruct (myersDiff_layout left right ignoreWhitespace Hsize)
    as (Hs & Hl & Hr & _).
  fold hunks in Hs, Hl, Hr.
  assert (Forall (λ h, (0 ≤ lStart h ↔ type h ≠ Added)
                       ∧ (0 ≤ rStart h ↔ type h ≠ Removed)) hunks) as Hidx.
  { eapply Forall_impl; [done|]. apply hunk_sides_index. }
  rewrite (line_numbers_spec hunks 1 1 _ _ Hidx Hl Hr).
  apply Forall_fmap_ext_1. eapply Forall_impl; [exact Hidx|].
  intros h [H1 H2]. simpl.
  rewrite (bool_decide_ext _ _ H1), (bool_decide_ext _ _ H2). done.
Qed.

Lemma line_numbers_are_line_indexes_witness :
  let hunks := myersDiff [lit "a"; lit "b"] [lit "b"; lit "c"] false in
  line_numbers hunks 1 1
  = (λ h, (if bool_decide (type h ≠ Added) then Some (lStart h + 1) else None,
           if bool_decide (type h ≠ Removed) then Some (rStart h + 1)
           else None))
    <$> hunks.
Proof.
  apply (line_numbers_are_line_indexes [lit "a"; lit "b"]
           [lit "b"; lit "c"] false).
  done.
Defined.

Lemma filter_index {A} (P : A → Prop) `{∀ x, Decision (P x)} (f : A → Z)
    (l : list A) (k : nat) x n :
  f <$> filter P l = seqZ 0 n → l !! k = Some x → P x →
  f x = Z.of_nat (length (filter P (take k l))).
Proof.
  intros Hseq Hk Hx.
  rewrite <- (take_drop_middle l k x Hk) in Hseq.
  rewrite list.filter_app, filter_cons_True, fmap_app, fmap_cons in Hseq by done.
  assert (seqZ 0 n !! length (f <$> filter P (take k l)) = Some (f x)) as Hl.
  { rewrite <- Hseq. by rewrite list_lookup_middle. }
  apply lookup_seqZ in Hl as [-> _]. rewrite length_fmap. lia.
Qed.

Lemma inline_loop_app rows1 rows2 st :
  inline_loop (rows1 ++ rows2) st
  = inline_loop rows1 st ≫= inline_loop rows2.
Proof.
  revert st. induction rows1 as [|[i [h visible]] rows1 IH]; intros st;
    [done|].
  cbn [app inline_loop]. destruct (bool_decide (visible = 0)); [apply IH|].
  cbv zeta. destruct (type h); try apply IH.
  destruct (wordDiff_values _ _) as [[l r]|]; [apply IH|done].
Qed.

(** The two counters of [renderInline] count the hunks that have a
    left side, a right side. *)
Lemma inline_counters rows st st' :
  Forall (λ row : Z * (hunk * Z),
            (0 ≤ lStart row.2.1 ↔ type row.2.1 ≠ Added)
            ∧ (0 ≤ rStart row.2.1 ↔ type row.2.1 ≠ Removed)) rows →
  inline_loop rows st = Some st' →
  i_lLineNum st'
  = i_lLineNum st
    + Z.of_nat (length (with_left ((λ row, row.2.1) <$> rows)))
  ∧ i_rLineNum st'
    = i_rLineNum st
      + Z.of_nat (length (with_right ((λ row, row.2.1) <$> rows))).
Proof.
  intros Hrows. revert st.
  induction Hrows as [|[i [h visible]] rows [Hl Hr] _ IH]; intros st.
  { simpl. intros [= <-]. lia. }
  cbn [inline_loop]. rewrite fmap_cons, with_left_cons, with_right_cons.
  simpl in Hl, Hr. cbn [fst snd].
  destruct (bool_decide (visible = 0)).
  - intros Hloop. apply IH in Hloop as [-> ->].
    cbn [i_lLineNum i_rLineNum].
    repeat case_bool_decide; repeat case_decide;
      try tauto; cbn [length]; lia.
  - cbv zeta. destruct (type h) eqn:Ht.
    + intros Hloop. apply IH in Hloop as [-> ->].
      cbn [i_lLineNum i_rLineNum]. simpl. lia.
    + destruct (wordDiff_values _ _) as [[l r]|]; [|done].
      intros Hloop. apply IH in Hloop as [-> ->].
      cbn [i_lLineNum i_rLineNum]. simpl. lia.
    + intros Hloop. apply IH in Hloop as [-> ->].
      cbn [i_lLineNum i_rLineNum]. simpl. lia.
    + intros Hloop. apply IH in Hloop as [-> ->].
      cbn [i_lLineNum i_rLineNum]. simpl. lia.
Qed.

Lemma rows_hunks {A B} (idx : list A) (hunks : list hunk) (xs : list B) :
  length idx = length hunks → length xs = length hunks →
  (λ row : A * (hunk * B), row.2.1) <$> zip idx (zip hunks xs) = hunks.
Proof.
  revert idx xs. induction hunks as [|h hunks IH];
    intros [|i idx] [|x xs] Hi Hx; try done.
  simpl in Hi, Hx. cbn. f_equal. apply IH; lia.
Qed.

(** X23. [renderInline] numbers the rows of the hunks of [myersDiff]
    with the line numbers of the texts: when its row loop reaches a
    hunk, the counter of each side that the hunk has holds the line
    index of that side plus one. This holds although invisible rows are
    counted by their indexes and visible rows by their types. *)
Theorem inline_counters_are_line_indexes
    (left right : list (list Z)) (ignoreWhitespace : bool)
    (k : nat) (h : hunk) (html : list Z) :
  2 * (Z.of_nat (length left) + Z.of_nat (length right)) < 2 ^ 31 →
  let hunks := myersDiff left right ignoreWhitespace in
  let rows := zip (seqZ 0 (Z.of_nat (length hunks)))
                (zip hunks (mark_visible hunks)) in
  let start := InlineState html (-1) 1 1 in
  hunks !! k = Some h →
  ∃ st,
    inline_loop (take k rows) start = Some st
    ∧ inline_loop rows start = inline_loop (drop k rows) st
    ∧ (type h ≠ Added → i_lLineNum st = lStart h + 1)
    ∧ (type h ≠ Removed → i_rLineNum st = rStart h + 1).
Proof.
  intros Hsize hunks rows start Hk.
  destruct (myersDiff_layout left right ignoreWhitespace Hsize)
    as (Hs & Hl & Hr & _).
  fold hunks in Hs, Hl, Hr.
  assert (Forall (λ row : Z * (hunk * Z), lines_present row.2.1) rows)
    as Hpresent.
  { apply Forall_zip_hunks. eapply Forall_impl; [done|].
    apply hunk_sides_lines_present. }
  assert (Forall (λ row : Z * (hunk * Z),
                    (0 ≤ lStart row.2.1 ↔ type row.2.1 ≠ Added)
                    ∧ (0 ≤ rStart row.2.1 ↔ type row.2.1 ≠ Removed)) rows)
    as Hidx.
  { apply (Forall_zip_hunks
             (λ h, (0 ≤ lStart h ↔ type h ≠ Added)
                   ∧ (0 ≤ rStart h ↔ type h ≠ Removed))).
    eapply Forall_impl; [done|]. apply hunk_sides_index. }
  destruct (inline_loop_total (take k rows) start) as [st Hst].
  { by apply Forall_take. }
  exists st. split; [done|]. split.
  { rewrite <- (take_drop k rows) at 1. by rewrite inline_loop_app, Hst. }
  destruct (inline_counters (take k rows) start st) as [Hcl Hcr];
    [by apply Forall_take|done|].
  rewrite fmap_take in Hcl, Hcr.
  unfold rows in Hcl, Hcr. rewrite rows_hunks in Hcl, Hcr
    by (rewrite ?length_seqZ, ?mark_visible_length; lia).
  cbn [start i_lLineNum i_rLineNum] in Hcl, Hcr.
  split; intros Ht.
  - rewrite (filter_index (λ h, type h ≠ Added) lStart hunks k h _ Hl Hk Ht).
    unfold with_left in Hcl. lia.
  - rewrite (filter_index (λ h, type h ≠ Removed) rStart hunks k h _ Hr Hk Ht).
    unfold with_right in Hcr. lia.
Qed.

Lemma inline_counters_are_line_indexes_witness :
  let hunks := myersDiff [lit "a"; lit "b"] [lit "b"; lit "c"] false in
  let rows := zip (seqZ 0 (Z.of_nat (length hunks)))
                (zip hunks (mark_visible hunks)) in
  let start := InlineState [] (-1) 1 1 in
  ∃ st,
    inline_loop (take 2 rows) start = Some st
    ∧ inline_loop rows start = inline_loop (drop 2 rows) st
    ∧ (Added ≠ Added → i_lLineNum st = -1 + 1)
    ∧ (Added ≠ Removed → i_rLineNum st = 1 + 1).
Proof.
  apply (inline_counters_are_line_indexes [lit "a"; lit "b"]
           [lit "b"; lit "c"] false 2
           (Hunk Added [Some []] [Some (lit "c")] (-1) 1) []).
  - done.
  - vm_compute. reflexivity.
Defined.

(** ** The plain-text diff *)

Lemma renderPlainText_from out hunks :
  foldl (λ out h,
           match type h with
           | Equal => out ++ lit "  " ++ to_str (first_line (lLines h)) ++ [10]
           | Removed => out ++ lit "- " ++ to_str (first_line (lLines h)) ++ [10]
           | Added => out ++ lit "+ " ++ to_str (first_line (rLines h)) ++ [10]
           | Changed =>
               out ++ lit "- " ++ to_str (first_line (lLines h)) ++ [10]
               ++ lit "+ " ++ to_str (first_line (rLines h)) ++ [10]
           end)
    out hunks
  = out ++ concat ((λ row, [row.1; 32] ++ row.2 ++ [10])
                     <$> (hunks ≫= plain_rows)).
Proof.
  revert out. induction hunks as [|h hunks IH]; intros out.
  { simpl. by rewrite app_nil_r. }
  cbn [foldl]. rewrite IH. rewrite bind_cons, fmap_app, concat_app.
  change (lit "  ") with [32; 32]. change (lit "- ") with [45; 32].
  change (lit "+ ") with [43; 32].
  unfold plain_rows.
  destruct (type h); cbn [fmap list_fmap concat fst snd];
    rewrite <- ?app_assoc; cbn [app]; done.
Qed.

Lemma renderPlainText_rows hunks :
  renderPlainText hunks
  = concat ((λ row, [row.1; 32] ++ row.2 ++ [10]) <$> (hunks ≫= plain_rows)).
Proof. unfold renderPlainText. by rewrite renderPlainText_from. Qed.

Section PlainSides.
Variables left right : list (list Z).
Variable f : list Z → list Z.

(** The lines of the rows that are not insertions are the left lines of
    the hunks. *)
Lemma plain_rows_left hunks :
  Forall (hunk_sides left right) hunks →
  Some <$> (filter (λ row, row.1 ≠ 43) (hunks ≫= plain_rows)).*2
  = concat (lLines <$> with_left hunks).
Proof.
  induction 1 as [|h hunks Hh _ IH]; [done|].
  rewrite bind_cons, !list.filter_app, !fmap_app, IH, with_left_cons.
  unfold hunk_sides, side_present, side_absent in Hh.
  unfold plain_rows. destruct (type h) eqn:Ht;
    rewrite ?decide_True by done; rewrite ?decide_False by tauto;
    rewrite ?fmap_cons; cbn [concat].
  - destruct Hh as [(_ & l & _ & Hl) _]. rewrite ?Hl. simpl. by rewrite ?Hl.
  - destruct Hh as [(_ & l & _ & Hl) _]. rewrite ?Hl. simpl. by rewrite ?Hl.
  - destruct Hh as [(_ & l & _ & Hl) _]. rewrite ?Hl. simpl. by rewrite ?Hl.
  - done.
Qed.

(** Those of the rows that are not deletions are the right lines, but
    for an equal hunk, which shows its left line. *)
Lemma plain_rows_right hunks :
  Forall (hunk_sides left right) hunks →
  Forall (λ h, type h = Equal →
            ∃ l r, lLines h = [Some l] ∧ rLines h = [Some r] ∧ f l = f r)
    hunks →
  Some ∘ f <$> (filter (λ row, row.1 ≠ 45) (hunks ≫= plain_rows)).*2
  = fmap f <$> concat (rLines <$> with_right hunks).
Proof.
  intros Hs. induction Hs as [|h hunks Hh _ IH]; intros Heq; [done|].
  apply Forall_cons in Heq as [Hheq Heq].
  rewrite bind_cons, !list.filter_app, !fmap_app, (IH Heq), with_right_cons.
  unfold hunk_sides, side_present, side_absent in Hh.
  unfold plain_rows. destruct (type h) eqn:Ht;
    rewrite ?decide_True by done; rewrite ?decide_False by tauto;
    rewrite ?fmap_cons; cbn [concat].
  - destruct (Hheq eq_refl) as (l & r & Hl & Hr & Hf).
    rewrite Hl, Hr. simpl. by rewrite Hf.
  - destruct Hh as [_ (_ & r & _ & Hr)]. rewrite ?Hr. simpl. by rewrite ?Hr.
  - done.
  - destruct Hh as [_ (_ & r & _ & Hr)]. rewrite ?Hr. simpl. by rewrite ?Hr.
Qed.

End PlainSides.

Lemma plain_rows_signs hunks :
  Forall (λ row : Z * list Z, row.1 = 32 ∨ row.1 = 45 ∨ row.1 = 43)
    (hunks ≫= plain_rows).
Proof.
  induction hunks as [|h hunks IH]; [constructor|].
  rewrite bind_cons. apply Forall_app. split; [|done].
  unfold plain_rows.
  destruct (type h);
    repeat (apply List.Forall_cons; [simpl; auto|]); apply List.Forall_nil.
Qed.

(** X24. The plain-text diff of the hunks of [myersDiff] is a list of
    rows, each a sign (space, minus or plus), a space, a line and a line
    feed. The lines of the rows that are not insertions are the left
    lines, in order. The lines of the rows that are not deletions are
    the right lines up to normalisation: an equal hunk shows its left
    line only; without [ignoreWhitespace] they are the right lines. *)
Theorem plain_text_reads_back
    (left right : list (list Z)) (ignoreWhitespace : bool) :
  2 * (Z.of_nat (length left) + Z.of_nat (length right)) < 2 ^ 31 →
  ∃ rows : list (Z * list Z),
    renderPlainText (myersDiff left right ignoreWhitespace)
    = concat ((λ row, [row.1; 32] ++ row.2 ++ [10]) <$> rows)
    ∧ Forall (λ row, row.1 = 32 ∨ row.1 = 45 ∨ row.1 = 43) rows
    ∧ (filter (λ row, row.1 ≠ 43) rows).*2 = left
    ∧ (λ l, normalizeForCompare l ignoreWhitespace)
        <$> (filter (λ row, row.1 ≠ 45) rows).*2
      = (λ l, normalizeForCompare l ignoreWhitespace) <$> right
    ∧ (ignoreWhitespace = false →
       (filter (λ row, row.1 ≠ 45) rows).*2 = right).
Proof.
  intros Hsize.
  destruct (myersDiff_layout left right ignoreWhitespace Hsize)
    as (Hs & _ & _ & Hl & Hr).
  pose proof (equal_hunks_lines left right ignoreWhitespace Hsize) as Heq.
  set (hunks := myersDiff left right ignoreWhitespace) in *.
  set (f := λ l, normalizeForCompare l ignoreWhitespace).
  pose proof (plain_rows_left left right hunks Hs) as Hpl.
  assert (Some ∘ f <$> (filter (λ row, row.1 ≠ 45) (hunks ≫= plain_rows)).*2
          = fmap f <$> concat (rLines <$> with_right hunks)) as Hpr.
  { apply (plain_rows_right left right f hunks Hs).
    eapply Forall_impl; [exact Heq|]. intros h Hh Ht.
    destruct (Hh Ht) as (l & r & _ & _ & _ & _ & ? & ? & ?). by exists l, r. }
  rewrite Hl in Hpl. rewrite Hr in Hpr.
  apply (inj (fmap Some)) in Hpl.
  assert (f <$> (filter (λ row, row.1 ≠ 45) (hunks ≫= plain_rows)).*2
          = f <$> right) as Hpr'.
  { apply (inj (fmap Some)).
    rewrite <- (list_fmap_compose f Some right).
    rewrite <- (list_fmap_compose f Some).
    rewrite <- (list_fmap_compose Some (fmap f)) in Hpr. exact Hpr. }
  clear Hpr. rename Hpr' into Hpr.
  exists (hunks ≫= plain_rows).
  split; [apply renderPlainText_rows|]. split; [apply plain_rows_signs|].
  split; [done|]. split; [done|].
  intros ->. unfold f in Hpr. simpl in Hpr. by rewrite !list_fmap_id in Hpr.
Qed.

Lemma plain_text_reads_back_witness :
  ∃ rows : list (Z * list Z),
    renderPlainText (myersDiff [lit "a "; lit "b"] [lit " a"; lit "c"] true)
    = concat ((λ row, [row.1; 32] ++ row.2 ++ [10]) <$> rows)
    ∧ Forall (λ row, row.1 = 32 ∨ row.1 = 45 ∨ row.1 = 43) rows
    ∧ (filter (λ row, row.1 ≠ 43) rows).*2 = [lit "a "; lit "b"]
    ∧ (λ l, normalizeForCompare l true)
        <$> (filter (λ row, row.1 ≠ 45) rows).*2
      = (λ l, normalizeForCompare l true) <$> [lit " a"; lit "c"]
    ∧ (true = false →
       (filter (λ row, row.1 ≠ 45) rows).*2 = [lit " a"; lit "c"]).
Proof. apply plain_text_reads_back. done. Defined.

(** ** The entry point on plain text *)

Lemma splitLines_length_le text :
  (length (splitLines text) ≤ S (length text))%nat.
Proof.
  destruct (split_from_spec (length text) text [] (le_n _) no_lf_nil)
    as (_ & Hl & _).
  unfold splitLines. rewrite Hl. pose proof (length_filter (λ c, c = 10) text).
  lia.
Qed.

Lemma side_loop_prefix rows html sk html' sk' :
  side_loop rows html sk = Some (html', sk') → ∃ suffix, html' = html ++ suffix.
Proof.
  revert html sk.
  induction rows as [|[i [h [nums visible]]] rows IH]; intros html sk.
  { simpl. intros [= <- _]. exists []. by rewrite app_nil_r. }
  cbn [side_loop]. destruct (bool_decide (visible = 0)); [apply IH|].
  destruct (side_cells h) as [[lHtml rHtml]|]; [|done].
  intros Hloop. apply IH in Hloop as [suffix ->].
  case_bool_decide; rewrite <- ?app_assoc; by eexists.
Qed.

Lemma inline_loop_prefix rows st st' :
  inline_loop rows st = Some st' → ∃ suffix, i_html st' = i_html st ++ suffix.
Proof.
  revert st. induction rows as [|[i [h visible]] rows IH]; intros st.
  { simpl. intros [= <-]. exists []. by rewrite app_nil_r. }
  cbn [inline_loop]. destruct (bool_decide (visible = 0)).
  { intros Hloop. apply IH in Hloop as [suffix Hs]. by exists suffix. }
  cbv zeta.
  destruct (type h);
    [|destruct (wordDiff_values _ _) as [[l r]|]; [|done]| |];
    intros Hloop; apply IH in Hloop as [suffix Hs]; cbn [i_html] in Hs;
    rewrite Hs; case_bool_decide; rewrite <- ?app_assoc; by eexists.
Qed.

(** A table is not the placeholder. *)
Lemma table_not_placeholder rest : lit "<table" ++ rest ≠ no_differences.
Proof. intros Heq. vm_compute in Heq. discriminate Heq. Qed.

Lemma renderSideBySide_placeholder hunks html :
  renderSideBySide hunks = Some html →
  html = no_differences ↔ hasChanges hunks = false.
Proof.
  unfold renderSideBySide. destruct (hasChanges hunks); cbn [negb].
  2:{ intros [= <-]. done. }
  destruct (side_loop _ _ _) as [[html' sk]|] eqn:Hloop; [|done].
  apply side_loop_prefix in Hloop as [suffix ->].
  intros Hsome. apply (inj Some) in Hsome. rewrite <- Hsome.
  split; [|done]. intros Heq. exfalso.
  change (lit "<table class=") with (lit "<table" ++ lit " class=") in Heq.
  case_bool_decide; rewrite <- !app_assoc in Heq;
    by apply table_not_placeholder in Heq.
Qed.

Lemma renderInline_placeholder hunks html :
  renderInline hunks = Some html →
  html = no_differences ↔ hasChanges hunks = false.
Proof.
  unfold renderInline. destruct (hasChanges hunks); cbn [negb].
  2:{ intros [= <-]. done. }
  destruct (inline_loop _ _) as [st|] eqn:Hloop; [|done].
  apply inline_loop_prefix in Hloop as [suffix Hst]. cbn [i_html] in Hst.
  intros Hsome. apply (inj Some) in Hsome. rewrite <- Hsome.
  split; [|done]. intros Heq. exfalso. rewrite Hst in Heq.
  change (lit "<table class=") with (lit "<table" ++ lit " class=") in Heq.
  case_bool_decide; rewrite <- !app_assoc in Heq;
    by apply table_not_placeholder in Heq.
Qed.

Lemma run_lines_result (leftText rightText : list Z) (opts : options) :
  2 * (Z.of_nat (length leftText) + Z.of_nat (length rightText) + 2) < 2 ^ 31 →
  let hunks := myersDiff (splitLines leftText) (splitLines rightText)
                 (ignoreWhitespace opts) in
  2 * (Z.of_nat (length (splitLines leftText))
       + Z.of_nat (length (splitLines rightText))) < 2 ^ 31
  ∧ ∃ html,
      run_lines leftText rightText opts
      = Some (RunOk html (computeStats hunks) (renderPlainText hunks) hunks)
      ∧ (html = no_differences ↔ hasChanges hunks = false).
Proof.
  intros Hsize hunks.
  pose proof (splitLines_length_le leftText).
  pose proof (splitLines_length_le rightText).
  assert (2 * (Z.of_nat (length (splitLines leftText))
               + Z.of_nat (length (splitLines rightText))) < 2 ^ 31)
    as Hlines by lia.
  split; [done|].
  destruct (run_lines_returns leftText rightText opts Hlines) as [res Hres].
  rewrite Hres.
  unfold run_lines in Hres. cbv zeta in Hres. fold hunks in Hres.
  destruct (if bool_decide (viewMode opts = lit "sidebyside")
            then renderSideBySide hunks else renderInline hunks)
    as [html|] eqn:Hr; [|done].
  apply (inj Some) in Hres. rewrite <- Hres.
  exists html. split; [done|].
  revert Hr. case_bool_decide;
    [apply renderSideBySide_placeholder|apply renderInline_placeholder].
Qed.

(** X25. On plain text (without JSON mode), and for texts of fewer than
    [2 ^ 30 - 2] characters together, [run] returns a success result and
    nothing else: no error record, and no exception of a renderer. The
    hunks are those of [myersDiff] on the lines of the two texts, the
    statistics and the plain text are computed from these hunks. *)
Theorem run_on_text_returns (json : Type)
    (JSON_parse : list Z → list Z + json)
    (JSON_stringify : json → list Z + list Z)
    (leftText rightText : list Z) (opts : options) :
  jsonMode opts = false →
  2 * (Z.of_nat (length leftText) + Z.of_nat (length rightText) + 2) < 2 ^ 31 →
  let hunks := myersDiff (splitLines leftText) (splitLines rightText)
                 (ignoreWhitespace opts) in
  ∃ html,
    run json JSON_parse JSON_stringify leftText rightText opts
    = Some (RunOk html (computeStats hunks) (renderPlainText hunks) hunks).
Proof.
  intros Hjson Hsize hunks.
  destruct (run_lines_result leftText rightText opts Hsize)
    as (_ & html & Hrun & _).
  exists html. unfold run. by rewrite Hjson.
Qed.

Lemma run_on_text_returns_witness :
  let hunks := myersDiff (splitLines (lit "a")) (splitLines (lit "b")) false in
  ∃ html,
    run unit (λ _, inl []) (λ _, inr []) (lit "a") (lit "b")
      (Options false false (lit "inline"))
    = Some (RunOk html (computeStats hunks) (renderPlainText hunks) hunks).
Proof.
  apply (run_on_text_returns unit (λ _, inl []) (λ _, inr []) (lit "a") (lit "b")
           (Options false false (lit "inline"))); done.
Defined.

Lemma plain_rows_equal hunks :
  Forall (λ h, type h = Equal) hunks →
  Forall (λ row : Z * list Z, row.1 = 32) (hunks ≫= plain_rows).
Proof.
  induction 1 as [|h hunks Hh _ IH]; [constructor|].
  rewrite bind_cons. apply Forall_app. split; [|done].
  unfold plain_rows. rewrite Hh. by repeat constructor.
Qed.

Lemma rows_of_lines (rows : list (Z * list Z)) :
  Forall (λ row, row.1 = 32) rows →
  rows = (λ l, (32, l)) <$> rows.*2
  ∧ filter (λ row, row.1 ≠ 43) rows = rows.
Proof.
  induction 1 as [|[sign l] rows Hs _ [IH1 IH2]]; [done|].
  simpl in Hs. subst sign. rewrite filter_cons_True by done.
  rewrite !fmap_cons. cbn [snd]. by rewrite <- IH1, IH2.
Qed.

(** What [run] answers once the two texts are fixed. *)
Lemma run_lines_no_difference (leftText rightText : list Z) (opts : options) :
  2 * (Z.of_nat (length leftText) + Z.of_nat (length rightText) + 2) < 2 ^ 31 →
  let a := (λ l, normalizeForCompare l (ignoreWhitespace opts))
             <$> splitLines leftText in
  let b := (λ l, normalizeForCompare l (ignoreWhitespace opts))
             <$> splitLines rightText in
  ∃ html st plainText hunks,
    run_lines leftText rightText opts = Some (RunOk html st plainText hunks)
    ∧ (html = no_differences ↔ a = b)
    ∧ (a = b →
       st = Stats 0 0 0
       ∧ plainText
         = concat ((λ l, lit "  " ++ l ++ [10]) <$> splitLines leftText)).
Proof.
  intros Hsize a b.
  destruct (run_lines_result leftText rightText opts Hsize)
    as (Hlines & html & Hrun & Hph).
  set (left := splitLines leftText) in *.
  set (right := splitLines rightText) in *.
  set (hunks := myersDiff left right (ignoreWhitespace opts)) in *.
  destruct (myersDiff_no_change left right (ignoreWhitespace opts) Hlines)
    as (Hch & Hst & _).
  fold a b hunks in Hch, Hst.
  exists html, (computeStats hunks), (renderPlainText hunks), hunks.
  split; [done|]. split; [by rewrite Hph|].
  intros Hab. split; [by apply Hst|].
  destruct (myersDiff_layout left right (ignoreWhitespace opts) Hlines)
    as (Hs & _ & _ & Hl & _).
  fold hunks in Hs, Hl.
  assert (Forall (λ h, type h = Equal) hunks) as Hall.
  { apply hasChanges_false. by apply Hch. }
  destruct (rows_of_lines _ (plain_rows_equal hunks Hall)) as [Hrows Hfilter].
  pose proof (plain_rows_left left right hunks Hs) as Hpl.
  rewrite Hfilter, Hl in Hpl. apply (inj (fmap Some)) in Hpl.
  rewrite renderPlainText_rows, Hrows, Hpl, <- list_fmap_compose. done.
Qed.

(** X26. On plain text, [run] answers with the placeholder (no
    differences found) exactly when the lines of the two texts are the
    same once normalised; the statistics are then all zero, and the
    plain text lists the left lines, each behind two spaces. *)
Theorem run_reports_no_difference (json : Type)
    (JSON_parse : list Z → list Z + json)
    (JSON_stringify : json → list Z + list Z)
    (leftText rightText : list Z) (opts : options) :
  jsonMode opts = false →
  2 * (Z.of_nat (length leftText) + Z.of_nat (length rightText) + 2) < 2 ^ 31 →
  let a := (λ l, normalizeForCompare l (ignoreWhitespace opts))
             <$> splitLines leftText in
  let b := (λ l, normalizeForCompare l (ignoreWhitespace opts))
             <$> splitLines rightText in
  ∃ html st plainText hunks,
    run json JSON_parse JSON_stringify leftText rightText opts
    = Some (RunOk html st plainText hunks)
    ∧ (html = no_differences ↔ a = b)
    ∧ (a = b →
       st = Stats 0 0 0
       ∧ plainText
         = concat ((λ l, lit "  " ++ l ++ [10]) <$> splitLines leftText)).
Proof.
  intros Hjson Hsize. unfold run. rewrite Hjson.
  by apply run_lines_no_difference.
Qed.

Lemma run_reports_no_difference_witness :
  let leftText := lit "a b" ++ [10] ++ lit "c" in
  let rightText := lit "a  b" ++ [10] ++ lit " c" in
  let opts := Options true false (lit "sidebyside") in
  let a := (λ l, normalizeForCompare l (ignoreWhitespace opts))
             <$> splitLines leftText in
  let b := (λ l, normalizeForCompare l (ignoreWhitespace opts))
             <$> splitLines rightText in
  ∃ html st plainText hunks,
    run unit (λ _, inl []) (λ _, inr []) leftText rightText opts
    = Some (RunOk html st plainText hunks)
    ∧ (html = no_differences ↔ a = b)
    ∧ (a = b →
       st = Stats 0 0 0
       ∧ plainText
         = concat ((λ l, lit "  " ++ l ++ [10]) <$> splitLines leftText)).
Proof.
  apply (run_reports_no_difference unit (λ _, inl []) (λ _, inr [])
           (lit "a b" ++ [10] ++ lit "c") (lit "a  b" ++ [10] ++ lit " c")
           (Options true false (lit "sidebyside"))); done.
Defined.

(** X27. In JSON mode, two texts that parse to the same value are
    reported as identical, however they were written, when the value can
    be printed back: [run] answers with the placeholder and all-zero
    statistics, and the plain text lists the lines of the printed value.
    When [JSON.stringify] throws on the value, [run] answers with the
    error of the left pane and the message of the printer. *)
Theorem run_json_same_value (json : Type)
    (JSON_parse : list Z → list Z + json)
    (JSON_stringify : json → list Z + list Z)
    (leftText rightText : list Z) (opts : options) (value : json) :
  jsonMode opts = true →
  JSON_parse leftText = inr value →
  JSON_parse rightText = inr value →
  match JSON_stringify value with
  | inl message =>
      run json JSON_parse JSON_stringify leftText rightText opts
      = Some (RunError (lit "Left pane: Invalid JSON " ++ [8212] ++ lit " "
                        ++ message))
  | inr printed =>
      2 * (2 * Z.of_nat (length printed) + 2) < 2 ^ 31 →
      ∃ hunks,
        run json JSON_parse JSON_stringify leftText rightText opts
        = Some (RunOk no_differences (Stats 0 0 0)
                  (concat ((λ l, lit "  " ++ l ++ [10])
                             <$> splitLines printed))
                  hunks)
  end.
Proof.
  intros Hjson Hl Hr. unfold run, normalizeJSON.
  rewrite Hjson, Hl, Hr.
  destruct (JSON_stringify value) as [message|printed]; [done|].
  intros Hsize.
  destruct (run_lines_no_difference printed printed opts)
    as (html & st & plainText & hunks & -> & Hph & Heq); [lia|].
  destruct (Heq eq_refl) as [-> ->].
  exists hunks. by rewrite (proj2 Hph eq_refl).
Qed.

Lemma run_json_same_value_witness :
  ∃ hunks,
    run nat nested_parse (nested_stringify 2) (lit "[[]]") (lit " [ [ ] ]")
      (Options false true (lit "inline"))
    = Some (RunOk no_differences (Stats 0 0 0)
              (concat ((λ l, lit "  " ++ l ++ [10])
                         <$> [lit "["; lit "  []"; lit "]"]))
              hunks).
Proof.
  pose proof (run_json_same_value nat nested_parse (nested_stringify 2)
                (lit "[[]]") (lit " [ [ ] ]")
                (Options false true (lit "inline")) 2%nat
                eq_refl eq_refl eq_refl) as H.
  apply H. done.
Defined.

(** ** The suggestions of the page *)

Lemma suggestions_spec hunks l r cl :
  lStart <$> with_left hunks = seqZ (l - 1) cl →
  suggestions_from hunks l r
  = (λ h, Suggestion (lStart h + 1) (first_line (lLines h))
            (first_line (rLines h)))
    <$> filter (λ h, type h = Changed) hunks.
Proof.
  revert l r cl. induction hunks as [|h hunks IH]; intros l r cl Hl; [done|].
  cbn [suggestions_from]. rewrite with_left_cons in Hl.
  destruct (type h) eqn:Ht.
  - rewrite decide_True, fmap_cons in Hl by done.
    apply seqZ_cons_inv in Hl as [Hx Hl].
    rewrite filter_cons_False by congruence.
    apply (IH _ _ (cl - 1)). by replace (l + 1 - 1) with (l - 1 + 1) by lia.
  - rewrite decide_True, fmap_cons in Hl by done.
    apply seqZ_cons_inv in Hl as [Hx Hl].
    rewrite filter_cons_True, fmap_cons by done. f_equal.
    + f_equal. lia.
    + apply (IH _ _ (cl - 1)). by replace (l + 1 - 1) with (l - 1 + 1) by lia.
  - rewrite decide_True, fmap_cons in Hl by done.
    apply seqZ_cons_inv in Hl as [Hx Hl].
    rewrite filter_cons_False by congruence.
    apply (IH _ _ (cl - 1)). by replace (l + 1 - 1) with (l - 1 + 1) by lia.
  - rewrite decide_False in Hl by tauto.
    rewrite filter_cons_False by congruence. by apply (IH _ _ cl).
Qed.

(** X28. The suggestions that the page builds from the hunks of
    [myersDiff] are its changed hunks, in order: each carries the number
    of the left line of its hunk (the line index plus one), that left
    line as the old value and the right line of the hunk as the new
    value. *)
Theorem suggestions_are_changed_hunks
    (left right : list (list Z)) (ignoreWhitespace : bool) :
  2 * (Z.of_nat (length left) + Z.of_nat (length right)) < 2 ^ 31 →
  let hunks := myersDiff left right ignoreWhitespace in
  suggestionData hunks
  = (λ h, Suggestion (lStart h + 1) (arr_get left (lStart h))
            (arr_get right (rStart h)))
    <$> filter (λ h, type h = Changed) hunks.
Proof.
  intros Hsize hunks.
  destruct (myersDiff_layout left right ignoreWhitespace Hsize)
    as (Hs & Hl & _).
  fold hunks in Hs, Hl. unfold suggestionData.
  rewrite (suggestions_spec hunks 1 1 _ Hl).
  apply Forall_fmap_ext_1. apply Forall_forall. intros h Hh.
  apply list_elem_of_filter in Hh as [Ht Hh].
  rewrite Forall_forall in Hs. specialize (Hs h Hh).
  unfold hunk_sides, side_present in Hs. rewrite Ht in Hs.
  destruct Hs as [(Hli & l & Hl1 & Hl2) (Hri & r & Hr1 & Hr2)].
  rewrite Hl2, Hr2. unfold arr_get.
  rewrite !decide_True by lia. by rewrite Hl1, Hr1.
Qed.

Lemma suggestions_are_changed_hunks_witness :
  let left := [lit "a"; lit "b"; lit "c"] in
  let right := [lit "a"; lit "x"; lit "c"] in
  let hunks := myersDiff left right false in
  suggestionData hunks
  = (λ h, Suggestion (lStart h + 1) (arr_get left (lStart h))
            (arr_get right (rStart h)))
    <$> filter (λ h, type h = Changed) hunks.
Proof.
  apply (suggestions_are_changed_hunks [lit "a"; lit "b"; lit "c"]
           [lit "a"; lit "x"; lit "c"] false).
  done.
Defined.

(** X29. [applyLineChange] replaces one line of the left text and
    nothing else: when the lines of the text do not end with a carriage
    return, and the new value is a line of that kind, the lines of the
    new text are those of the old one with line [lineNum] (counted from
    one) replaced; a [lineNum] outside of the text changes nothing. *)
Theorem applyLineChange_replaces_line
    (value : list Z) (lineNum : Z) (v : list Z) :
  Forall no_cr_end (splitLines value) →
  no_lf v → no_cr_end v →
  splitLines (applyLineChange value lineNum (Some v))
  = if decide (1 ≤ lineNum ≤ Z.of_nat (length (splitLines value)))
    then <[Z.to_nat (lineNum - 1) := v]> (splitLines value)
    else splitLines value.
Proof.
  intros Hcr Hv1 Hv2. unfold applyLineChange. cbv zeta.
  destruct (split_from_spec (length value) value [] (le_n _) no_lf_nil)
    as (Hlf & Hlen & _).
  fold (splitLines value) in Hlf, Hlen.
  case_decide as Hin.
  - rewrite !bool_decide_eq_true_2 by lia. cbn [andb].
    rewrite <- list_fmap_insert. apply split_join_lines.
    + intros Hnil. apply (f_equal length) in Hnil.
      rewrite length_insert in Hnil. simpl in Hnil. lia.
    + apply Forall_insert; [|done].
      apply Forall_and. split; done.
  - destruct (bool_decide (1 ≤ lineNum)) eqn:H1; [|done].
    apply bool_decide_eq_true in H1.
    rewrite bool_decide_eq_false_2 by lia. done.
Qed.

Lemma applyLineChange_replaces_line_witness :
  splitLines
    (applyLineChange (lit "a" ++ [10] ++ lit "b" ++ [10] ++ lit "c") 2
       (Some (lit "x")))
  = [lit "a"; lit "x"; lit "c"].
Proof.
  apply (applyLineChange_replaces_line
           (lit "a" ++ [10] ++ lit "b" ++ [10] ++ lit "c") 2 (lit "x")).
  - repeat (apply List.Forall_cons; [unfold no_cr_end; compute_done|]).
    apply List.Forall_nil.
  - unfold no_lf. compute_done.
  - unfold no_cr_end. compute_done.
Defined.
